(** * Forecasting pipeline of the corona dashboard: a shallow embedding

    The notebooks build the pipeline out of pandas/NumPy operations on
    date-indexed columns.  A column is embedded as the list of its values in
    date order (dates are consecutive days, so a date is a position).

    Integer columns (int64) are lists of [Z].  Floating columns (float64)
    are lists of [float64] below: a finite value carries an exact rational,
    and the three IEEE 754 special values NaN, +inf and -inf are separate
    constructors following the IEEE rules for division by zero, for
    arithmetic on infinities and for NaN propagation.  Overflow and the
    sign of zero are outside this embedding, and so is the rounding error
    of binary64 arithmetic, with one exception: the anchoring step of
    [CasesModel.smooth], whose result depends on it, is embedded a second
    time with every operation rounded to binary64 ([Binary64.smooth]). *)

From Stdlib Require Import ZArith QArith Qround Qabs Qpower List Bool Lia Lqa.
From Stdlib Require Import Sorted Permutation String.
From Stdlib Require Floats.
Import ListNotations.

Open Scope Z_scope.

(* ================================================================== *)
(** ** float64 values                                                  *)
(* ================================================================== *)

Inductive float64 : Type :=
| Fin (q : Q)
| PInf
| NInf
| NaN.

Definition of_int (z : Z) : float64 := Fin (inject_Z z).

Definition isnan (x : float64) : bool :=
  match x with NaN => true | _ => false end.

Definition is_finite (x : float64) : Prop :=
  match x with Fin _ => True | _ => False end.

Definition Qltb (a b : Q) : bool := negb (Qle_bool b a).

Definition fneg (x : float64) : float64 :=
  match x with
  | Fin a => Fin (- a)
  | PInf => NInf
  | NInf => PInf
  | NaN => NaN
  end.

Definition fadd (x y : float64) : float64 :=
  match x, y with
  | NaN, _ | _, NaN => NaN
  | PInf, NInf | NInf, PInf => NaN
  | PInf, _ | _, PInf => PInf
  | NInf, _ | _, NInf => NInf
  | Fin a, Fin b => Fin (a + b)
  end.

Definition fsub (x y : float64) : float64 := fadd x (fneg y).

(** [inf_signed q]: the infinity carrying the sign of the nonzero
    rational [q]. *)
Definition inf_signed (q : Q) : float64 :=
  if Qltb q 0 then NInf else PInf.

Definition fmul (x y : float64) : float64 :=
  match x, y with
  | NaN, _ | _, NaN => NaN
  | Fin a, Fin b => Fin (a * b)
  | Fin a, PInf | PInf, Fin a =>
      if Qeq_bool a 0 then NaN else inf_signed a
  | Fin a, NInf | NInf, Fin a =>
      if Qeq_bool a 0 then NaN else inf_signed (- a)
  | PInf, PInf | NInf, NInf => PInf
  | PInf, NInf | NInf, PInf => NInf
  end.

(** Division as NumPy does it on float64: x/0 is +-inf for x <> 0 and NaN
    for x = 0; nothing is raised. *)
Definition fdiv (x y : float64) : float64 :=
  match x, y with
  | NaN, _ | _, NaN => NaN
  | Fin a, Fin b =>
      if Qeq_bool b 0
      then (if Qeq_bool a 0 then NaN else inf_signed a)
      else Fin (a / b)
  | Fin _, (PInf | NInf) => Fin 0
  | (PInf | NInf), (PInf | NInf) => NaN
  | PInf, Fin b => if Qltb b 0 then NInf else PInf
  | NInf, Fin b => if Qltb b 0 then PInf else NInf
  end.

(** Comparisons: every comparison with NaN is false. *)
Definition fle (x y : float64) : bool :=
  match x, y with
  | NaN, _ | _, NaN => false
  | NInf, _ => true
  | _, PInf => true
  | Fin a, Fin b => Qle_bool a b
  | _, _ => false
  end.

Definition flt (x y : float64) : bool :=
  match x, y with
  | NaN, _ | _, NaN => false
  | PInf, _ => false
  | _, NInf => false
  | Fin a, Fin b => Qltb a b
  | _, _ => true
  end.

Definition feqb (x y : float64) : bool :=
  match x, y with
  | Fin a, Fin b => Qeq_bool a b
  | PInf, PInf | NInf, NInf => true
  | _, _ => false
  end.

(** Same value: rationals are compared as numbers, not as fractions. *)
Definition feq (x y : float64) : Prop :=
  match x, y with
  | Fin a, Fin b => a == b
  | PInf, PInf | NInf, NInf | NaN, NaN => True
  | _, _ => False
  end.

(** [x ** n] for a Python int [n >= 0]: 1 for n = 0 whatever the base
    (also NaN ** 0 = 1), otherwise the n-fold product. *)
Fixpoint fpow_int (x : float64) (n : nat) : float64 :=
  match n with
  | O => Fin 1
  | S O => x
  | S n' => fmul x (fpow_int x n')
  end.

(** Rounding to the nearest integer, ties to the even one (np.rint, which
    is what [round(0)] calls). *)
Definition round_half_even (q : Q) : Z :=
  let f := Qfloor q in
  let r := (q - inject_Z f)%Q in
  match (r ?= 1 # 2)%Q with
  | Lt => f
  | Gt => f + 1
  | Eq => if Z.even f then f else f + 1
  end.

Definition round0 (x : float64) : float64 :=
  match x with
  | Fin q => of_int (round_half_even q)
  | _ => x
  end.

(** Truncation toward zero, the cast of a finite float64 to an integer. *)
Definition Qtrunc (q : Q) : Z :=
  if Qle_bool 0 q then Qfloor q else Qceiling q.

(** [astype('int')] on one value; pandas raises on NaN and on the
    infinities: [None]. *)
Definition astype_int (x : float64) : option Z :=
  match x with
  | Fin q => Some (Qtrunc q)
  | _ => None
  end.

(** Rounding to binary64.  [binary_exponent q] is the exponent [e] of a
    nonzero rational, 2^e <= |q| < 2^(e+1), and [round_binary64 q] the
    nearest multiple of 2^(e-52), ties to the even one: the binary64 value
    nearest to [q], with its 53 significant bits.  The exponent is not
    bounded: overflow to an infinity and the gradual underflow below
    2^-1022 are outside this definition. *)
Definition binary_exponent (q : Q) : Z :=
  let e0 := Z.log2 (Z.abs (Qnum q)) - Z.log2 (Zpos (Qden q)) in
  if Qle_bool (2 ^ e0) (Qabs q) then e0 else e0 - 1.

Definition round_binary64 (q : Q) : Q :=
  if Qeq_bool q 0 then 0%Q
  else
    let ulp := (2 ^ (binary_exponent q - 52))%Q in
    (inject_Z (round_half_even (q / ulp)) * ulp)%Q.

(** The result of one binary64 operation: the exact result, rounded. *)
Definition b64 (x : float64) : float64 :=
  match x with
  | Fin q => Fin (round_binary64 q)
  | _ => x
  end.

(** Errors (a raised exception) are [None]; [bind] sequences them. *)
Definition bind {A B : Type} (m : option A) (k : A -> option B) : option B :=
  match m with
  | Some a => k a
  | None => None
  end.

Notation "x <- m ;; k" := (bind m (fun x => k))
  (at level 61, m at next level, right associativity).

Fixpoint mapM {A B : Type} (f : A -> option B) (l : list A) : option (list B) :=
  match l with
  | [] => Some []
  | a :: tl =>
      b <- f a ;;
      bs <- mapM f tl ;;
      Some (b :: bs)
  end.

Definition series_astype_int (l : list float64) : option (list Z) :=
  mapM astype_int l.

(* ================================================================== *)
(** ** Monotonicity repair of a cumulative column                      *)
(* ================================================================== *)

(** [s.cummax()] *)
Fixpoint cummax_from (m : Z) (l : list Z) : list Z :=
  match l with
  | [] => []
  | x :: tl => Z.max m x :: cummax_from (Z.max m x) tl
  end.

Definition cummax (l : list Z) : list Z :=
  match l with
  | [] => []
  | x :: tl => x :: cummax_from x tl
  end.

(** [s < s.cummax()], element by element *)
Definition lt_series (a b : list Z) : list bool :=
  map (fun p => fst p <? snd p) (combine a b).

(** [s.mask(m)]: the flagged values become missing, the column turns into
    float64. *)
Definition mask (s : list Z) (m : list bool) : list float64 :=
  map (fun p => if (snd p : bool) then NaN else of_int (fst p)) (combine s m).

(** Distance to and value of the first non-missing entry of [l]. *)
Fixpoint next_valid (l : list float64) : option (nat * float64) :=
  match l with
  | [] => None
  | x :: tl =>
      if isnan x
      then match next_valid tl with
           | Some (d, v) => Some (S d, v)
           | None => None
           end
      else Some (O, x)
  end.

Definition of_nat (n : nat) : float64 := of_int (Z.of_nat n).

(** [interpolate()] with pandas' defaults (method linear, direction
    forward).  [prev] is the last non-missing value seen and how many
    positions back it lies.  A missing entry between two valid ones gets
    slope * distance + left value (np.interp); a run of missing entries at
    the end is filled with the last valid value; a run at the start stays
    missing. *)
Fixpoint interp_fwd (prev : option (float64 * nat)) (l : list float64)
  : list float64 :=
  match l with
  | [] => []
  | x :: tl =>
      if isnan x
      then
        match prev with
        | None => NaN :: interp_fwd None tl
        | Some (a, m) =>
            (match next_valid tl with
             | Some (d, b) =>
                 let slope := fdiv (fsub b a) (of_nat (m + d + 1)) in
                 fadd (fmul slope (of_nat m)) a
             | None => a
             end) :: interp_fwd (Some (a, S m)) tl
        end
      else x :: interp_fwd (Some (x, 1%nat)) tl
  end.

Definition interpolate (l : list float64) : list float64 := interp_fwd None l.

(** The repair of one column:
    [mask = s < s.cummax(); s.mask(mask).interpolate().round(0).astype('int64')] *)
Definition fix_bad_column (s : list Z) : option (list Z) :=
  series_astype_int (map round0 (interpolate (mask s (lt_series s (cummax s))))).

(** A table: named columns in column order, rows from day 0 on. *)
Definition DataFrame (A : Type) : Type := list (string * list A).

(** The cell that fixes all bad data of a table, column by column:
    [world_deaths_fixed = world_deaths.mask(mask).interpolate().round(0).astype('int64')].
    (The function [fix_bad_data] of the notebook is an exercise whose body
    is left empty.) *)
Definition world_deaths_fixed (world_deaths : DataFrame Z) : option (DataFrame Z) :=
  mapM (fun c => col <- fix_bad_column (snd c) ;; Some (fst c, col)) world_deaths.

(** The check the notebook runs after the repair:
    [(fixed < fixed.cummax()).sum()] on one column. *)
Definition count_bad (s : list Z) : nat :=
  List.length (filter (fun b : bool => b) (lt_series s (cummax s))).


(* ================================================================== *)
(** ** Column operations of pandas and NumPy                           *)
(* ================================================================== *)

(** Minimum observations needed to make a prediction. *)
Definition MIN_OBS : nat := 15.

(** A date is a number of days after the first row of the data. *)
Definition date : Type := Z.

(** [s.loc[d]]: a date that is not in the index raises KeyError. *)
Definition loc {A : Type} (s : list A) (d : date) : option A :=
  if d <? 0 then None else nth_error s (Z.to_nat d).

(** [s[:d]]: the rows up to and including date [d]. *)
Definition upto {A : Type} (s : list A) (d : date) : list A :=
  firstn (Z.to_nat (d + 1)) s.

(** [s.iloc[-n:]] for [n >= 0]; [-0] is [0], so n = 0 keeps everything. *)
Definition iloc_last {A : Type} (n : nat) (s : list A) : list A :=
  match n with
  | O => s
  | _ => skipn (List.length s - n) s
  end.

(** [s[-1]] and [s.values[-1]]: IndexError on an empty column. *)
Definition last_value {A : Type} (s : list A) : option A :=
  match s with
  | [] => None
  | x :: tl => Some (last tl x)
  end.

(** [s.diff()]: the first entry is missing. *)
Fixpoint diff_from (prev : float64) (l : list float64) : list float64 :=
  match l with
  | [] => []
  | x :: tl => fsub x prev :: diff_from x tl
  end.

Definition diff (l : list float64) : list float64 :=
  match l with
  | [] => []
  | x :: tl => NaN :: diff_from x tl
  end.

(** [np.diff(a)]: one entry fewer than [a]. *)
Definition np_diff (l : list float64) : list float64 :=
  match l with
  | [] => []
  | x :: tl => diff_from x tl
  end.

Definition dropna (l : list float64) : list float64 :=
  filter (fun x => negb (isnan x)) l.

Definition fillna (v : float64) (l : list float64) : list float64 :=
  map (fun x => if isnan x then v else x) l.

(** [s.cumsum()]: missing entries stay missing and are skipped by the
    running sum. *)
Fixpoint cumsum_from (acc : float64) (l : list float64) : list float64 :=
  match l with
  | [] => []
  | x :: tl =>
      if isnan x then NaN :: cumsum_from acc tl
      else fadd acc x :: cumsum_from (fadd acc x) tl
  end.

Definition cumsum (l : list float64) : list float64 := cumsum_from (Fin 0) l.

(** [s.clip(0)]: values below 0 become 0, NaN stays. *)
Definition clip0 (x : float64) : float64 :=
  if flt x (Fin 0) then Fin 0 else x.

(** Forward fill, the first step of [pct_change]. *)
Fixpoint ffill_from (prev : float64) (l : list float64) : list float64 :=
  match l with
  | [] => []
  | x :: tl =>
      if isnan x then prev :: ffill_from prev tl else x :: ffill_from x tl
  end.

Definition ffill (l : list float64) : list float64 := ffill_from NaN l.

Fixpoint zip_with {A B C : Type} (f : A -> B -> C) (a : list A) (b : list B)
  : list C :=
  match a, b with
  | x :: a', y :: b' => f x y :: zip_with f a' b'
  | _, _ => []
  end.

(** [s.pct_change()]: forward fill, then [data / data.shift(1) - 1]. *)
Definition pct_change (l : list float64) : list float64 :=
  let data := ffill l in
  zip_with (fun x p => fsub (fdiv x p) (Fin 1)) data (NaN :: data).

(** [np.arange(a, b)] *)
Definition arange (a b : Z) : list Z :=
  map (fun i => a + Z.of_nat i) (seq 0 (Z.to_nat (b - a))).

(** Position of the last entry equal to 0, if any. *)
Fixpoint last_zero_from (i : nat) (l : list Z) : option nat :=
  match l with
  | [] => None
  | x :: tl =>
      match last_zero_from (S i) tl with
      | Some j => Some j
      | None => if x =? 0 then Some i else None
      end
  end.

(* ================================================================== *)
(** ** The model and its parameters                                    *)
(* ================================================================== *)

(** The five parameters L, x0, k, v, s of the shifted logistic curve; also
    used for a row of bounds and for the initial guess. *)
Record params : Type := mk_params {
  p_L : float64;
  p_x0 : float64;
  p_k : float64;
  p_v : float64;
  p_s : float64
}.

Definition nan_params : params := mk_params NaN NaN NaN NaN NaN.

(** [general_logistic_shift], over the two NumPy functions it calls:
    [np_exp] for [np.exp] and [np_power] for [**] with a float exponent.
    [(L - s) / ((1 + np.exp(-k * (x - x0))) ** (1 / v)) + s];
    [logistic_denominator] is its divisor
    [(1 + np.exp(-k * (x - x0))) ** (1 / v)]. *)
Definition logistic_denominator
    (np_exp : float64 -> float64) (np_power : float64 -> float64 -> float64)
    (x : float64) (p : params) : float64 :=
  np_power (fadd (Fin 1) (np_exp (fmul (fneg (p_k p)) (fsub x (p_x0 p)))))
           (fdiv (Fin 1) (p_v p)).

Definition general_logistic_shift
    (np_exp : float64 -> float64) (np_power : float64 -> float64 -> float64)
    (x : float64) (p : params) : float64 :=
  fadd (fdiv (fsub (p_L p) (p_s p)) (logistic_denominator np_exp np_power x p))
       (p_s p).

(** [optimize_func]: the residuals [y - model(x, *params)]. *)
Definition optimize_func (model : float64 -> params -> float64)
    (x y : list float64) (p : params) : list float64 :=
  zip_with fsub y (map (fun xi => model xi p) x).

(** The feasibility test scipy applies to an initial guess: every
    component between its lower and its upper bound. *)
Definition in_bounds (bounds : params * params) (p : params) : bool :=
  let (lower, upper) := bounds in
  fle (p_L lower) (p_L p) && fle (p_L p) (p_L upper) &&
  fle (p_x0 lower) (p_x0 p) && fle (p_x0 p) (p_x0 upper) &&
  fle (p_k lower) (p_k p) && fle (p_k p) (p_k upper) &&
  fle (p_v lower) (p_v p) && fle (p_v p) (p_v upper) &&
  fle (p_s lower) (p_s p) && fle (p_s p) (p_s upper).

(* ================================================================== *)
(** ** Bounds and initial guess, as functions (Modeling New Waves)     *)
(* ================================================================== *)

Module Waves.

(** [get_L_limits(s, n1, n2)], with its guard for a missing growth. *)
Definition get_L_limits (s : list float64) (n1 n2 : nat)
  : option (float64 * float64 * float64) :=
  last_val <- last_value s ;;
  pct <- last_value (pct_change s) ;;
  let last_pct := fadd pct (Fin 1) in
  let L_min := fmul last_val (fpow_int last_pct n1) in
  let L_max := fadd (fmul last_val (fpow_int last_pct n2)) (Fin 1) in
  let L0 := fadd (fdiv (fsub L_max L_min) (Fin 2)) L_min in
  if isnan L_min then Some (Fin 0, Fin 1, Fin 0)
  else Some (L_min, L_max, L0).

(** [get_bounds_p0(s, n1=5, n2=50)]: ((lower, upper), p0). *)
Definition get_bounds_p0 (s : list float64) (n1 n2 : nat)
  : option ((params * params) * params) :=
  lim <- get_L_limits s n1 n2 ;;
  let '(L_min, L_max, L0) := lim in
  last_val <- last_value s ;;
  let s_max := fadd last_val (Fin (1 # 100)) in
  let s0 := fdiv s_max (Fin 2) in
  let lower := mk_params L_min (Fin (-50)) (Fin (1 # 100)) (Fin (1 # 100)) (Fin 0) in
  let upper := mk_params L_max (Fin 50) (Fin (1 # 10)) (Fin 2) s_max in
  let p0 := mk_params L0 (Fin 0) (Fin (1 # 10)) (Fin (1 # 10)) s0 in
  Some ((lower, upper), p0).

End Waves.

(* ================================================================== *)
(** ** Dictionaries and tables                                         *)
(* ================================================================== *)

(** A Python dict with string keys, in insertion order. *)
Definition dict (V : Type) : Type := list (string * V).

Fixpoint dict_get {V : Type} (d : dict V) (k : string) : option V :=
  match d with
  | [] => None
  | (k', v) :: tl => if String.eqb k' k then Some v else dict_get tl k
  end.

(** [d[k] = v]: an existing key keeps its place, a new key goes last. *)
Fixpoint dict_set {V : Type} (d : dict V) (k : string) (v : V) : dict V :=
  match d with
  | [] => [(k, v)]
  | (k', v') :: tl =>
      if String.eqb k' k then (k', v) :: tl else (k', v') :: dict_set tl k v
  end.

Definition GROUPS : list string := ["world"; "usa"]%string.

(** The labels of the result of an arithmetic operation on two rows
    labelled by distinct area names: those of the operands when both carry
    the same labels in the same order, otherwise the union of the labels
    in sorted order. *)
Fixpoint insert_sorted (a : string) (l : list string) : list string :=
  match l with
  | [] => [a]
  | b :: tl => if String.leb a b then a :: l else b :: insert_sorted a tl
  end.

Definition align_index (a b : list string) : list string :=
  if list_eq_dec string_dec a b then a
  else fold_right insert_sorted [] (nodup string_dec (a ++ b)).

(** A table of integers whose date index starts at [frame_start]; the raw
    data tables ([DataFrame]) start at day 0. *)
Record Frame : Type := mk_frame {
  frame_start : date;
  frame_cols : dict (list Z)
}.

Fixpoint foldM {A S : Type} (f : S -> A -> option S) (l : list A) (s : S)
  : option S :=
  match l with
  | [] => Some s
  | a :: tl => s' <- f s a ;; foldM f tl s'
  end.

(** [pd.concat((top, bottom))] of two tables with the same areas
    (distinct names, in any order): the rows of [bottom] go under those of
    [top], in the column order of [top].  In a run that does not raise the
    two tables always have the same areas.  When the areas differ pandas
    does not raise: it takes the union of the columns and leaves missing
    values in them, so that the result is no table of integers any more
    (the daily table built from it fills the missing values of an area
    that only [top] has, and [astype('int')] raises on an area that only
    [bottom] has).  Such tables are outside this embedding: [concat_rows]
    is [None] on them, which there does not stand for an exception. *)
Definition concat_rows (top bottom : dict (list Z)) : option (dict (list Z)) :=
  if negb (List.length top =? List.length bottom)%nat then None
  else mapM (fun c => b <- dict_get bottom (fst c) ;; Some (fst c, snd c ++ b)) top.

(** The date of the first row of [pd.concat((top, bottom))]: that of
    [top], or that of [bottom] when [top] has no rows. *)
Definition concat_start (top bottom : Frame) : date :=
  if forallb (fun c => (List.length (snd c) =? 0)%nat) (frame_cols top)
  then frame_start bottom
  else frame_start top.

(** [df.iloc[0]]: the first row, IndexError on a table without rows. *)
Definition first_row (cols : dict (list Z)) : option (dict Z) :=
  mapM (fun c => x <- hd_error (snd c) ;; Some (fst c, x)) cols.

Fixpoint int_diff_from (prev : Z) (l : list Z) : list Z :=
  match l with
  | [] => []
  | x :: tl => (x - prev) :: int_diff_from x tl
  end.

(** [cumsum()] of an integer column. *)
Fixpoint int_cumsum_from (acc : Z) (l : list Z) : list Z :=
  match l with
  | [] => []
  | x :: tl => (acc + x) :: int_cumsum_from (acc + x) tl
  end.

Definition int_cumsum (l : list Z) : list Z := int_cumsum_from 0 l.

(** [df.diff().fillna(first).astype('int')]: the missing first row of the
    differences is taken from the row [first], area by area. *)
Definition daily_from (first : dict Z) (cols : dict (list Z))
  : option (dict (list Z)) :=
  mapM (fun c =>
          match snd c with
          | [] => Some (fst c, [])
          | x :: tl =>
              f <- dict_get first (fst c) ;;
              Some (fst c, f :: int_diff_from x tl)
          end) cols.

(** The rows of a column from date [d] on, for a table starting at
    [start]. *)
Definition rows_from (start d : date) (col : list Z) : list Z :=
  skipn (Z.to_nat (d - start)) col.

(** [rolling(14, min_periods=1, center=True).mean()] on a column without
    missing values: the mean over the positions i-7 .. i+6 that exist. *)
Definition fsum (l : list float64) : float64 := fold_left fadd l (Fin 0).

Definition rolling_mean (l : list float64) : list float64 :=
  map (fun i =>
         let lo := (i - 7)%nat in
         let window := firstn (i + 7 - lo) (skipn lo l) in
         fdiv (fsum window) (of_nat (List.length window)))
      (seq 0 (List.length l)).

Fixpoint iterate {A : Type} (n : nat) (f : A -> A) (x : A) : A :=
  match n with
  | O => x
  | S n' => iterate n' f (f x)
  end.

(* ================================================================== *)
(** ** CasesModel (Encapsulation into Classes)                         *)
(* ================================================================== *)

(** A float64 column with a date index of consecutive days: the date of
    its first row and its values. *)
Record Series : Type := mk_series {
  first_date : date;
  values : list float64
}.

Module CasesModel.

(** The attributes set by [__init__] that the methods read. *)
Record config : Type := mk_config {
  last_date : date;      (* last date used for training *)
  n_train : nat;         (* number of preceding days used for training *)
  n_smooth : nat;        (* number of points used in LOWESS *)
  n_pred : nat;          (* days of predictions to make *)
  L_n_min : nat;         (* days used to estimate L_min *)
  L_n_max : nat          (* days used to estimate L_max *)
}.

(** What [run] stores for one area. *)
Record area_result : Type := mk_area_result {
  r_smoothed : Series;
  r_bounds : params * params;
  r_p0 : params;
  r_params : params;
  r_pred_daily : list Z;
  r_pred_cumulative : list Z
}.

(** The attributes [run] creates: one entry per group key. *)
Record attributes : Type := mk_attributes {
  a_smoothed : dict Frame;
  a_bounds : dict (dict (params * params));
  a_p0 : dict (dict params);
  a_params : dict (dict params);
  a_pred_daily : dict Frame;
  a_pred_cumulative : dict Frame;
  a_combined_daily : dict Frame;
  a_combined_cumulative : dict Frame;
  a_combined_daily_s : dict Frame;
  a_combined_cumulative_s : dict Frame
}.

Section Methods.

(** The three functions the class gets from outside: the model passed to
    the constructor, statsmodels' [lowess] (called with y, x and frac)
    and scipy's [least_squares] (called with the residual function, the
    initial guess and the bounds; [None] when it raises). *)
Variable model : float64 -> params -> float64.
Variable lowess : list float64 -> list float64 -> float64 -> list float64.
Variable least_squares :
  (params -> list float64) -> params -> params * params -> option params.

Variable self : config.

(** The first lines of [smooth]: the column cut at its last zero when it
    starts with 0, the date of the first row of [s_daily], and the daily
    differences [s_daily]. *)
Definition smooth_daily (s : list Z) : option (list Z * date * list float64) :=
  first <- hd_error s ;;
  if first =? 0 then
    (* Filter the data if the first value is 0 *)
    let last_zero_date :=
      match last_zero_from 0 s with Some p => p | None => O end in
    let s := skipn last_zero_date s in
    Some (s, Z.of_nat (S last_zero_date), dropna (diff (map of_int s)))
  else
    (* If first value not 0, use it to fill in the first missing value *)
    Some (s, 0, fillna (of_int first) (diff (map of_int s))).

(** [y_pred]: the call of [lowess] on the daily differences. *)
Definition smooth_lowess (s_daily : list float64) : list float64 :=
  let y := s_daily in
  let frac := fdiv (of_nat (n_smooth self)) (of_nat (List.length y)) in
  let x := map of_int (arange 0 (Z.of_nat (List.length y))) in
  lowess y x frac.

Definition smooth (s : list Z) : option Series :=
  let s := upto s (last_date self) in
  d <- smooth_daily s ;;
  let '(s, start, s_daily) := d in
  (* Don't smooth data with less than MIN_OBS values *)
  if (List.length s_daily <? MIN_OBS)%nat then
    Some (mk_series start (cumsum s_daily))
  else
    let y_pred := smooth_lowess s_daily in
    (* pd.Series(y_pred, index=s_daily.index) raises on a length mismatch *)
    if negb (List.length y_pred =? List.length s_daily)%nat then None
    else
      let s_pred := map clip0 y_pred in
      let s_pred_cumulative := cumsum s_pred in
      total <- last_value s_pred_cumulative ;;
      if feqb total (Fin 0) then
        (* Don't use smoothed values if they are all 0 *)
        Some (mk_series start (cumsum s_daily))
      else
        last_actual <- last_value s ;;
        let last_smoothed := total in
        let scale := fdiv (of_int last_actual) last_smoothed in
        Some (mk_series start (map (fun v => fmul v scale) s_pred_cumulative)).

(** Filter the data for the most recent to capture new waves. *)
Definition get_train (smoothed : list float64) : list float64 :=
  iloc_last (n_train self) smoothed.

Definition get_L_limits (s : list float64)
  : option (float64 * float64 * float64) :=
  last_val <- last_value s ;;
  pct <- last_value (pct_change s) ;;
  let last_pct := fadd pct (Fin 1) in
  let L_min := fmul last_val (fpow_int last_pct (L_n_min self)) in
  let L_max := fadd (fmul last_val (fpow_int last_pct (L_n_max self))) (Fin 1) in
  let L0 := fadd (fdiv (fsub L_max L_min) (Fin 2)) L_min in
  Some (L_min, L_max, L0).

Definition get_bounds_p0 (s : list float64)
  : option ((params * params) * params) :=
  lim <- get_L_limits s ;;
  let '(L_min, L_max, L0) := lim in
  last_val <- last_value s ;;
  let s_max := fadd last_val (Fin (1 # 100)) in
  let s0 := fdiv s_max (Fin 2) in
  let lower := mk_params L_min (Fin (-50)) (Fin (1 # 100)) (Fin (1 # 100)) (Fin 0) in
  let upper := mk_params L_max (Fin 50) (Fin (1 # 2)) (Fin 2) s_max in
  let p0 := mk_params L0 (Fin 0) (Fin (1 # 10)) (Fin (1 # 10)) s0 in
  Some ((lower, upper), p0).

Definition train_model (s : list float64) (bounds : params * params)
    (p0 : params) : option params :=
  let y := s in
  let n_train := List.length y in
  let x := map of_int (arange 0 (Z.of_nat n_train)) in
  least_squares (optimize_func model x y) p0 bounds.

Definition get_pred_daily (n_train : nat) (p : params) : list float64 :=
  let x_pred :=
    map of_int (arange (Z.of_nat n_train - 1)
                       (Z.of_nat n_train + Z.of_nat (n_pred self))) in
  let y_pred := map (fun x => model x p) x_pred in
  np_diff y_pred.

Definition get_pred_cumulative (s : list Z) (pred_daily : list float64)
  : option (list float64) :=
  last_actual_value <- loc s (last_date self) ;;
  Some (map (fun v => fadd v (of_int last_actual_value)) (cumsum pred_daily)).

(** The body of the loop of [run] for one area with column [s]. *)
Definition run_area (s : list Z) : option area_result :=
  smoothed <- smooth s ;;
  let train := get_train (values smoothed) in
  let n_train := List.length train in
  fit <-
    (if (n_train <? MIN_OBS)%nat then
       Some ((nan_params, nan_params), nan_params, nan_params,
             repeat (Fin 0) (n_pred self))
     else
       bp <- get_bounds_p0 train ;;
       let '(bounds, p0) := bp in
       p <- train_model train bounds p0 ;;
       Some (bounds, p0, p, map round0 (get_pred_daily n_train p))) ;;
  let '(bounds, p0, p, pred_daily) := fit in
  pred_cumulative <- get_pred_cumulative s pred_daily ;;
  daily_int <- series_astype_int pred_daily ;;
  cumulative_int <- series_astype_int pred_cumulative ;;
  Some (mk_area_result smoothed bounds p0 p daily_int cumulative_int).

(** The dictionary of tables passed to the constructor. *)
Variable data : dict (DataFrame Z).

(** Executed first in [run]: whatever an earlier run left is replaced.
    The per-group entries start empty. *)
Definition init_dictionaries (a : attributes) : attributes :=
  let empty_frames : dict Frame :=
    [("world_cases", mk_frame 0 []); ("usa_cases", mk_frame 0 [])]%string in
  let empty_dicts {V : Type} : dict (dict V) :=
    [("world_cases", []); ("usa_cases", [])]%string in
  mk_attributes empty_frames empty_dicts empty_dicts empty_dicts
                empty_frames empty_frames [] [] [] [].

(** [pd.DataFrame(self.smoothed[gk]).fillna(0).astype('int')]: the
    columns are aligned on the union of their dates, the holes are 0.
    When no area has a smoothed value the table has no rows, and its
    [frame_start] stands for no date (see [concat_start]). *)
Definition smoothed_frame (areas : dict area_result) : option Frame :=
  let spans :=
    map (fun c => let sm := r_smoothed (snd c) in
                  (first_date sm, first_date sm + Z.of_nat (List.length (values sm))))
        (filter (fun c => negb (List.length (values (r_smoothed (snd c))) =? 0)%nat)
                areas) in
  let lo := fold_right Z.min (hd 0 (map fst spans)) (map fst spans) in
  let hi := fold_right Z.max (hd 0 (map snd spans)) (map snd spans) in
  cols <- mapM (fun c =>
                  let sm := r_smoothed (snd c) in
                  ints <- series_astype_int (fillna (Fin 0) (values sm)) ;;
                  match ints with
                  | [] => Some (fst c, repeat 0 (Z.to_nat (hi - lo)))
                  | _ =>
                      let stop := first_date sm + Z.of_nat (List.length ints) in
                      Some (fst c,
                            repeat 0 (Z.to_nat (first_date sm - lo)) ++ ints ++
                            repeat 0 (Z.to_nat (hi - stop)))
                  end) areas ;;
  Some (mk_frame lo cols).

Definition round_L (p : params) : params :=
  mk_params (round0 (p_L p)) (p_x0 p) (p_k p) (p_v p) (p_s p).

(** Convert the dictionaries of one group to tables; [pd.concat] raises
    on a group without areas. *)
Definition convert_to_df (a : attributes) (gk : string)
    (areas : dict area_result) : option attributes :=
  smoothed <- smoothed_frame areas ;;
  if (List.length areas =? 0)%nat then None
  else
    let bounds :=
      map (fun c => (fst c, (round_L (fst (r_bounds (snd c))),
                             round_L (snd (r_bounds (snd c)))))) areas in
    let p0 := map (fun c => (fst c, round_L (r_p0 (snd c)))) areas in
    let fitted := map (fun c => (fst c, r_params (snd c))) areas in
    let pred_start := last_date self + 1 in
    let pred_daily :=
      mk_frame pred_start (map (fun c => (fst c, r_pred_daily (snd c))) areas) in
    let pred_cumulative :=
      mk_frame pred_start
               (map (fun c => (fst c, r_pred_cumulative (snd c))) areas) in
    Some (mk_attributes
            (dict_set (a_smoothed a) gk smoothed)
            (dict_set (a_bounds a) gk bounds)
            (dict_set (a_p0 a) gk p0)
            (dict_set (a_params a) gk fitted)
            (dict_set (a_pred_daily a) gk pred_daily)
            (dict_set (a_pred_cumulative a) gk pred_cumulative)
            (a_combined_daily a) (a_combined_cumulative a)
            (a_combined_daily_s a) (a_combined_cumulative_s a)).

(** One step of the loop of [combine_actual_with_pred]. *)
Definition combine_group (a : attributes) (entry : string * Frame)
  : option attributes :=
  let (gk, df_pred) := entry in
  table <- dict_get data gk ;;
  let df_actual := map (fun c => (fst c, upto (snd c) (last_date self))) table in
  df_comb <- concat_rows df_actual (frame_cols df_pred) ;;
  first <- first_row df_comb ;;
  daily <- daily_from first df_comb ;;
  smoothed <- dict_get (a_smoothed a) gk ;;
  df_comb_smooth <- concat_rows (frame_cols smoothed) (frame_cols df_pred) ;;
  daily_s <- daily_from first df_comb_smooth ;;
  Some (mk_attributes
          (a_smoothed a) (a_bounds a) (a_p0 a) (a_params a)
          (a_pred_daily a) (a_pred_cumulative a)
          (dict_set (a_combined_daily a) gk (mk_frame 0 daily))
          (dict_set (a_combined_cumulative a) gk (mk_frame 0 df_comb))
          (dict_set (a_combined_daily_s a) gk
                    (mk_frame (concat_start smoothed df_pred) daily_s))
          (dict_set (a_combined_cumulative_s a) gk
                    (mk_frame (concat_start smoothed df_pred) df_comb_smooth))).

Definition combine_actual_with_pred (a : attributes) : option attributes :=
  foldM combine_group (a_pred_cumulative a) a.

(** The loop of [run] over the areas of one group: the results are
    stored area by area. *)
Definition run_group (a : attributes) (group : string) : option attributes :=
  let gk := (group ++ "_cases")%string in
  df_cases <- dict_get data gk ;;
  areas <- foldM (fun d c => r <- run_area (snd c) ;; Some (dict_set d (fst c) r))
                 df_cases [] ;;
  convert_to_df a gk areas.

Definition run (a : attributes) : option attributes :=
  let a := init_dictionaries a in
  a <- foldM run_group GROUPS a ;;
  combine_actual_with_pred a.

End Methods.

End CasesModel.

(* ================================================================== *)
(** ** [CasesModel.smooth] in binary64 arithmetic                      *)
(* ================================================================== *)

(** [smooth] once more, with the result of every floating-point operation
    rounded to binary64: the fraction passed to [lowess], the running sums
    of [cumsum], the quotient [last_actual / last_smoothed] and the
    products by it.  The daily differences are those of
    [CasesModel.smooth_daily]: for counts below 2^53 the conversion to
    float64 and the differences are exact.  [lowess] returns binary64
    values. *)
Module Binary64.

Section Methods.

Variable lowess : list float64 -> list float64 -> float64 -> list float64.
Variable self : CasesModel.config.

Fixpoint cumsum_from (acc : float64) (l : list float64) : list float64 :=
  match l with
  | [] => []
  | x :: tl =>
      if isnan x then NaN :: cumsum_from acc tl
      else b64 (fadd acc x) :: cumsum_from (b64 (fadd acc x)) tl
  end.

Definition cumsum (l : list float64) : list float64 := cumsum_from (Fin 0) l.

Definition smooth_lowess (s_daily : list float64) : list float64 :=
  let y := s_daily in
  let frac :=
    b64 (fdiv (of_nat (CasesModel.n_smooth self)) (of_nat (List.length y))) in
  let x := map of_int (arange 0 (Z.of_nat (List.length y))) in
  lowess y x frac.

Definition smooth (s : list Z) : option Series :=
  let s := upto s (CasesModel.last_date self) in
  d <- CasesModel.smooth_daily s ;;
  let '(s, start, s_daily) := d in
  (* Don't smooth data with less than MIN_OBS values *)
  if (List.length s_daily <? MIN_OBS)%nat then
    Some (mk_series start (cumsum s_daily))
  else
    let y_pred := smooth_lowess s_daily in
    if negb (List.length y_pred =? List.length s_daily)%nat then None
    else
      let s_pred := map clip0 y_pred in
      let s_pred_cumulative := cumsum s_pred in
      total <- last_value s_pred_cumulative ;;
      if feqb total (Fin 0) then
        (* Don't use smoothed values if they are all 0 *)
        Some (mk_series start (cumsum s_daily))
      else
        last_actual <- last_value s ;;
        let last_smoothed := total in
        let scale := b64 (fdiv (of_int last_actual) last_smoothed) in
        Some (mk_series start
                (map (fun v => b64 (fmul v scale)) s_pred_cumulative)).

End Methods.

End Binary64.

(* ================================================================== *)
(** ** DeathsModel (Encapsulation into Classes)                        *)
(* ================================================================== *)

Module DeathsModel.

Record config : Type := mk_config {
  last_date : date;   (* last date used for training *)
  lag : Z;            (* days between cases and deaths *)
  period : Z          (* window size in days for the CFR *)
}.

(** The dictionaries of the object; [__init__] creates them empty and
    [run] writes one entry per group. *)
Record attributes : Type := mk_attributes {
  a_cfr : dict (dict float64);
  a_pred_daily : dict Frame;
  a_pred_cumulative : dict Frame;
  a_combined_daily : dict Frame;
  a_combined_cumulative : dict Frame
}.

(** The ratio of one area from its two window totals:
    [(deaths_total / cases_total).fillna(0.01)]. *)
Definition cfr_of_totals (deaths_total cases_total : Z) : float64 :=
  let ratio := fdiv (of_int deaths_total) (of_int cases_total) in
  if isnan ratio then Fin (1 # 100) else ratio.

Section Methods.

Variable data : dict (DataFrame Z).
Variable self : config.

(** [calculate_cfr] for one area with columns [deaths] and [cases]. *)
Definition cfr_area (deaths cases : list Z) : option float64 :=
  let first_day_deaths := last_date self - period self in
  let last_day_cases := last_date self - lag self in
  let first_day_cases := last_day_cases - period self in
  d_last <- loc deaths (last_date self) ;;
  d_first <- loc deaths first_day_deaths ;;
  c_last <- loc cases last_day_cases ;;
  c_first <- loc cases first_day_cases ;;
  let deaths_total := d_last - d_first in
  let cases_total := c_last - c_first in
  Some (cfr_of_totals deaths_total cases_total).

(** The difference of the rows of a table at two dates, area by area:
    [df.loc[last] - df.loc[first]]. *)
Definition window_totals (df : DataFrame Z) (first last : date)
  : option (dict Z) :=
  mapM (fun c =>
          l <- loc (snd c) last ;;
          f <- loc (snd c) first ;;
          Some (fst c, l - f)) df.

(** [calculate_cfr] for one group.  The division aligns the two rows of
    totals on their areas ([align_index]); an area that only one of the
    two tables has gets a missing ratio, hence the fallback, as does an
    area with 0 deaths among 0 cases. *)
Definition cfr_group (group : string) : option (dict float64) :=
  let first_day_deaths := last_date self - period self in
  let last_day_cases := last_date self - lag self in
  let first_day_cases := last_day_cases - period self in
  deaths <- dict_get data (group ++ "_deaths")%string ;;
  cases <- dict_get data (group ++ "_cases")%string ;;
  deaths_total <- window_totals deaths first_day_deaths (last_date self) ;;
  cases_total <- window_totals cases first_day_cases last_day_cases ;;
  Some (map (fun area =>
               (area,
                match dict_get deaths_total area, dict_get cases_total area with
                | Some d, Some c => cfr_of_totals d c
                | _, _ => Fin (1 # 100)
                end))
            (align_index (map fst deaths) (map fst cases))).

Definition calculate_cfr : option (dict (dict float64)) :=
  foldM (fun cfr group => r <- cfr_group group ;; Some (dict_set cfr group r))
        GROUPS [].

(** The two tables [combine_actual_with_pred] builds for one group key:
    daily and cumulative, actual values followed by the forecast. *)
Definition combine_tables (gk : string) (df_pred : Frame)
  : option (Frame * Frame) :=
  table <- dict_get data gk ;;
  let df_actual := map (fun c => (fst c, upto (snd c) (last_date self))) table in
  df_comb <- concat_rows df_actual (frame_cols df_pred) ;;
  first <- first_row df_comb ;;
  daily <- daily_from first df_comb ;;
  Some (mk_frame 0 daily, mk_frame 0 df_comb).

(** One step of the loop of [combine_actual_with_pred]. *)
Definition combine_group (a : attributes) (entry : string * Frame)
  : option attributes :=
  t <- combine_tables (fst entry) (snd entry) ;;
  Some (mk_attributes
          (a_cfr a) (a_pred_daily a) (a_pred_cumulative a)
          (dict_set (a_combined_daily a) (fst entry) (fst t))
          (dict_set (a_combined_cumulative a) (fst entry) (snd t))).

Definition combine_actual_with_pred (a : attributes) : option attributes :=
  foldM combine_group (a_pred_cumulative a) a.

(** The CasesModel instance after [run]: its forecast horizon and its
    attributes. *)
Variable cm_n_pred : nat.
Variable cm : CasesModel.attributes.

(** The daily and the cumulative forecast table of one group.  The
    product of the smoothed cases by the ratios aligns the columns of the
    table with the areas of the ratios ([align_index]); an area that one
    of the two lacks gives a column of missing values, on which
    [astype("int")] raises.  An area that the deaths table lacks gives a
    column of missing values in the cumulative forecast, on which the
    [astype('int')] of [combine_actual_with_pred] raises: [None] as
    well. *)
Definition forecast_group (cfr : dict (dict float64)) (group : string)
  : option (Frame * Frame) :=
  let group_cases := (group ++ "_cases")%string in
  let group_deaths := (group ++ "_deaths")%string in
  let cfr_start_date := last_date self - lag self in
  daily_cases_smoothed <- dict_get (CasesModel.a_combined_daily_s cm) group_cases ;;
  ratios <- dict_get cfr group ;;
  pred_index <- dict_get (CasesModel.a_pred_daily cm) group_cases ;;
  deaths <- dict_get data group_deaths ;;
  cols <-
    mapM (fun area =>
            cases <- dict_get (frame_cols daily_cases_smoothed) area ;;
            ratio <- dict_get ratios area ;;
            let rows := rows_from (frame_start daily_cases_smoothed)
                                  cfr_start_date cases in
            let pred_daily :=
              firstn cm_n_pred (map (fun v => fmul (of_int v) ratio) rows) in
            (* the index of cm.pred_daily needs as many rows *)
            if negb (List.length pred_daily =? cm_n_pred)%nat then None
            else
              (* Use repeated rolling average to smooth out the predicted deaths *)
              let pred_daily := iterate 5 rolling_mean pred_daily in
              daily <- series_astype_int (map round0 pred_daily) ;;
              col <- dict_get deaths area ;;
              last_deaths <- loc col (last_date self) ;;
              let cumulative :=
                map (fun v => v + last_deaths) (int_cumsum daily) in
              Some (area, (daily, cumulative)))
         (align_index (map fst (frame_cols daily_cases_smoothed))
                      (map fst ratios)) ;;
  let start := frame_start pred_index in
  Some (mk_frame start (map (fun c => (fst c, fst (snd c))) cols),
        mk_frame start (map (fun c => (fst c, snd (snd c))) cols)).

(** The body of the loop of [run] for one group. *)
Definition run_group (cfr : dict (dict float64)) (a : attributes)
    (group : string) : option attributes :=
  t <- forecast_group cfr group ;;
  let group_deaths := (group ++ "_deaths")%string in
  Some (mk_attributes
          (a_cfr a)
          (dict_set (a_pred_daily a) group_deaths (fst t))
          (dict_set (a_pred_cumulative a) group_deaths (snd t))
          (a_combined_daily a) (a_combined_cumulative a)).

Definition run (a : attributes) : option attributes :=
  cfr <- calculate_cfr ;;
  let a := mk_attributes cfr (a_pred_daily a) (a_pred_cumulative a)
                         (a_combined_daily a) (a_combined_cumulative a) in
  a <- foldM (run_group cfr) GROUPS a ;;
  combine_actual_with_pred a.

End Methods.

End DeathsModel.

(* ================================================================== *)
(** ** The whole pipeline                                              *)
(* ================================================================== *)

(** Modelled from the spec: [PrepareData.run] lives in prepare.py, which is
    not among the sources (the notebooks only import it).  Of its steps the
    pipeline needs the monotonicity repair (spec 4.1), which is the cell
    [world_deaths_fixed] above applied to every table of the raw data. *)
Definition prepare (raw : dict (DataFrame Z)) : option (dict (DataFrame Z)) :=
  mapM (fun t => df <- world_deaths_fixed (snd t) ;; Some (fst t, df)) raw.

(** One run of the pipeline on the two model objects, whose attributes
    before the run are [cm] and [dm]: repair the data, [CasesModel.run],
    then [DeathsModel.run] on its result.  The output tables are the
    attributes after the run. *)
Definition pipeline
    (model : float64 -> params -> float64)
    (lowess : list float64 -> list float64 -> float64 -> list float64)
    (least_squares :
       (params -> list float64) -> params -> params * params -> option params)
    (cases_config : CasesModel.config) (deaths_config : DeathsModel.config)
    (raw : dict (DataFrame Z))
    (cm : CasesModel.attributes) (dm : DeathsModel.attributes)
  : option (CasesModel.attributes * DeathsModel.attributes) :=
  data <- prepare raw ;;
  cm' <- CasesModel.run model lowess least_squares cases_config data cm ;;
  dm' <- DeathsModel.run data deaths_config
           (CasesModel.n_pred cases_config) cm' dm ;;
  Some (cm', dm').

(** The attributes of freshly constructed objects. *)
Definition fresh_cases : CasesModel.attributes :=
  CasesModel.mk_attributes [] [] [] [] [] [] [] [] [] [].

Definition fresh_deaths : DeathsModel.attributes :=
  DeathsModel.mk_attributes [] [] [] [] [].


(* ================================================================== *)
(** ** Sample inputs used to instantiate the theorems                  *)
(* ================================================================== *)

(** A stand-in for [lowess] that halves every daily value. *)
Definition lowess_half (y x : list float64) (frac : float64) : list float64 :=
  map (fun v => fmul v (Fin (1 # 2))) y.

(** 17 days of data, training up to the last one, 3 days of prediction. *)
Definition sample_config : CasesModel.config :=
  CasesModel.mk_config 16 60 15 3 5 50.

Definition sample_cases : list Z :=
  [0; 2; 4; 6; 8; 10; 12; 14; 16; 18; 20; 22; 24; 26; 28; 30; 32].

(** Six days of data: too few for smoothing or fitting. *)
Definition short_config : CasesModel.config :=
  CasesModel.mk_config 5 60 15 3 5 50.

Definition short_cases : list Z := [0; 0; 3; 5; 6; 9].

(** The two NumPy functions of the model at the arguments the examples
    need: np.exp(0) = 1, np.exp(-0.5) = 0.6065306597126334 and
    b ** 1.0 = b. *)
Definition np_exp_sample (x : float64) : float64 :=
  if feqb x (Fin 0) then Fin 1
  else if feqb x (Fin (- (1 # 2))) then Fin (6065306597126334 # 10000000000000000)
  else NaN.

Definition np_power_sample (b e : float64) : float64 :=
  if feqb e (Fin 1) then b else NaN.

(** Stand-ins for the model and for the optimizer (which here returns its
    initial guess), and raw tables for the two groups over 17 days, with
    one value to repair (Texas, day 4). *)
Definition model_linear (x : float64) (p : params) : float64 :=
  fadd (p_s p) (fmul (p_k p) x).

Definition least_squares_guess (residuals : params -> list float64)
    (p0 : params) (bounds : params * params) : option params :=
  Some p0.

Definition sample_raw : dict (DataFrame Z) :=
  [("world_cases",
    [("Aland", sample_cases);
     ("Borduria", [0; 0; 0; 0; 0; 0; 0; 0; 0; 0; 0; 0; 1; 2; 4; 7; 9])]);
   ("usa_cases",
    [("Texas", [5; 7; 9; 12; 11; 15; 18; 20; 25; 30; 34; 38; 45; 50; 56; 61; 70])]);
   ("world_deaths",
    [("Aland", [0; 0; 0; 0; 0; 0; 0; 0; 1; 1; 1; 2; 2; 2; 3; 3; 4]);
     ("Borduria", [0; 0; 0; 0; 0; 0; 0; 0; 0; 0; 0; 0; 0; 0; 0; 1; 2])]);
   ("usa_deaths",
    [("Texas", [0; 0; 0; 1; 1; 1; 2; 2; 3; 3; 3; 4; 5; 5; 6; 6; 7])])]%string.

Definition sample_deaths_config : DeathsModel.config :=
  DeathsModel.mk_config 16 2 5.

(** An outbreak that starts inside the lagged window: 46 days of data, no
    case up to day 30, 5 deaths by day 45. *)
Definition outbreak_config : DeathsModel.config :=
  DeathsModel.mk_config 45 15 30.

Definition outbreak_cases : list Z :=
  repeat 0 31 ++ [3; 8; 15; 30; 50; 80; 120; 170; 230; 300; 380; 470; 570; 680; 800].

Definition outbreak_deaths : list Z :=
  repeat 0 41 ++ [1; 2; 3; 4; 5].

(* ================================================================== *)
(** ** Functions and cells of the earlier notebooks                    *)
(* ================================================================== *)

(** [general_logistic], the curve without a shift (Logistic Growth Models,
    Modeling New Waves): [L / ((1 + np.exp(-k * (x - x0))) ** (1 / v))]. *)
Definition general_logistic
    (np_exp : float64 -> float64) (np_power : float64 -> float64 -> float64)
    (x L x0 k v : float64) : float64 :=
  fdiv L (np_power (fadd (Fin 1) (np_exp (fmul (fneg k) (fsub x x0))))
                   (fdiv (Fin 1) v)).

(** [calculate_cfr(data, last_date)], the function written before the
    class, for one area with columns [deaths] and [cases]: the windows are
    fixed at 30 and 15 days and the fallback is 0.005. *)
Definition calculate_cfr_area (last_date : date) (deaths cases : list Z)
  : option float64 :=
  let last_day_deaths := last_date in
  let first_day_deaths := last_date - 30 in
  let last_day_cases := last_day_deaths - 15 in
  let first_day_cases := last_day_cases - 30 in
  d_last <- loc deaths last_day_deaths ;;
  d_first <- loc deaths first_day_deaths ;;
  c_last <- loc cases last_day_cases ;;
  c_first <- loc cases first_day_cases ;;
  let deaths_total := d_last - d_first in
  let cases_total := c_last - c_first in
  let ratio := fdiv (of_int deaths_total) (of_int cases_total) in
  Some (if isnan ratio then Fin (5 # 1000) else ratio).

(** Data Smoothing: [weight = np.array([.08, .12, .15, .30, .15, .12, .08])]
    and [weighted_sum], applied to the windows of
    [rolling(7, min_periods=1, center=True)].  [w * x] raises when the
    two shapes differ, which happens for more than seven values. *)
Definition weight : list float64 :=
  [Fin (8 # 100); Fin (12 # 100); Fin (15 # 100); Fin (30 # 100);
   Fin (15 # 100); Fin (12 # 100); Fin (8 # 100)].

Definition weighted_sum (x : list float64) : option float64 :=
  let w := firstn (List.length x) weight in
  if negb (List.length w =? List.length x)%nat then None
  else Some (fdiv (fsum (zip_with fmul w x)) (fsum w)).

(** The product of two int64 values wraps around. *)
Definition wrap_int64 (z : Z) : Z := (z + 2 ^ 63) mod 2 ^ 64 - 2 ^ 63.

(** Data Smoothing, the cell that aligns the smoothed cumulative total
    (an integer column) with the actual one:
    [last_actual = texasc.values[-1]],
    [last_smoothed = s_lowess_cumulative.values[-1]],
    [s_lowess_cumulative = s_lowess_cumulative * last_actual / last_smoothed],
    [s_lowess_cumulative = s_lowess_cumulative.round(0).astype('int')]. *)
Definition align_cumulative (s_lowess_cumulative texasc : list Z)
  : option (list Z) :=
  last_actual <- last_value texasc ;;
  last_smoothed <- last_value s_lowess_cumulative ;;
  series_astype_int
    (map round0
       (map (fun v => fdiv (of_int (wrap_int64 (v * last_actual)))
                           (of_int last_smoothed))
            s_lowess_cumulative)).

(* ================================================================== *)
(** ** More sample inputs                                              *)
(* ================================================================== *)

(** A stand-in for [lowess] that returns 0 for every day. *)
Definition lowess_zero (y x : list float64) (frac : float64) : list float64 :=
  map (fun _ => Fin 0) y.

(** A stand-in for the model: a line through the origin with slope s. *)
Definition model_slope (x : float64) (p : params) : float64 :=
  fmul (p_s p) x.

(** 17 days of cumulative deaths. *)
Definition sample_deaths : list Z :=
  [0; 0; 0; 0; 0; 0; 0; 0; 1; 1; 1; 2; 2; 2; 3; 3; 4].

(** A training window of 10 days, below MIN_OBS. *)
Definition small_train_config : CasesModel.config :=
  CasesModel.mk_config 16 10 15 3 5 50.

(** The tables [DeathsModel.run] reads for one group with one area: 20
    smoothed daily cases on each of 20 days (17 actual, 3 predicted), a
    ratio of 0.1 and the deaths above. *)
Definition forecast_cm : CasesModel.attributes :=
  CasesModel.mk_attributes [] [] [] []
    [("world_cases", mk_frame 17 [("Aland", [20; 20; 20])])]%string
    [] [] []
    [("world_cases", mk_frame 0 [("Aland", repeat 20 20)])]%string
    [].

Definition forecast_data : dict (DataFrame Z) :=
  [("world_deaths", [("Aland", sample_deaths)])]%string.

Definition forecast_cfr : dict (dict float64) :=
  [("world", [("Aland", Fin (1 # 10))])]%string.

(** A table of predicted cumulative deaths for the two areas of
    [sample_raw]. *)
Definition sample_pred_deaths : Frame :=
  mk_frame 17 [("Aland", [5; 6; 6]); ("Borduria", [2; 3; 4])]%string.

(** Raw tables of 17 days without a single case or death. *)
Definition quiet_raw : dict (DataFrame Z) :=
  [("world_cases", [("Aland", repeat 0 17)]);
   ("usa_cases", [("Texas", repeat 0 17)]);
   ("world_deaths", [("Aland", repeat 0 17)]);
   ("usa_deaths", [("Texas", repeat 0 17)])]%string.

(** A stand-in for [lowess] in binary64 that shrinks every daily value by
    the factor 0.9, and 23 days of data ending at 243. *)
Definition lowess_shrink (y x : list float64) (frac : float64) : list float64 :=
  map (fun v => b64 (fmul v (b64 (Fin (9 # 10))))) y.

Definition anchor_config : CasesModel.config :=
  CasesModel.mk_config 22 60 15 3 5 50.

Definition anchor_cases : list Z :=
  [1; 2; 4; 7; 11; 16; 22; 29; 37; 46; 56; 67; 79; 92; 106; 121; 137; 154;
   172; 191; 211; 232; 243].

(** The same computation on the binary64 numbers of the kernel, to compare
    [round_binary64] with: the daily values times 0.9, summed up, and the
    total multiplied by [last_actual / total]. *)
Definition kernel_of_int (z : Z) : PrimFloat.float :=
  PrimFloat.of_uint63 (Uint63.of_Z z).

Definition kernel_to_Q (x : PrimFloat.float) : option Q :=
  match FloatOps.Prim2SF x with
  | SpecFloat.S754_zero _ => Some 0%Q
  | SpecFloat.S754_finite sign m e =>
      Some ((if sign then - inject_Z (Zpos m) else inject_Z (Zpos m)) * 2 ^ e)%Q
  | _ => None
  end.

Definition kernel_anchor (s_daily : list Z) (last_actual : Z) : PrimFloat.float :=
  let shrink := PrimFloat.div (kernel_of_int 9) (kernel_of_int 10) in
  let total :=
    fold_left
      (fun acc d => PrimFloat.add acc (PrimFloat.mul (kernel_of_int d) shrink))
      s_daily (kernel_of_int 0) in
  PrimFloat.mul total (PrimFloat.div (kernel_of_int last_actual) total).

(* ================================================================== *)
(** ** Auxiliary definitions for the proofs                            *)
(* ================================================================== *)

(** The masked column, written by recursion on the running maximum. *)
Fixpoint masked_from (m : Z) (l : list Z) : list float64 :=
  match l with
  | [] => []
  | x :: tl =>
      (if x <? Z.max m x then NaN else of_int x) :: masked_from (Z.max m x) tl
  end.

(** Columns whose non-missing entries are finite, non-decreasing and at
    least [a]. *)
Inductive mono_from : Q -> list float64 -> Prop :=
| mono_nil a : mono_from a []
| mono_nan a l : mono_from a l -> mono_from a (NaN :: l)
| mono_fin a b l : (a <= b)%Q -> mono_from b l -> mono_from a (Fin b :: l).

(** The value just before the head of [l], on the line from the last valid
    value [a] ([k] positions back) to the next valid value. *)
Definition line_before (a : Q) (k : nat) (l : list float64) : Q :=
  match next_valid l with
  | Some (d, Fin b) =>
      ((b + - a) / inject_Z (Z.of_nat (k + d)) * inject_Z (Z.of_nat (k - 1)) + a)%Q
  | _ => a
  end.

(** The last non-missing value of a column read after the value [a]. *)
Fixpoint last_valid (a : Q) (l : list float64) : Q :=
  match l with
  | [] => a
  | Fin b :: tl => last_valid b tl
  | _ :: tl => last_valid a tl
  end.

(** Running sums of rationals, started at [a]. *)
Fixpoint qsum_from (a : Q) (l : list Q) : list Q :=
  match l with
  | [] => []
  | x :: tl => (a + x)%Q :: qsum_from (a + x) tl
  end.


(** [fpow_int] on a finite base. *)
Fixpoint qpow (g : Q) (n : nat) : Q :=
  match n with
  | O => 1
  | S O => g
  | S n' => g * qpow g n'
  end.

(* ================================================================== *)
(** ** Facts about rounding                                            *)
(* ================================================================== *)

Lemma Qltb_true (a b : Q) : Qltb a b = true <-> (a < b)%Q.
Proof.
  unfold Qltb. rewrite negb_true_iff. split; intro H.
  - apply Qnot_le_lt. intro Hle. apply Qle_bool_iff in Hle. congruence.
  - destruct (Qle_bool b a) eqn:E; [|reflexivity].
    apply Qle_bool_iff in E. exfalso. apply (Qlt_not_le _ _ H E).
Qed.

Lemma Qltb_false (a b : Q) : Qltb a b = false <-> (b <= a)%Q.
Proof.
  unfold Qltb. rewrite negb_false_iff. apply Qle_bool_iff.
Qed.

Lemma Qeq_bool_false (a b : Q) : Qeq_bool a b = false <-> ~ (a == b)%Q.
Proof.
  split; intro H.
  - intro E. apply Qeq_bool_iff in E. congruence.
  - destruct (Qeq_bool a b) eqn:E; [|reflexivity].
    apply Qeq_bool_iff in E. contradiction.
Qed.

Lemma round_half_even_bounds (q : Q) :
  Qfloor q <= round_half_even q <= Qfloor q + 1.
Proof.
  unfold round_half_even.
  destruct (Qcompare _ _); [destruct (Z.even _)| |]; lia.
Qed.

Lemma round_half_even_inject (z : Z) : round_half_even (inject_Z z) = z.
Proof.
  unfold round_half_even. rewrite Qfloor_Z.
  assert (E : (inject_Z z - inject_Z z ?= 1 # 2)%Q = Lt).
  { apply (proj1 (Qlt_alt _ _)). lra. }
  now rewrite E.
Qed.

Lemma Qfloor_frac (q : Q) :
  (0 <= q - inject_Z (Qfloor q) /\ q - inject_Z (Qfloor q) < 1)%Q.
Proof.
  pose proof (Qfloor_le q) as H1. pose proof (Qlt_floor q) as H2.
  rewrite inject_Z_plus in H2. change (inject_Z 1) with 1%Q in H2. split; lra.
Qed.

Lemma round_half_even_mono (p q : Q) :
  (p <= q)%Q -> round_half_even p <= round_half_even q.
Proof.
  intro Hpq.
  pose proof (Qfloor_resp_le _ _ Hpq) as Hf.
  destruct (Z.eq_dec (Qfloor p) (Qfloor q)) as [E | NE].
  - unfold round_half_even. rewrite E.
    destruct (Qcompare (p - inject_Z (Qfloor q)) (1 # 2)) eqn:Cp;
      destruct (Qcompare (q - inject_Z (Qfloor q)) (1 # 2)) eqn:Cq;
      try (destruct (Z.even (Qfloor q))); try lia; exfalso;
      repeat match goal with
        | H : Qcompare _ _ = Eq |- _ => apply (proj2 (Qeq_alt _ _)) in H
        | H : Qcompare _ _ = Lt |- _ => apply (proj2 (Qlt_alt _ _)) in H
        | H : Qcompare _ _ = Gt |- _ => apply (proj2 (Qgt_alt _ _)) in H
        end; lra.
  - pose proof (round_half_even_bounds p). pose proof (round_half_even_bounds q).
    lia.
Qed.

Lemma Qtrunc_inject (z : Z) : Qtrunc (inject_Z z) = z.
Proof.
  unfold Qtrunc. destruct (Qle_bool 0 (inject_Z z)).
  - apply Qfloor_Z.
  - apply Qceiling_Z.
Qed.

(* ================================================================== *)
(** ** The repaired column is monotone                                 *)
(* ================================================================== *)

Lemma mask_cummax_from (m : Z) (l : list Z) :
  mask l (lt_series l (cummax_from m l)) = masked_from m l.
Proof.
  revert m. induction l as [|x tl IH]; intro m; [reflexivity|].
  unfold mask, lt_series in *. simpl. now rewrite IH.
Qed.

Lemma mask_cummax (s : list Z) :
  mask s (lt_series s (cummax s)) =
  match s with
  | [] => []
  | x :: tl => of_int x :: masked_from x tl
  end.
Proof.
  destruct s as [|x tl]; [reflexivity|].
  unfold cummax. pose proof (mask_cummax_from x tl) as H.
  unfold mask, lt_series in *. simpl. rewrite Z.ltb_irrefl. now rewrite H.
Qed.

Lemma masked_from_mono (m : Z) (l : list Z) :
  mono_from (inject_Z m) (masked_from m l).
Proof.
  revert m. induction l as [|x tl IH]; intro m; simpl.
  - constructor.
  - destruct (Z.ltb_spec x (Z.max m x)) as [Hlt | Hge].
    + constructor. replace (Z.max m x) with m by lia. apply IH.
    + assert (Z.max m x = x) as -> by lia.
      constructor; [|apply IH].
      rewrite <- Zle_Qle. lia.
Qed.

Lemma next_valid_mono (a : Q) (l : list float64) :
  mono_from a l ->
  match next_valid l with
  | None => True
  | Some (_, v) => exists b, v = Fin b /\ (a <= b)%Q
  end.
Proof.
  induction 1 as [a | a l H IH | a b l Hab H IH]; simpl.
  - exact I.
  - destruct (next_valid l) as [[d v]|]; [exact IH | exact I].
  - exists b. split; [reflexivity | exact Hab].
Qed.

Lemma Qle_scale (x m n : Q) :
  (0 <= x -> 0 <= m -> m <= n -> 0 < n -> x / n * m <= x)%Q.
Proof.
  intros Hx Hm Hmn Hn.
  assert (E : (x / n * m == x * (m / n))%Q) by (field; lra).
  rewrite E.
  assert (H1 : (m / n <= 1)%Q).
  { apply Qle_shift_div_r; lra. }
  assert (H0 : (0 <= m / n)%Q).
  { apply Qle_shift_div_l; lra. }
  nra.
Qed.

Lemma Qle_scale_step (x m n : Q) :
  (0 <= x -> 0 < n -> x / n * m <= x / n * (m + 1))%Q.
Proof.
  intros Hx Hn.
  assert (H0 : (0 <= x / n)%Q) by (apply Qle_shift_div_l; lra).
  nra.
Qed.

Lemma inject_nat_pos (n : nat) : (0 < n)%nat -> (0 < inject_Z (Z.of_nat n))%Q.
Proof.
  intro H. replace 0%Q with (inject_Z 0) by reflexivity.
  rewrite <- Zlt_Qlt. lia.
Qed.

Lemma inject_nat_nonneg (n : nat) : (0 <= inject_Z (Z.of_nat n))%Q.
Proof.
  replace 0%Q with (inject_Z 0) by reflexivity.
  rewrite <- Zle_Qle. lia.
Qed.

Lemma inject_nat_S (n : nat) :
  (inject_Z (Z.of_nat (S n)) == inject_Z (Z.of_nat n) + 1)%Q.
Proof.
  rewrite Nat2Z.inj_succ. unfold Z.succ. rewrite inject_Z_plus. reflexivity.
Qed.

Lemma last_cons {A : Type} (x d : A) (l : list A) :
  last (x :: l) d = last l x.
Proof.
  revert x d. induction l as [|y tl IH]; intros x d; [reflexivity|].
  change (last (x :: y :: tl) d) with (last (y :: tl) d).
  now rewrite !IH.
Qed.

Lemma last_default {A : Type} (d d' : A) (l : list A) :
  l <> [] -> last l d = last l d'.
Proof.
  destruct l as [|x tl]; [congruence|]. intros _. now rewrite !last_cons.
Qed.

Lemma line_before_first (b : Q) (l : list float64) :
  (line_before b 1 l == b)%Q.
Proof.
  unfold line_before.
  destruct (next_valid l) as [[d [q| | |]]|]; try reflexivity.
  simpl. ring.
Qed.

Lemma interp_value (a b : Q) (k d : nat) :
  fadd (fmul (fdiv (fsub (Fin b) (Fin a)) (of_nat (k + d + 1))) (of_nat k)) (Fin a)
  = Fin ((b + - a) / inject_Z (Z.of_nat (k + d + 1)) * inject_Z (Z.of_nat k) + a).
Proof.
  unfold fsub, fneg, fadd, of_nat, of_int, fdiv.
  assert (E : Qeq_bool (inject_Z (Z.of_nat (k + d + 1))) 0 = false).
  { apply Qeq_bool_false. intro H.
    pose proof (inject_nat_pos (k + d + 1) ltac:(lia)). lra. }
  rewrite E. reflexivity.
Qed.

Lemma line_before_valid (a b : Q) (k : nat) (l : list float64) :
  (a <= b)%Q -> (1 <= k)%nat -> (line_before a k (Fin b :: l) <= b)%Q.
Proof.
  intros Hab Hk. unfold line_before. cbn [next_valid isnan]. cbv beta iota.
  replace (k + 0)%nat with k by lia.
  assert (Hba : (0 <= b + - a)%Q) by lra.
  assert (Hle : (inject_Z (Z.of_nat (k - 1)) <= inject_Z (Z.of_nat k))%Q).
  { rewrite <- Zle_Qle. lia. }
  assert (Hpos : (0 < k)%nat) by lia.
  pose proof (Qle_scale (b + - a) (inject_Z (Z.of_nat (k - 1)))
                (inject_Z (Z.of_nat k)) Hba (inject_nat_nonneg _)
                Hle (inject_nat_pos k Hpos)) as Hs.
  set (X := ((b + - a) / inject_Z (Z.of_nat k) * inject_Z (Z.of_nat (k - 1)))%Q) in *.
  lra.
Qed.

Lemma interp_fwd_mono (l : list float64) (a : Q) :
  mono_from a l ->
  forall k, (1 <= k)%nat ->
  exists zs,
    interp_fwd (Some (Fin a, k)) l = map Fin zs /\
    List.length zs = List.length l /\
    Forall (Qle (line_before a k l)) zs /\
    StronglySorted Qle zs /\
    last zs a = last_valid a l.
Proof.
  induction 1 as [a | a l H IH | a b l Hab H IH]; intros k Hk.
  - exists []. repeat split; constructor.
  - destruct (IH (S k) ltac:(lia)) as (zs & Ezs & Hlen & Hlb & Hsort & Hlast).
    pose proof (next_valid_mono a l H) as Hnv.
    simpl interp_fwd. rewrite Ezs.
    unfold line_before in *. cbn [next_valid isnan].
    destruct (next_valid l) as [[d v]|] eqn:Env; cbv beta iota.
    + destruct Hnv as (b & -> & Hab).
      rewrite interp_value.
      replace (S k + d)%nat with (k + d + 1)%nat in Hlb by lia.
      replace (S k - 1)%nat with k in Hlb by lia.
      replace (k + S d)%nat with (k + d + 1)%nat by lia.
      set (h := ((b + - a) / inject_Z (Z.of_nat (k + d + 1)) *
                 inject_Z (Z.of_nat k) + a)%Q) in *.
      assert (Hstep :
        ((b + - a) / inject_Z (Z.of_nat (k + d + 1)) *
           inject_Z (Z.of_nat (k - 1)) + a <= h)%Q).
      { unfold h.
        assert (Hba : (0 <= b + - a)%Q) by lra.
        assert (Hpos : (0 < k + d + 1)%nat) by lia.
        pose proof (Qle_scale_step (b + - a)
                      (inject_Z (Z.of_nat (k - 1)))
                      (inject_Z (Z.of_nat (k + d + 1)))
                      Hba (inject_nat_pos _ Hpos)) as Hs.
        pose proof (inject_nat_S (k - 1)) as HS.
        replace (S (k - 1)) with k in HS by lia.
        rewrite HS. lra. }
      exists (h :: zs). repeat split.
      * simpl. now rewrite Hlen.
      * constructor; [exact Hstep|].
        eapply Forall_impl; [|exact Hlb]. intros z Hz. cbv beta in Hz. lra.
      * constructor; assumption.
      * rewrite last_cons. simpl last_valid. rewrite <- Hlast.
        apply last_default. intros ->.
        destruct l; [discriminate Env | discriminate Hlen].
    + exists (a :: zs). repeat split.
      * simpl. now rewrite Hlen.
      * constructor; [apply Qle_refl | exact Hlb].
      * constructor; assumption.
      * rewrite last_cons. exact Hlast.
  - destruct (IH 1%nat ltac:(lia)) as (zs & Ezs & Hlen & Hlb & Hsort & Hlast).
    simpl interp_fwd. rewrite Ezs.
    assert (Hb : Forall (Qle b) zs).
    { eapply Forall_impl; [|exact Hlb]. intros z Hz. cbv beta in Hz.
      pose proof (line_before_first b l). lra. }
    exists (b :: zs). repeat split.
    + simpl. now rewrite Hlen.
    + constructor.
      * apply (line_before_valid a b k l Hab Hk).
      * eapply Forall_impl; [|exact Hb]. intros z Hz. cbv beta in Hz.
        pose proof (line_before_valid a b k l Hab Hk) as Hv.
        eapply Qle_trans; [exact Hv | exact Hz].
    + constructor; assumption.
    + rewrite last_cons. simpl last_valid. exact Hlast.
Qed.

Lemma last_valid_masked (m : Z) (l : list Z) :
  last_valid (inject_Z m) (masked_from m l) = inject_Z (last (cummax_from m l) m).
Proof.
  revert m. induction l as [|x tl IH]; intro m; [reflexivity|].
  cbn [masked_from cummax_from]. rewrite last_cons.
  destruct (Z.ltb_spec x (Z.max m x)) as [Hlt | Hge].
  - cbn [last_valid]. replace (Z.max m x) with m by lia. apply IH.
  - unfold of_int. cbn [last_valid].
    assert (Z.max m x = x) as -> by lia. apply IH.
Qed.

Lemma astype_round_map (qs : list Q) :
  series_astype_int (map round0 (map Fin qs)) = Some (map round_half_even qs).
Proof.
  unfold series_astype_int.
  induction qs as [|q tl IH]; [reflexivity|].
  cbn [map mapM round0 of_int astype_int bind].
  rewrite Qtrunc_inject. cbn [map] in IH. rewrite IH. reflexivity.
Qed.

Lemma StronglySorted_round (qs : list Q) :
  StronglySorted Qle qs -> StronglySorted Z.le (map round_half_even qs).
Proof.
  induction 1 as [|q tl Hs IH Hall]; simpl; constructor; [exact IH|].
  rewrite Forall_map. eapply Forall_impl; [|exact Hall].
  intros z Hz. now apply round_half_even_mono.
Qed.

Lemma StronglySorted_nth (r : list Z) :
  StronglySorted Z.le r ->
  forall i j, (i < j < List.length r)%nat -> nth i r 0 <= nth j r 0.
Proof.
  induction 1 as [|x tl Hs IH Hall]; intros i j Hij; [simpl in Hij; lia|].
  destruct j as [|j]; [lia|]. simpl in Hij.
  destruct i as [|i]; simpl.
  - rewrite Forall_forall in Hall. apply Hall. apply nth_In. lia.
  - apply IH. lia.
Qed.

Lemma cummax_from_sorted (m : Z) (l : list Z) :
  StronglySorted Z.le (m :: l) -> cummax_from m l = l.
Proof.
  revert m. induction l as [|x tl IH]; intros m H; [reflexivity|].
  inversion H as [|? ? Hs Hall]; subst.
  inversion Hall as [|? ? Hmx _]; subst.
  simpl. replace (Z.max m x) with x by lia. now rewrite IH.
Qed.

Lemma count_bad_sorted (r : list Z) : StronglySorted Z.le r -> count_bad r = 0%nat.
Proof.
  intro H. unfold count_bad.
  assert (E : cummax r = r).
  { destruct r as [|x tl]; [reflexivity|].
    unfold cummax. now rewrite cummax_from_sorted. }
  rewrite E. unfold lt_series.
  clear. induction r as [|x tl IH]; [reflexivity|].
  simpl. rewrite Z.ltb_irrefl. exact IH.
Qed.

Lemma last_cummax_from_unflagged (m d : Z) (l : list Z) :
  l <> [] ->
  last (lt_series l (cummax_from m l)) false = false ->
  last (cummax_from m l) d = last l d.
Proof.
  revert m d. induction l as [|x tl IH]; intros m d Hne Hflag; [congruence|].
  unfold lt_series in *. cbn [cummax_from combine map fst snd] in *.
  rewrite !last_cons in *.
  destruct tl as [|y tl'].
  - simpl in *. apply Z.ltb_ge in Hflag. lia.
  - rewrite (last_default _ false) in Hflag by (simpl; discriminate).
    rewrite (last_default (Z.max m x) 0) by (simpl; discriminate).
    rewrite (last_default x 0) by discriminate.
    apply IH; [discriminate | exact Hflag].
Qed.

Lemma fix_bad_column_spec (s : list Z) :
  exists r,
    fix_bad_column s = Some r /\
    List.length r = List.length s /\
    StronglySorted Z.le r /\
    last r 0 = last (cummax s) 0.
Proof.
  unfold fix_bad_column. rewrite mask_cummax.
  destruct s as [|x tl].
  - exists []. repeat split. constructor.
  - unfold interpolate. cbn [interp_fwd of_int isnan].
    destruct (interp_fwd_mono _ _ (masked_from_mono x tl) 1%nat (le_n _))
      as (zs & Ezs & Hlen & Hlb & Hsort & Hlast).
    unfold of_int. rewrite Ezs.
    change (Fin (inject_Z x) :: map Fin zs) with (map Fin (inject_Z x :: zs)).
    rewrite astype_round_map.
    exists (map round_half_even (inject_Z x :: zs)). split; [reflexivity|].
    assert (Hx : Forall (Qle (inject_Z x)) zs).
    { eapply Forall_impl; [|exact Hlb]. intros z Hz. cbv beta in Hz.
      pose proof (line_before_first (inject_Z x) (masked_from x tl)). lra. }
    repeat split.
    + rewrite length_map. simpl. rewrite Hlen.
      clear. generalize x. induction tl; intro; simpl; auto.
    + apply StronglySorted_round. constructor; assumption.
    + cbn [map cummax]. rewrite !last_cons.
      rewrite <- (round_half_even_inject (last (cummax_from x tl) x)).
      rewrite <- last_valid_masked, <- Hlast.
      clear. generalize (inject_Z x). induction zs as [|z zs IH]; intro q.
      * reflexivity.
      * cbn [map]. rewrite !last_cons. apply IH.
Qed.

(* ================================================================== *)
(** ** C1: the repaired column                                         *)
(* ================================================================== *)

(** C1, the claim as stated fails: the repair of the column 10, 20, 30, 25
    flags the last value (below the running maximum 30) and fills it with
    the last valid value, so the repaired column ends in 30 while the input
    ends in 25. *)
Lemma C1_last_value_counterexample :
  fix_bad_column [10; 20; 30; 25] = Some [10; 20; 30; 30] /\
  last [10; 20; 30; 30] 0 <> last [10; 20; 30; 25] 0.
Proof.
  split; [reflexivity | discriminate].
Qed.

(** C1, amended: for every input column the repair returns a column of the
    same length that is monotonically non-decreasing (for all i < j,
    S[i] <= S[j]) and passes the notebook's re-check with zero flagged
    points; its last value is the running maximum of the input at the last
    date, which is the input's last value whenever the last input value is
    not flagged (not strictly below the running maximum). *)
Theorem C1_repair_monotone :
  forall s : list Z,
  exists r,
    fix_bad_column s = Some r /\
    List.length r = List.length s /\
    (forall i j, (i < j < List.length r)%nat -> nth i r 0 <= nth j r 0) /\
    count_bad r = 0%nat /\
    last r 0 = last (cummax s) 0 /\
    (last (lt_series s (cummax s)) false = false -> last r 0 = last s 0).
Proof.
  intro s.
  destruct (fix_bad_column_spec s) as (r & Er & Hlen & Hsort & Hlast).
  exists r. repeat split; auto.
  - now apply StronglySorted_nth.
  - now apply count_bad_sorted.
  - intro Hflag. rewrite Hlast.
    destruct s as [|x tl]; [reflexivity|].
    unfold cummax in *. rewrite !last_cons.
    destruct tl as [|y tl']; [reflexivity|].
    assert (Hf : last (lt_series (y :: tl') (cummax_from x (y :: tl'))) false = false).
    { unfold lt_series in *. cbn [combine map] in Hflag.
      rewrite last_cons in Hflag.
      rewrite (last_default _ false) in Hflag by (simpl; discriminate).
      exact Hflag. }
    pose proof (last_cummax_from_unflagged x x (y :: tl') ltac:(discriminate) Hf)
      as H.
    exact H.
Qed.

Lemma C1_repair_monotone_witness :
  exists r,
    fix_bad_column [1; 3; 2; 2; 7; 7] = Some r /\
    (forall i j, (i < j < List.length r)%nat -> nth i r 0 <= nth j r 0) /\
    count_bad r = 0%nat /\
    last r 0 = last [1; 3; 2; 2; 7; 7] 0.
Proof.
  destruct (C1_repair_monotone [1; 3; 2; 2; 7; 7])
    as (r & Hr & _ & Hmono & Hbad & _ & Hlast).
  exists r. repeat split; try assumption.
  apply Hlast. reflexivity.
Defined.

(* ================================================================== *)
(** ** Facts about columns                                             *)
(* ================================================================== *)

Lemma last_value_map {A B : Type} (f : A -> B) (l : list A) :
  last_value (map f l) = option_map f (last_value l).
Proof.
  destruct l as [|x tl]; [reflexivity|]. simpl. f_equal.
  revert x. induction tl as [|y tl IH]; intro x; [reflexivity|].
  cbn [map]. rewrite !last_cons. apply IH.
Qed.

Lemma last_value_skipn {A : Type} (n : nat) (l : list A) :
  (n < List.length l)%nat -> last_value (skipn n l) = last_value l.
Proof.
  revert l. induction n as [|n IH]; intros l Hn; [reflexivity|].
  destruct l as [|x tl]; [simpl in Hn; lia|].
  simpl in Hn. rewrite skipn_cons. rewrite IH by lia.
  destruct tl as [|y tl']; [simpl in Hn; lia|].
  unfold last_value. now rewrite last_cons.
Qed.

Lemma last_zero_from_range (i j : nat) (l : list Z) :
  last_zero_from i l = Some j -> (i <= j < i + List.length l)%nat.
Proof.
  revert i. induction l as [|x tl IH]; intros i H; [discriminate|].
  simpl in H. destruct (last_zero_from (S i) tl) as [j'|] eqn:E.
  - inversion H; subst. apply IH in E. simpl. lia.
  - destruct (x =? 0); [|discriminate]. inversion H; subst. simpl. lia.
Qed.

Lemma last_zero_from_zero (i j : nat) (l : list Z) :
  last_zero_from i l = Some j -> nth_error l (j - i) = Some 0.
Proof.
  revert i. induction l as [|x tl IH]; intros i H; [discriminate|].
  simpl in H. destruct (last_zero_from (S i) tl) as [j'|] eqn:E.
  - inversion H; subst. pose proof (last_zero_from_range _ _ _ E).
    apply IH in E. replace (j - i)%nat with (S (j - S i)) by lia. exact E.
  - destruct (Z.eqb_spec x 0); [|discriminate]. inversion H; subst.
    rewrite Nat.sub_diag. reflexivity.
Qed.

Lemma smooth_daily_last (s s' : list Z) (start : date) (s_daily : list float64) :
  CasesModel.smooth_daily s = Some (s', start, s_daily) ->
  last_value s' = last_value s /\ s <> [].
Proof.
  unfold CasesModel.smooth_daily.
  destruct s as [|x tl]; [discriminate|]. cbn [hd_error bind].
  destruct (x =? 0).
  - destruct (last_zero_from 0 (x :: tl)) as [p|] eqn:E;
      intro H; injection H as <- _ _; (split; [|discriminate]).
    + apply last_zero_from_range in E. apply last_value_skipn. lia.
    + reflexivity.
  - intro H. injection H as <- _ _. split; [reflexivity | discriminate].
Qed.

(* ================================================================== *)
(** ** C2: anchoring of the smoothed column                            *)
(* ================================================================== *)

Lemma smooth_lowess_path
    (lowess : list float64 -> list float64 -> float64 -> list float64)
    (self : CasesModel.config) (s s' : list Z) (start : date)
    (s_daily : list float64) (q : Q) :
  CasesModel.smooth_daily (upto s (CasesModel.last_date self))
    = Some (s', start, s_daily) ->
  (MIN_OBS <= List.length s_daily)%nat ->
  List.length (CasesModel.smooth_lowess lowess self s_daily)
    = List.length s_daily ->
  last_value (cumsum (map clip0 (CasesModel.smooth_lowess lowess self s_daily)))
    = Some (Fin q) ->
  ~ (q == 0)%Q ->
  exists last_actual,
    last_value (upto s (CasesModel.last_date self)) = Some last_actual /\
    CasesModel.smooth lowess self s =
      Some (mk_series start
              (map (fun v => fmul v (Fin (inject_Z last_actual / q)))
                   (cumsum (map clip0
                      (CasesModel.smooth_lowess lowess self s_daily))))).
Proof.
  intros Hd Hobs Hlen Htot Hq.
  destruct (smooth_daily_last _ _ _ _ Hd) as [Hlast Hne].
  destruct (last_value (upto s (CasesModel.last_date self))) as [a|] eqn:Ea.
  2:{ destruct (upto s (CasesModel.last_date self)); [congruence | discriminate]. }
  exists a. split; [reflexivity|].
  unfold CasesModel.smooth. rewrite Hd. cbn [bind].
  assert (E1 : (List.length s_daily <? MIN_OBS)%nat = false)
    by (apply Nat.ltb_ge; exact Hobs).
  rewrite E1, Hlen, Nat.eqb_refl. cbn [negb].
  rewrite Htot. cbn [bind feqb].
  assert (E2 : Qeq_bool q 0 = false) by (apply Qeq_bool_false; exact Hq).
  rewrite E2, Hlast. cbn [bind]. unfold of_int, fdiv. rewrite E2. reflexivity.
Qed.

(** In exact arithmetic the anchoring is exact: for every column whose
    daily deltas number at least MIN_OBS, for which LOWESS returns one
    value per delta and the smoothed cumulative total is a nonzero number
    [q], the column [CasesModel.smooth] returns ends with the last actual
    cumulative value. *)
Lemma smooth_anchor_exact :
  forall (lowess : list float64 -> list float64 -> float64 -> list float64)
         (self : CasesModel.config) (s s' : list Z) (start : date)
         (s_daily : list float64) (q : Q),
    CasesModel.smooth_daily (upto s (CasesModel.last_date self))
      = Some (s', start, s_daily) ->
    (MIN_OBS <= List.length s_daily)%nat ->
    List.length (CasesModel.smooth_lowess lowess self s_daily)
      = List.length s_daily ->
    last_value (cumsum (map clip0 (CasesModel.smooth_lowess lowess self s_daily)))
      = Some (Fin q) ->
    ~ (q == 0)%Q ->
    exists smoothed last_actual z,
      CasesModel.smooth lowess self s = Some smoothed /\
      last_value (upto s (CasesModel.last_date self)) = Some last_actual /\
      last_value (values smoothed) = Some (Fin z) /\
      (z == inject_Z last_actual)%Q.
Proof.
  intros lowess self s s' start s_daily q Hd Hobs Hlen Htot Hq.
  destruct (smooth_lowess_path lowess self s s' start s_daily q
              Hd Hobs Hlen Htot Hq) as (a & Ha & Hsm).
  eexists _, a, (q * (inject_Z a / q))%Q. repeat split.
  - exact Hsm.
  - exact Ha.
  - cbn [values]. rewrite last_value_map, Htot. reflexivity.
  - field. exact Hq.
Qed.

Example smooth_anchor_exact_sample :
  exists smoothed last_actual z,
    CasesModel.smooth lowess_half sample_config sample_cases = Some smoothed /\
    last_value (upto sample_cases (CasesModel.last_date sample_config))
      = Some last_actual /\
    last_value (values smoothed) = Some (Fin z) /\
    (z == inject_Z last_actual)%Q.
Proof.
  eapply (smooth_anchor_exact lowess_half sample_config sample_cases).
  - vm_compute. reflexivity.
  - vm_compute. lia.
  - reflexivity.
  - vm_compute. reflexivity.
  - intro H. vm_compute in H. discriminate H.
Qed.

(** *** The error of one rounding *)









(** The binary64 numbers of the kernel give the same last value for the
    same daily values. *)
Example anchor_kernel_binary64 :
  exists smoothed z k,
    Binary64.smooth lowess_shrink anchor_config anchor_cases = Some smoothed /\
    last_value (values smoothed) = Some (Fin z) /\
    kernel_to_Q (kernel_anchor (int_diff_from 0 anchor_cases) 243) = Some k /\
    (z == k)%Q.
Proof.
  do 3 eexists.
  split; [vm_compute; reflexivity|].
  split; [vm_compute; reflexivity|].
  split; [vm_compute; reflexivity|].
  vm_compute. reflexivity.
Qed.



(* ================================================================== *)
(** ** C10: the smoothed column is monotone                            *)
(* ================================================================== *)

Lemma cumsum_from_fin (a : Q) (l : list Q) :
  cumsum_from (Fin a) (map Fin l) = map Fin (qsum_from a l).
Proof.
  revert a. induction l as [|x tl IH]; intro a; [reflexivity|].
  simpl. now rewrite IH.
Qed.

Lemma qsum_from_sorted (a : Q) (l : list Q) :
  Forall (Qle 0) l ->
  Forall (Qle a) (qsum_from a l) /\ StronglySorted Qle (qsum_from a l).
Proof.
  intro H. revert a. induction H as [|x tl Hx Htl IH]; intro a; simpl.
  - split; constructor.
  - destruct (IH (a + x)%Q) as [Hge Hs]. split.
    + constructor; [lra|].
      eapply Forall_impl; [|exact Hge]. intros z Hz. cbv beta in Hz. lra.
    + constructor; assumption.
Qed.

Lemma clip0_finite (l : list float64) :
  Forall is_finite l ->
  exists cs, map clip0 l = map Fin cs /\ Forall (Qle 0) cs.
Proof.
  induction 1 as [|x tl Hx Htl (cs & E & Hcs)].
  - exists []. split; constructor.
  - destruct x as [c| | |]; try contradiction.
    cbn [map]. rewrite E. unfold clip0. cbn [flt].
    destruct (Qltb c 0) eqn:Ec.
    + exists (0%Q :: cs). split; [reflexivity|].
      constructor; [apply Qle_refl | exact Hcs].
    + exists (c :: cs). split; [reflexivity|].
      constructor; [now apply Qltb_false | exact Hcs].
Qed.

Lemma StronglySorted_scale (c : Q) (l : list Q) :
  (0 <= c)%Q -> StronglySorted Qle l ->
  StronglySorted Qle (map (fun v => v * c)%Q l).
Proof.
  intros Hc. induction 1 as [|x tl Hs IH Hall]; simpl; constructor; [exact IH|].
  rewrite Forall_map. eapply Forall_impl; [|exact Hall].
  intros z Hz. cbv beta in Hz. nra.
Qed.

Lemma StronglySorted_fle (l : list Q) :
  StronglySorted Qle l ->
  forall i j, (i < j < List.length l)%nat ->
    fle (nth i (map Fin l) NaN) (nth j (map Fin l) NaN) = true.
Proof.
  induction 1 as [|x tl Hs IH Hall]; intros i j Hij; [simpl in Hij; lia|].
  destruct j as [|j]; [lia|]. simpl in Hij.
  destruct i as [|i]; cbn [map nth].
  - rewrite Forall_forall in Hall.
    assert (Hin : In (nth j tl 0%Q) tl) by (apply nth_In; lia).
    apply Hall in Hin.
    change NaN with ((fun _ : unit => NaN) tt).
    rewrite (nth_indep (map Fin tl) _ (Fin 0)) by (rewrite length_map; lia).
    rewrite (map_nth Fin tl 0%Q j). cbn [fle]. now apply Qle_bool_iff.
  - apply IH. lia.
Qed.

Lemma In_firstn {A : Type} (n : nat) (l : list A) (a : A) :
  In a (firstn n l) -> In a l.
Proof.
  intro H. rewrite <- (firstn_skipn n l). apply in_or_app. now left.
Qed.

Lemma last_value_in {A : Type} (l : list A) (a : A) :
  last_value l = Some a -> In a l.
Proof.
  destruct l as [|x tl]; [discriminate|]. intro H. injection H as <-.
  revert x. induction tl as [|y tl IH]; intro x; [now left|].
  rewrite last_cons. right. apply IH.
Qed.

(** C10: for every column of non-negative counts smoothed via the LOWESS
    path (at least MIN_OBS daily deltas, LOWESS returning one finite value
    per delta, smoothed total a nonzero number), the smoothed cumulative
    column returned by [smooth] never decreases from one day to the
    next. *)
Theorem C10_smoothed_monotone :
  forall (lowess : list float64 -> list float64 -> float64 -> list float64)
         (self : CasesModel.config) (s s' : list Z) (start : date)
         (s_daily : list float64) (q : Q),
    Forall (fun v => 0 <= v) s ->
    CasesModel.smooth_daily (upto s (CasesModel.last_date self))
      = Some (s', start, s_daily) ->
    (MIN_OBS <= List.length s_daily)%nat ->
    List.length (CasesModel.smooth_lowess lowess self s_daily)
      = List.length s_daily ->
    Forall is_finite (CasesModel.smooth_lowess lowess self s_daily) ->
    last_value (cumsum (map clip0 (CasesModel.smooth_lowess lowess self s_daily)))
      = Some (Fin q) ->
    ~ (q == 0)%Q ->
    exists smoothed,
      CasesModel.smooth lowess self s = Some smoothed /\
      Forall is_finite (values smoothed) /\
      forall i j, (i < j < List.length (values smoothed))%nat ->
        fle (nth i (values smoothed) NaN) (nth j (values smoothed) NaN) = true.
Proof.
  intros lowess self s s' start s_daily q Hpos Hd Hobs Hlen Hfin Htot Hq.
  destruct (smooth_lowess_path lowess self s s' start s_daily q
              Hd Hobs Hlen Htot Hq) as (a & Ha & Hsm).
  assert (Ha0 : 0 <= a).
  { apply last_value_in in Ha. unfold upto in Ha.
    apply In_firstn in Ha. rewrite Forall_forall in Hpos. now apply Hpos. }
  destruct (clip0_finite _ Hfin) as (cs & Ecs & Hcs).
  destruct (qsum_from_sorted 0 cs Hcs) as [Hge Hsort].
  assert (Ecum : cumsum (map clip0 (CasesModel.smooth_lowess lowess self s_daily))
                 = map Fin (qsum_from 0 cs)).
  { unfold cumsum. rewrite Ecs. apply cumsum_from_fin. }
  assert (Hq0 : (0 < q)%Q).
  { rewrite Ecum in Htot. rewrite last_value_map in Htot.
    destruct (last_value (qsum_from 0 cs)) as [t|] eqn:Et; [|discriminate].
    injection Htot as ->. apply last_value_in in Et.
    rewrite Forall_forall in Hge. apply Hge in Et. lra. }
  rewrite Ecum, map_map in Hsm.
  assert (Emap : map (fun x => fmul (Fin x) (Fin (inject_Z a / q))) (qsum_from 0 cs)
                 = map Fin (map (fun v => v * (inject_Z a / q))%Q (qsum_from 0 cs))).
  { rewrite map_map. reflexivity. }
  rewrite Emap in Hsm.
  eexists. split; [exact Hsm|]. cbn [values]. split.
  - rewrite Forall_map. apply Forall_forall. intros; exact I.
  - intros i j Hij. apply StronglySorted_fle.
    + apply StronglySorted_scale; [|exact Hsort].
      apply Qle_shift_div_l; [exact Hq0|].
      rewrite Qmult_0_l. replace 0%Q with (inject_Z 0) by reflexivity.
      now rewrite <- Zle_Qle.
    + now rewrite length_map in Hij.
Qed.

Lemma C10_smoothed_monotone_witness :
  exists smoothed,
    CasesModel.smooth lowess_half sample_config sample_cases = Some smoothed /\
    Forall is_finite (values smoothed) /\
    forall i j, (i < j < List.length (values smoothed))%nat ->
      fle (nth i (values smoothed) NaN) (nth j (values smoothed) NaN) = true.
Proof.
  eapply (C10_smoothed_monotone lowess_half sample_config sample_cases).
  - repeat constructor; discriminate.
  - vm_compute. reflexivity.
  - vm_compute. lia.
  - reflexivity.
  - repeat constructor.
  - vm_compute. reflexivity.
  - intro H. vm_compute in H. discriminate H.
Defined.

(* ================================================================== *)
(** ** C6: columns with fewer than MIN_OBS daily deltas                *)
(* ================================================================== *)

Lemma length_cumsum_from (acc : float64) (l : list float64) :
  List.length (cumsum_from acc l) = List.length l.
Proof.
  revert acc. induction l as [|x tl IH]; intro acc; [reflexivity|].
  simpl. destruct (isnan x); simpl; now rewrite IH.
Qed.

Lemma length_iloc_last {A : Type} (n : nat) (l : list A) :
  (List.length (iloc_last n l) <= List.length l)%nat.
Proof.
  destruct n; simpl; [lia|]. rewrite length_skipn. lia.
Qed.

Lemma diff_from_of_int (prev : Z) (l : list Z) :
  Forall is_finite (diff_from (of_int prev) (map of_int l)).
Proof.
  revert prev. induction l as [|x tl IH]; intro prev; simpl; constructor.
  - exact I.
  - apply IH.
Qed.

Lemma dropna_finite (l : list float64) : Forall is_finite l -> dropna l = l.
Proof.
  induction 1 as [|x tl Hx Htl IH]; [reflexivity|].
  destruct x; try contradiction. simpl. now rewrite IH.
Qed.

Lemma fillna_finite (v : float64) (l : list float64) :
  Forall is_finite l -> fillna v l = l.
Proof.
  induction 1 as [|x tl Hx Htl IH]; [reflexivity|].
  destruct x; try contradiction. simpl. now rewrite IH.
Qed.

(** Summing the daily differences gives back the column. *)
Lemma cumsum_diff_from (l : list Z) :
  forall (acc : Q) (prev : Z),
    (acc == inject_Z prev)%Q ->
    Forall2 feq (cumsum_from (Fin acc) (diff_from (of_int prev) (map of_int l)))
                (map of_int l).
Proof.
  induction l as [|x tl IH]; intros acc prev Hacc; simpl; constructor.
  - simpl. rewrite Hacc. ring.
  - apply IH. rewrite Hacc. ring.
Qed.

Lemma skipn_tail {A : Type} (n : nat) (l : list A) (x : A) (rest : list A) :
  skipn n l = x :: rest -> skipn (S n) l = rest.
Proof.
  revert l. induction n as [|n IH]; intros l H.
  - simpl in H. subst. reflexivity.
  - destruct l as [|y tl]; [discriminate|]. simpl in H. apply IH in H.
    exact H.
Qed.

Lemma nth_error_skipn_hd {A : Type} (n : nat) (l : list A) (x : A) :
  nth_error l n = Some x -> exists rest, skipn n l = x :: rest.
Proof.
  revert l. induction n as [|n IH]; intros l H.
  - destruct l as [|y tl]; [discriminate|]. injection H as ->. now exists tl.
  - destruct l as [|y tl]; [discriminate|]. simpl in H. now apply IH.
Qed.

(** The short branch of [smooth] returns the column itself on the dates it
    keeps. *)
Lemma smooth_daily_identity (s s' : list Z) (start : date)
    (s_daily : list float64) :
  CasesModel.smooth_daily s = Some (s', start, s_daily) ->
  Forall2 feq (cumsum s_daily) (map of_int (skipn (Z.to_nat start) s)).
Proof.
  unfold CasesModel.smooth_daily.
  destruct s as [|x tl]; [discriminate|]. cbn [hd_error bind].
  destruct (Z.eqb_spec x 0) as [-> | Hx].
  - assert (Hz : exists p rest,
               match last_zero_from 0 (0 :: tl) with Some p => p | None => O end = p /\
               skipn p (0 :: tl) = 0 :: rest).
    { destruct (last_zero_from 0 (0 :: tl)) as [p|] eqn:E.
      - apply last_zero_from_zero in E. rewrite Nat.sub_0_r in E.
        destruct (nth_error_skipn_hd _ _ _ E) as [rest Hr]. now exists p, rest.
      - exists O, tl. split; reflexivity. }
    destruct Hz as (p & rest & -> & Hp).
    intro H. injection H as <- <- <-.
    change (Z.pos (PosDef.Pos.of_succ_nat p)) with (Z.of_nat (S p)).
    rewrite Nat2Z.id, (skipn_tail _ _ _ _ Hp), Hp.
    cbn [map diff]. cbn [dropna filter isnan negb].
    fold (dropna (diff_from (of_int 0) (map of_int rest))).
    rewrite dropna_finite by apply diff_from_of_int.
    apply cumsum_diff_from. reflexivity.
  - intro H. injection H as <- <- <-. cbn [Z.to_nat skipn map diff].
    cbn [fillna map isnan].
    fold (fillna (of_int x) (diff_from (of_int x) (map of_int tl))).
    rewrite fillna_finite by apply diff_from_of_int.
    unfold cumsum. cbn [cumsum_from of_int isnan fadd]. constructor.
    + simpl. ring.
    + apply cumsum_diff_from. ring.
Qed.

Lemma Qtrunc_comp (p q : Q) : (p == q)%Q -> Qtrunc p = Qtrunc q.
Proof.
  intro H. unfold Qtrunc.
  rewrite (Qleb_comp 0%Q 0%Q (Qeq_refl 0%Q) p q H).
  rewrite (Qfloor_comp p q H), (Qceiling_comp p q H). reflexivity.
Qed.

(** The skip path of the forecast: zero deltas, cumulative forecast flat at
    the last actual value. *)
Lemma flat_forecast (a : Z) (n : nat) :
  forall c, (c == 0)%Q ->
    series_astype_int
      (map (fun v => fadd v (of_int a)) (cumsum_from (Fin c) (repeat (Fin 0) n)))
    = Some (repeat a n).
Proof.
  unfold series_astype_int.
  induction n as [|n IH]; intros c Hc; [reflexivity|].
  cbn [repeat cumsum_from isnan map fadd of_int mapM astype_int bind].
  rewrite (Qtrunc_comp _ (inject_Z a)) by (rewrite Hc; ring).
  rewrite Qtrunc_inject.
  rewrite (IH (c + 0)%Q) by (rewrite Hc; ring). reflexivity.
Qed.

Lemma astype_zeros (n : nat) :
  series_astype_int (repeat (Fin 0) n) = Some (repeat 0 n).
Proof.
  unfold series_astype_int. induction n as [|n IH]; [reflexivity|].
  cbn [repeat mapM bind]. rewrite IH. reflexivity.
Qed.

(** C6: for every column with fewer than MIN_OBS (15) daily deltas whose
    training date is in the data, [smooth] returns the cumulative sum of
    the raw deltas, which is the column itself on the dates it keeps, and
    [run] stores exactly [n_pred] zero daily deltas and a cumulative
    forecast flat at the last actual value. *)
Theorem C6_short_series :
  forall (model : float64 -> params -> float64)
         (lowess : list float64 -> list float64 -> float64 -> list float64)
         (least_squares :
            (params -> list float64) -> params -> params * params -> option params)
         (self : CasesModel.config) (s s' : list Z) (start : date)
         (s_daily : list float64) (last_actual : Z),
    CasesModel.smooth_daily (upto s (CasesModel.last_date self))
      = Some (s', start, s_daily) ->
    (List.length s_daily < MIN_OBS)%nat ->
    loc s (CasesModel.last_date self) = Some last_actual ->
    exists r,
      CasesModel.run_area model lowess least_squares self s = Some r /\
      CasesModel.smooth lowess self s = Some (CasesModel.r_smoothed r) /\
      CasesModel.r_smoothed r = mk_series start (cumsum s_daily) /\
      Forall2 feq (values (CasesModel.r_smoothed r))
        (map of_int (skipn (Z.to_nat start) (upto s (CasesModel.last_date self)))) /\
      CasesModel.r_pred_daily r = repeat 0 (CasesModel.n_pred self) /\
      CasesModel.r_pred_cumulative r = repeat last_actual (CasesModel.n_pred self).
Proof.
  intros model lowess least_squares self s s' start s_daily a Hd Hshort Hloc.
  assert (Hsm : CasesModel.smooth lowess self s
                = Some (mk_series start (cumsum s_daily))).
  { unfold CasesModel.smooth. rewrite Hd. cbn [bind].
    apply Nat.ltb_lt in Hshort. now rewrite Hshort. }
  assert (Htrain :
    (List.length (CasesModel.get_train self (cumsum s_daily)) <? MIN_OBS)%nat = true).
  { apply Nat.ltb_lt. unfold CasesModel.get_train.
    pose proof (length_iloc_last (CasesModel.n_train self) (cumsum s_daily)) as H.
    unfold cumsum in *. rewrite length_cumsum_from in H. lia. }
  eexists. split; [|split; [|split; [|split; [|split]]]].
  - unfold CasesModel.run_area. rewrite Hsm. cbn [bind values].
    rewrite Htrain. cbn [bind].
    unfold CasesModel.get_pred_cumulative. rewrite Hloc. cbn [bind].
    rewrite astype_zeros. cbn [bind]. unfold cumsum.
    rewrite (flat_forecast a _ 0%Q (Qeq_refl 0)). cbn [bind]. reflexivity.
  - exact Hsm.
  - reflexivity.
  - cbn [CasesModel.r_smoothed values]. now apply (smooth_daily_identity _ s').
  - reflexivity.
  - reflexivity.
Qed.

Lemma C6_short_series_witness :
  exists r,
    CasesModel.run_area (general_logistic_shift (fun x => x) (fun b e => b))
      lowess_half (fun _ p0 _ => Some p0) short_config short_cases = Some r /\
    CasesModel.smooth lowess_half short_config short_cases
      = Some (CasesModel.r_smoothed r) /\
    CasesModel.r_smoothed r
      = mk_series 2 (cumsum [Fin (3 + - 0); Fin (5 + - 3); Fin (6 + - 5); Fin (9 + - 6)]) /\
    Forall2 feq (values (CasesModel.r_smoothed r))
      (map of_int (skipn (Z.to_nat 2)
                     (upto short_cases (CasesModel.last_date short_config)))) /\
    CasesModel.r_pred_daily r = repeat 0 (CasesModel.n_pred short_config) /\
    CasesModel.r_pred_cumulative r = repeat 9 (CasesModel.n_pred short_config).
Proof.
  apply (C6_short_series _ lowess_half _ short_config short_cases [0; 3; 5; 6; 9]).
  - reflexivity.
  - vm_compute. lia.
  - reflexivity.
Defined.

(* ================================================================== *)
(** ** C7: reconstruction of the cumulative forecast                   *)
(* ================================================================== *)

(** C7: with last actual cumulative value 1000 and raw model deltas
    12.4, 8.9, 15.2, rounding each delta, summing cumulatively and adding
    the last actual value gives the cumulative forecast 1012, 1021, 1036
    (and the daily forecast 12, 9, 15). *)
Theorem C7_forecast_example :
  forall (self : CasesModel.config) (s : list Z),
    loc s (CasesModel.last_date self) = Some 1000 ->
    let pred_daily := map round0 [Fin (124 # 10); Fin (89 # 10); Fin (152 # 10)] in
    series_astype_int pred_daily = Some [12; 9; 15] /\
    (c <- CasesModel.get_pred_cumulative self s pred_daily ;; series_astype_int c)
      = Some [1012; 1021; 1036].
Proof.
  intros self s Hloc pred_daily. split; [reflexivity|].
  unfold CasesModel.get_pred_cumulative. rewrite Hloc. reflexivity.
Qed.

Lemma C7_forecast_example_witness :
  let s := [970; 985; 1000] in
  let self := CasesModel.mk_config 2 60 15 3 5 50 in
  let pred_daily := map round0 [Fin (124 # 10); Fin (89 # 10); Fin (152 # 10)] in
  series_astype_int pred_daily = Some [12; 9; 15] /\
  (c <- CasesModel.get_pred_cumulative self s pred_daily ;; series_astype_int c)
    = Some [1012; 1021; 1036].
Proof.
  apply (C7_forecast_example (CasesModel.mk_config 2 60 15 3 5 50) [970; 985; 1000]).
  reflexivity.
Defined.

Lemma arange_cons (a b : Z) : a < b -> arange a b = a :: arange (a + 1) b.
Proof.
  intro H. unfold arange.
  replace (Z.to_nat (b - a)) with (S (Z.to_nat (b - (a + 1)))) by lia.
  cbn [seq map]. rewrite Z.add_0_r. f_equal.
  rewrite <- seq_shift, map_map. apply map_ext. intro i. lia.
Qed.

(** The first value of the cumulative forecast: the last actual value plus
    the rounded first delta of the model. *)
Lemma first_forecast_cumulative
    (model : float64 -> params -> float64) (self : CasesModel.config)
    (s : list Z) (p : params) (n_train : nat) (last_actual : Z) (y0 y1 : Q) :
  (1 <= CasesModel.n_pred self)%nat ->
  loc s (CasesModel.last_date self) = Some last_actual ->
  model (of_int (Z.of_nat n_train - 1)) p = Fin y0 ->
  model (of_int (Z.of_nat n_train)) p = Fin y1 ->
  exists c rest,
    CasesModel.get_pred_cumulative self s
      (map round0 (CasesModel.get_pred_daily model self n_train p))
      = Some (Fin c :: rest) /\
    (c == inject_Z (last_actual + round_half_even (y1 - y0)))%Q.
Proof.
  intros Hn Hloc H0 H1.
  unfold CasesModel.get_pred_cumulative, CasesModel.get_pred_daily.
  rewrite Hloc. cbn [bind].
  rewrite (arange_cons (Z.of_nat n_train - 1)) by lia.
  rewrite (arange_cons (Z.of_nat n_train - 1 + 1)) by lia.
  replace (Z.of_nat n_train - 1 + 1) with (Z.of_nat n_train) by lia.
  cbn [map np_diff diff_from]. rewrite H0, H1.
  cbn [fsub fneg fadd round0 of_int]. unfold cumsum.
  cbn [cumsum_from isnan fadd map].
  eexists _, _. split; [reflexivity|].
  rewrite inject_Z_plus. unfold Qminus. ring.
Qed.

(* ================================================================== *)
(** ** C8: the initial guess and its bounds                            *)
(* ================================================================== *)

Lemma fpow_int_fin (g : Q) (n : nat) : fpow_int (Fin g) n = Fin (qpow g n).
Proof.
  induction n as [|n IH]; [reflexivity|].
  destruct n as [|n]; [reflexivity|].
  change (fpow_int (Fin g) (S (S n))) with (fmul (Fin g) (fpow_int (Fin g) (S n))).
  rewrite IH. reflexivity.
Qed.

Lemma qpow_S (g : Q) (n : nat) : (qpow g (S n) == g * qpow g n)%Q.
Proof.
  destruct n as [|n]; [simpl; ring | reflexivity].
Qed.

Lemma qpow_ge_1 (g : Q) (n : nat) : (1 <= g)%Q -> (1 <= qpow g n)%Q.
Proof.
  intro Hg. induction n as [|n IH]; [simpl; lra|].
  rewrite qpow_S. nra.
Qed.

Lemma qpow_mono (g : Q) (n m : nat) :
  (1 <= g)%Q -> (n <= m)%nat -> (qpow g n <= qpow g m)%Q.
Proof.
  intros Hg Hnm. induction Hnm as [|m Hnm IH]; [apply Qle_refl|].
  rewrite qpow_S. pose proof (qpow_ge_1 g m Hg). nra.
Qed.

Lemma last_value_app2 {A : Type} (l : list A) (a b : A) :
  last_value (l ++ [a; b]) = Some b.
Proof.
  destruct l as [|x tl]; [reflexivity|]. simpl. f_equal.
  revert x. induction tl as [|y tl IH]; intro x; [reflexivity|].
  cbn [app]. rewrite last_cons. apply IH.
Qed.

Lemma ffill_from_app2 (l : list float64) (a b : Q) :
  forall prev, exists d,
    ffill_from prev (l ++ [Fin a; Fin b]) = d ++ [Fin a; Fin b].
Proof.
  induction l as [|x tl IH]; intro prev.
  - exists []. reflexivity.
  - cbn [app ffill_from]. destruct (isnan x).
    + destruct (IH prev) as [d Hd]. exists (prev :: d). now rewrite Hd.
    + destruct (IH x) as [d Hd]. exists (x :: d). now rewrite Hd.
Qed.

Lemma last_zip_shift {A B : Type} (f : A -> A -> B) (d : list A) (a b : A) :
  forall c, last_value (zip_with f (d ++ [a; b]) (c :: d ++ [a; b])) = Some (f b a).
Proof.
  induction d as [|x tl IH]; intro c; [reflexivity|].
  cbn [app zip_with]. specialize (IH x).
  destruct (zip_with f (tl ++ [a; b]) (x :: tl ++ [a; b])) as [|z zs] eqn:E;
    [discriminate|].
  unfold last_value in *. rewrite last_cons. exact IH.
Qed.

Lemma pct_change_last (l : list float64) (prev lastv : Q) :
  ~ (prev == 0)%Q ->
  last_value (pct_change (l ++ [Fin prev; Fin lastv]))
  = Some (Fin (lastv / prev + - (1))).
Proof.
  intro Hp. unfold pct_change, ffill.
  destruct (ffill_from_app2 l prev lastv NaN) as [d ->].
  rewrite last_zip_shift. unfold fdiv, fsub.
  apply Qeq_bool_false in Hp. rewrite Hp. reflexivity.
Qed.

(** The three L values both versions compute for a finite growth. *)
Lemma L_limits_in_order (lastv g : Q) (n1 n2 : nat) :
  (0 < lastv)%Q -> (1 <= g)%Q -> (n1 <= n2)%nat ->
  let L_min := (lastv * qpow g n1)%Q in
  let L_max := (lastv * qpow g n2 + 1)%Q in
  let L0 := ((L_max + - L_min) / 2 + L_min)%Q in
  (L_min <= L0 /\ L0 <= L_max)%Q.
Proof.
  intros Hl Hg Hn L_min L_max L0.
  pose proof (qpow_mono g n1 n2 Hg Hn) as Hp.
  assert (H : (L_min <= L_max)%Q).
  { unfold L_min, L_max.
    assert (lastv * qpow g n1 <= lastv * qpow g n2)%Q by nra. lra. }
  unfold L0. split.
  - assert (E : ((L_max + - L_min) / 2 + L_min == (L_max + L_min) / 2)%Q) by field.
    rewrite E. apply Qle_shift_div_l; lra.
  - assert (E : ((L_max + - L_min) / 2 + L_min == (L_max + L_min) / 2)%Q) by field.
    rewrite E. apply Qle_shift_div_r; lra.
Qed.

Lemma in_bounds_intro (L_min L_max L0 lastv : Q) (k_max : Q) :
  (L_min <= L0)%Q -> (L0 <= L_max)%Q -> (0 < lastv)%Q ->
  (1 # 10 <= k_max)%Q ->
  in_bounds
    (mk_params (Fin L_min) (Fin (-50)) (Fin (1 # 100)) (Fin (1 # 100)) (Fin 0),
     mk_params (Fin L_max) (Fin 50) (Fin k_max) (Fin 2) (Fin (lastv + (1 # 100))))
    (mk_params (Fin L0) (Fin 0) (Fin (1 # 10)) (Fin (1 # 10))
               (Fin ((lastv + (1 # 100)) / 2)))
  = true.
Proof.
  intros H1 H2 Hl Hk. unfold in_bounds. cbn [p_L p_x0 p_k p_v p_s fle].
  repeat (apply andb_true_intro; split); try reflexivity;
    apply Qle_bool_iff; try assumption.
  - apply Qle_shift_div_l; lra.
  - apply Qle_shift_div_r; lra.
Qed.

(** C8, the claim as stated fails: on a series ending 0, 5 (first cases on
    the last day) the growth ratio is 5/0 = +inf, both L bounds are +inf and
    the L guess is inf - inf = NaN, which lies in no interval. *)
Lemma C8_guess_counterexample :
  (exists bounds p0,
     Waves.get_bounds_p0 [Fin 0; Fin 0; Fin 5] 5 50 = Some (bounds, p0) /\
     p_L (fst bounds) = PInf /\ p_L (snd bounds) = PInf /\ p_L p0 = NaN /\
     in_bounds bounds p0 = false) /\
  (exists bounds p0,
     CasesModel.get_bounds_p0 sample_config (repeat (Fin 0) 14 ++ [Fin 5])
       = Some (bounds, p0) /\
     p_L (fst bounds) = PInf /\ p_L (snd bounds) = PInf /\ p_L p0 = NaN /\
     in_bounds bounds p0 = false).
Proof.
  split; eexists _, _; vm_compute; repeat split; reflexivity.
Qed.

(** C8, amended: for every training series whose last two values are
    finite with 0 < previous <= last (a finite growth ratio of at least 1),
    and with the L horizons in order (n1 <= n2), both versions of
    [get_bounds_p0] return bounds and a guess with every component of the
    guess inside its own bounds: L_min <= L0 <= L_max, k_min <= 0.1 <= k_max,
    v_min <= 0.1 <= v_max, -50 <= 0 <= 50 and 0 <= s0 <= s_max. *)
Theorem C8_guess_within_bounds :
  forall (self : CasesModel.config) (n1 n2 : nat) (l : list float64)
         (prev lastv : Q),
    (0 < prev)%Q -> (prev <= lastv)%Q ->
    (CasesModel.L_n_min self <= CasesModel.L_n_max self)%nat ->
    (n1 <= n2)%nat ->
    (exists bounds p0,
       CasesModel.get_bounds_p0 self (l ++ [Fin prev; Fin lastv])
         = Some (bounds, p0) /\
       in_bounds bounds p0 = true /\
       (p_x0 p0, p_k p0, p_v p0) = (Fin 0, Fin (1 # 10), Fin (1 # 10))) /\
    (exists bounds p0,
       Waves.get_bounds_p0 (l ++ [Fin prev; Fin lastv]) n1 n2
         = Some (bounds, p0) /\
       in_bounds bounds p0 = true /\
       (p_x0 p0, p_k p0, p_v p0) = (Fin 0, Fin (1 # 10), Fin (1 # 10))).
Proof.
  intros self n1 n2 l prev lastv Hprev Hle Hself Hn.
  assert (Hp0 : ~ (prev == 0)%Q) by lra.
  assert (Hl : (0 < lastv)%Q) by lra.
  assert (Hg : (1 <= lastv / prev + - (1) + 1)%Q).
  { assert (1 <= lastv / prev)%Q by (apply Qle_shift_div_l; lra). lra. }
  split.
  - unfold CasesModel.get_bounds_p0, CasesModel.get_L_limits.
    rewrite last_value_app2, pct_change_last by exact Hp0.
    cbn [bind fadd]. rewrite !fpow_int_fin. cbn [fmul fadd fsub fneg].
    unfold fdiv. change (Qeq_bool 2 0) with false. cbv iota.
    destruct (L_limits_in_order lastv _ _ _ Hl Hg Hself) as [H1 H2].
    eexists _, _. split; [reflexivity|]. split; [|reflexivity].
    apply in_bounds_intro; try assumption. lra.
  - unfold Waves.get_bounds_p0, Waves.get_L_limits.
    rewrite last_value_app2, pct_change_last by exact Hp0.
    cbn [bind fadd]. rewrite !fpow_int_fin. cbn [fmul fadd fsub fneg isnan].
    unfold fdiv. change (Qeq_bool 2 0) with false. cbv iota.
    cbn [bind].
    destruct (L_limits_in_order lastv _ _ _ Hl Hg Hn) as [H1 H2].
    eexists _, _. split; [reflexivity|]. split; [|reflexivity].
    apply in_bounds_intro; try assumption. lra.
Qed.

Lemma C8_guess_within_bounds_witness :
  (exists bounds p0,
     CasesModel.get_bounds_p0 sample_config ([Fin 90] ++ [Fin 100; Fin 110])
       = Some (bounds, p0) /\
     in_bounds bounds p0 = true /\
     (p_x0 p0, p_k p0, p_v p0) = (Fin 0, Fin (1 # 10), Fin (1 # 10))) /\
  (exists bounds p0,
     Waves.get_bounds_p0 ([Fin 90] ++ [Fin 100; Fin 110]) 5 50
       = Some (bounds, p0) /\
     in_bounds bounds p0 = true /\
     (p_x0 p0, p_k p0, p_v p0) = (Fin 0, Fin (1 # 10), Fin (1 # 10))).
Proof.
  apply (C8_guess_within_bounds sample_config 5 50 [Fin 90] 100 110).
  - reflexivity.
  - unfold Qle. simpl. lia.
  - simpl. lia.
  - lia.
Defined.

(* ================================================================== *)
(** ** C9: running the pipeline twice                                  *)
(* ================================================================== *)

Lemma dict_get_set_same {V : Type} (d : dict V) (k : string) (v : V) :
  dict_get (dict_set d k v) k = Some v.
Proof.
  induction d as [|[k' v'] tl IH]; simpl.
  - now rewrite String.eqb_refl.
  - destruct (String.eqb k' k) eqn:E; simpl; rewrite E; [reflexivity | exact IH].
Qed.

Lemma dict_get_set_other {V : Type} (d : dict V) (k k' : string) (v : V) :
  k <> k' -> dict_get (dict_set d k' v) k = dict_get d k.
Proof.
  intro Hne. induction d as [|[k0 v0] tl IH]; simpl.
  - destruct (String.eqb_spec k' k); [congruence | reflexivity].
  - destruct (String.eqb_spec k0 k') as [-> | Hk0]; simpl.
    + destruct (String.eqb_spec k' k); [congruence | reflexivity].
    + destruct (String.eqb_spec k0 k); [reflexivity | exact IH].
Qed.

Lemma dict_get_Some_In {V : Type} (d : dict V) (k : string) (v : V) :
  dict_get d k = Some v -> In (k, v) d.
Proof.
  induction d as [|[k' v'] tl IH]; [discriminate|]. cbn [dict_get].
  destruct (String.eqb_spec k' k) as [-> | _].
  - intro H. injection H as ->. now left.
  - intro H. right. now apply IH.
Qed.

Lemma dict_get_In {V : Type} (d : dict V) (k : string) (v : V) :
  NoDup (map fst d) -> In (k, v) d -> dict_get d k = Some v.
Proof.
  induction d as [|[k' v'] tl IH]; simpl; intros Hnd Hin; [contradiction|].
  inversion Hnd as [|? ? Hnotin Htl]; subst.
  destruct Hin as [Heq | Hin].
  - injection Heq as -> ->. now rewrite String.eqb_refl.
  - destruct (String.eqb_spec k' k) as [-> | Hne]; [|now apply IH].
    exfalso. apply Hnotin. change k with (fst (k, v)). now apply in_map.
Qed.



Section DeathsModelRerun.

Variable data : dict (DataFrame Z).
Variable self : DeathsModel.config.
Variable cm_n_pred : nat.
Variable cm : CasesModel.attributes.

Import DeathsModel.




End DeathsModelRerun.





(** Where no area has a smoothed value the smoothed table has no rows: the
    combined smoothed tables then start on the first day of the forecast,
    and [DeathsModel.run] goes on with the [n_pred] rows it finds. *)
Example pipeline_quiet_sample :
  exists out smoothed daily_s pred,
    pipeline model_linear lowess_half least_squares_guess
             sample_config sample_deaths_config quiet_raw
             fresh_cases fresh_deaths = Some out /\
    dict_get (CasesModel.a_smoothed (fst out)) "world_cases" = Some smoothed /\
    frame_cols smoothed = [("Aland", [])]%string /\
    dict_get (CasesModel.a_combined_daily_s (fst out)) "world_cases"
      = Some daily_s /\
    frame_start daily_s = CasesModel.last_date sample_config + 1 /\
    dict_get (DeathsModel.a_pred_cumulative (snd out)) "world_deaths"
      = Some pred /\
    frame_cols pred = [("Aland", [0; 0; 0])]%string.
Proof.
  do 4 eexists.
  split; [vm_compute; reflexivity|].
  repeat split; vm_compute; reflexivity.
Qed.

(* ================================================================== *)
(** ** C4: a missing growth ratio                                      *)
(* ================================================================== *)

Lemma fpow_int_nan (n : nat) : (1 <= n)%nat -> fpow_int NaN n = NaN.
Proof.
  intro H. destruct n as [|n]; [lia|]. destruct n; reflexivity.
Qed.

Lemma fmul_nan_r (x : float64) : fmul x NaN = NaN.
Proof. destruct x; reflexivity. Qed.

(** The function of Modeling New Waves collapses the L limits when the
    growth is missing. *)
Lemma Waves_get_L_limits_collapse (s : list float64) (n1 n2 : nat)
    (last_val : float64) :
  last_value s = Some last_val ->
  last_value (pct_change s) = Some NaN ->
  (1 <= n1)%nat ->
  Waves.get_L_limits s n1 n2 = Some (Fin 0, Fin 1, Fin 0).
Proof.
  intros Hs Hp Hn. unfold Waves.get_L_limits. rewrite Hs, Hp. cbn [bind fadd].
  now rewrite (fpow_int_nan n1 Hn), fmul_nan_r.
Qed.

(** The method of the class has no such guard. *)
Lemma CasesModel_get_L_limits_nan (self : CasesModel.config)
    (s : list float64) (last_val : float64) :
  last_value s = Some last_val ->
  last_value (pct_change s) = Some NaN ->
  (1 <= CasesModel.L_n_min self)%nat ->
  (1 <= CasesModel.L_n_max self)%nat ->
  CasesModel.get_L_limits self s = Some (NaN, NaN, NaN).
Proof.
  intros Hs Hp Hmin Hmax. unfold CasesModel.get_L_limits.
  rewrite Hs, Hp. cbn [bind fadd].
  rewrite (fpow_int_nan _ Hmin), (fpow_int_nan _ Hmax), !fmul_nan_r.
  reflexivity.
Qed.

Example Waves_get_L_limits_collapse_sample :
  Waves.get_L_limits (repeat (Fin 0) 15) 5 50 = Some (Fin 0, Fin 1, Fin 0).
Proof.
  apply (Waves_get_L_limits_collapse _ 5 50 (Fin 0));
    [reflexivity | reflexivity | lia].
Qed.

(** The growth over the last day of a window that ends with two numbers,
    the last of them not 0, is not missing: it is a number or, after a 0,
    an infinity. *)
Lemma pct_change_last_defined (l : list float64) (p lv : Q) :
  ~ (lv == 0)%Q ->
  exists g, last_value (pct_change (l ++ [Fin p; Fin lv])) = Some g /\ isnan g = false.
Proof.
  intro Hlv. unfold pct_change, ffill.
  destruct (ffill_from_app2 l p lv NaN) as [d ->].
  rewrite last_zip_shift. eexists. split; [reflexivity|].
  apply Qeq_bool_false in Hlv. unfold fdiv. rewrite Hlv.
  destruct (Qeq_bool p 0); [|reflexivity].
  unfold inf_signed. destruct (Qltb lv 0); reflexivity.
Qed.

(** After the last zero of a column there is no zero. *)
Lemma last_zero_from_none (i : nat) (l : list Z) :
  last_zero_from i l = None -> Forall (fun v => v <> 0) l.
Proof.
  revert i. induction l as [|x tl IH]; intros i H; [constructor|].
  simpl in H. destruct (last_zero_from (S i) tl) eqn:E; [discriminate|].
  destruct (Z.eqb_spec x 0); [discriminate|]. constructor; [assumption|].
  now apply (IH (S i)).
Qed.

Lemma last_zero_from_after (i j : nat) (l : list Z) :
  last_zero_from i l = Some j -> Forall (fun v => v <> 0) (skipn (S (j - i)) l).
Proof.
  revert i. induction l as [|x tl IH]; intros i H; [discriminate|].
  simpl in H. destruct (last_zero_from (S i) tl) as [j'|] eqn:E.
  - injection H as <-. pose proof (last_zero_from_range _ _ _ E).
    apply IH in E. replace (S (j' - i)) with (S (S (j' - S i))) by lia.
    exact E.
  - destruct (Z.eqb_spec x 0); [|discriminate]. injection H as <-.
    rewrite Nat.sub_diag. cbn [skipn]. now apply (last_zero_from_none (S i)).
Qed.

(** The last value [smooth] keeps of a column of counts that never
    decrease is not 0: the column is cut at its last zero, or it starts
    above 0. *)
Lemma kept_last_nonzero (s s' : list Z) (start : date) (s_daily : list float64)
    (la : Z) :
  StronglySorted Z.le s -> Forall (Z.le 0) s ->
  CasesModel.smooth_daily s = Some (s', start, s_daily) ->
  last_value (skipn (Z.to_nat start) s) = Some la ->
  la <> 0.
Proof.
  intros Hs Hpos. unfold CasesModel.smooth_daily.
  destruct s as [|x tl]; [discriminate|]. cbn [hd_error bind].
  destruct (Z.eqb_spec x 0) as [-> | Hx].
  - destruct (last_zero_from 0 (0 :: tl)) as [p|] eqn:E.
    + intro H. injection H as _ <- _.
      change (Z.pos (PosDef.Pos.of_succ_nat p)) with (Z.of_nat (S p)).
      rewrite Nat2Z.id. intro Hl.
      apply last_zero_from_after in E. rewrite Nat.sub_0_r in E.
      apply last_value_in in Hl. rewrite Forall_forall in E. now apply E.
    + simpl in E. destruct (last_zero_from 1 tl); discriminate.
  - intro H. injection H as _ <- _. cbn [Z.to_nat skipn]. intro Hl.
    apply last_value_in in Hl.
    assert (0 < x).
    { inversion Hpos; subst. lia. }
    destruct Hl as [<- | Hin]; [lia|].
    inversion Hs as [|? ? _ Hall]; subst. rewrite Forall_forall in Hall.
    specialize (Hall _ Hin). lia.
Qed.

Lemma Forall2_feq_of_int (l : list float64) (zs : list Z) :
  Forall2 feq l (map of_int zs) ->
  exists qs, l = map Fin qs /\ Forall2 (fun q z => (q == inject_Z z)%Q) qs zs.
Proof.
  revert l. induction zs as [|z tl IH]; intros l H.
  - inversion H; subst. exists []. split; constructor.
  - cbn [map] in H. inversion H as [|x ? l' ? Hx Htl]; subst.
    destruct (IH _ Htl) as (qs & -> & Hqs).
    destruct x as [q| | |]; try contradiction.
    exists (q :: qs). split; [reflexivity|]. constructor; assumption.
Qed.

Lemma Forall2_last_value {A B : Type} (R : A -> B -> Prop) (l : list A) (r : list B)
    (a : A) :
  Forall2 R l r -> last_value l = Some a ->
  exists b, last_value r = Some b /\ R a b.
Proof.
  induction 1 as [|x y l r Hxy Hall IH]; [discriminate|].
  destruct Hall as [|x' y' l' r' Hxy' Hall'].
  - intro H. injection H as <-. exists y. split; [reflexivity | exact Hxy].
  - intro H. unfold last_value in H. rewrite last_cons in H.
    destruct IH as (b & Hb & Hab); [exact H|].
    exists b. split; [|exact Hab]. unfold last_value in *. now rewrite last_cons.
Qed.

Lemma StronglySorted_firstn (n : nat) (l : list Z) :
  StronglySorted Z.le l -> StronglySorted Z.le (firstn n l).
Proof.
  intro H. revert n. induction H as [|x tl Hs IH Hall]; intro n.
  - rewrite firstn_nil. constructor.
  - destruct n as [|n]; [constructor|]. cbn [firstn]. constructor; [apply IH|].
    apply Forall_forall. intros y Hy. apply In_firstn in Hy.
    rewrite Forall_forall in Hall. now apply Hall.
Qed.

Lemma Forall_firstn_le (n : nat) (l : list Z) :
  Forall (Z.le 0) l -> Forall (Z.le 0) (firstn n l).
Proof.
  intro H. apply Forall_forall. intros y Hy. apply In_firstn in Hy.
  rewrite Forall_forall in H. now apply H.
Qed.

(** The daily differences are numbers. *)
Lemma smooth_daily_finite (s s' : list Z) (start : date)
    (s_daily : list float64) :
  CasesModel.smooth_daily s = Some (s', start, s_daily) ->
  Forall is_finite s_daily.
Proof.
  unfold CasesModel.smooth_daily.
  destruct s as [|x tl]; [discriminate|]. cbn [hd_error bind].
  destruct (x =? 0); intro H; injection H as _ _ <-.
  - destruct (skipn _ (x :: tl)) as [|y r]; [constructor|].
    cbn [map diff dropna filter isnan negb].
    fold (dropna (diff_from (of_int y) (map of_int r))).
    rewrite dropna_finite by apply diff_from_of_int. apply diff_from_of_int.
  - cbn [map diff fillna map isnan]. constructor; [exact I|].
    fold (fillna (of_int x) (diff_from (of_int x) (map of_int tl))).
    rewrite fillna_finite by apply diff_from_of_int. apply diff_from_of_int.
Qed.

(** For a column of counts that never decrease and a smoother that
    returns numbers, the values [smooth] returns are numbers, and the last
    one is not 0. *)
Lemma smooth_values
    (lowess : list float64 -> list float64 -> float64 -> list float64)
    (self : CasesModel.config) (s : list Z) (sm : Series) :
  (forall y x frac, Forall is_finite y -> Forall is_finite (lowess y x frac)) ->
  StronglySorted Z.le s -> Forall (Z.le 0) s ->
  CasesModel.smooth lowess self s = Some sm ->
  exists qs, values sm = map Fin qs /\
             forall z, last_value qs = Some z -> ~ (z == 0)%Q.
Proof.
  intros Hfin Hs Hpos. unfold CasesModel.smooth.
  set (s0 := upto s (CasesModel.last_date self)).
  assert (Hs0 : StronglySorted Z.le s0) by (now apply StronglySorted_firstn).
  assert (Hpos0 : Forall (Z.le 0) s0) by (now apply Forall_firstn_le).
  destruct (CasesModel.smooth_daily s0) as [[[s' start] s_daily]|] eqn:Hd;
    [|discriminate].
  cbn [bind].
  pose proof (smooth_daily_identity _ _ _ _ Hd) as Hid.
  destruct (Forall2_feq_of_int _ _ Hid) as (rs & Ers & Hrs).
  assert (Hraw : exists qs, cumsum s_daily = map Fin qs /\
                   forall z, last_value qs = Some z -> ~ (z == 0)%Q).
  { exists rs. split; [exact Ers|]. intros z Hz.
    destruct (Forall2_last_value _ _ _ _ Hrs Hz) as (la & Hla & Ez).
    pose proof (kept_last_nonzero _ _ _ _ _ Hs0 Hpos0 Hd Hla) as Hne.
    rewrite Ez. change 0%Q with (inject_Z 0). rewrite inject_Z_injective. exact Hne. }
  destruct (List.length s_daily <? MIN_OBS)%nat eqn:Eshort.
  { intro H. injection H as <-. exact Hraw. }
  destruct (negb _); [discriminate|].
  destruct (clip0_finite _ (Hfin s_daily
              (map of_int (arange 0 (Z.of_nat (List.length s_daily))))
              (fdiv (of_nat (CasesModel.n_smooth self))
                    (of_nat (List.length s_daily)))
              (smooth_daily_finite _ _ _ _ Hd))) as (cs & Ecs & Hcs).
  unfold CasesModel.smooth_lowess. rewrite Ecs. unfold cumsum at 1 2.
  rewrite cumsum_from_fin, last_value_map.
  destruct (last_value (qsum_from 0 cs)) as [q|] eqn:Eq; [|discriminate].
  cbn [option_map bind feqb].
  destruct (Qeq_bool q 0) eqn:E0.
  { intro H. injection H as <-. exact Hraw. }
  destruct (smooth_daily_last _ _ _ _ Hd) as [Hlast _].
  destruct (last_value s') as [la|] eqn:Ela; [|discriminate].
  cbn [bind]. intro H. injection H as <-. cbn [values].
  unfold cumsum. rewrite cumsum_from_fin, map_map, E0.
  assert (Hq : ~ (q == 0)%Q) by (now apply Qeq_bool_false).
  exists (map (fun x => (x * (inject_Z la / q))%Q) (qsum_from 0 cs)). split.
  - rewrite map_map. reflexivity.
  - intros z Hz. rewrite last_value_map, Eq in Hz. injection Hz as <-.
    assert (Hla : la <> 0).
    { apply (kept_last_nonzero _ _ _ _ _ Hs0 Hpos0 Hd).
      rewrite last_value_skipn; [now symmetry|].
      apply Forall2_length in Hid. rewrite length_map, length_skipn in Hid.
      unfold cumsum in Hid. rewrite length_cumsum_from in Hid.
      apply Nat.ltb_ge in Eshort. unfold MIN_OBS in Eshort. lia. }
    intro Hc. apply Hla. apply inject_Z_injective. change (inject_Z 0) with 0%Q.
    rewrite <- Hc. field. exact Hq.
Qed.

Lemma two_last {A : Type} (l : list A) :
  (2 <= List.length l)%nat -> exists pre a b, l = pre ++ [a; b].
Proof.
  intro H. destruct (exists_last (l := l)) as (l1 & b & ->).
  { destruct l; [simpl in H; lia | discriminate]. }
  rewrite length_app in H. cbn [List.length] in H.
  destruct (exists_last (l := l1)) as (l2 & a & ->).
  { destruct l1; [simpl in H; lia | discriminate]. }
  exists l2, a, b. now rewrite <- app_assoc.
Qed.

(** The growth over the last day of the training window of [run]. *)
Lemma run_growth_defined
    (lowess : list float64 -> list float64 -> float64 -> list float64)
    (self : CasesModel.config) (s : list Z) (sm : Series) :
  (forall y x frac, Forall is_finite y -> Forall is_finite (lowess y x frac)) ->
  StronglySorted Z.le s -> Forall (Z.le 0) s ->
  CasesModel.smooth lowess self s = Some sm ->
  (2 <= List.length (CasesModel.get_train self (values sm)))%nat ->
  exists g,
    last_value (pct_change (CasesModel.get_train self (values sm))) = Some g /\
    isnan g = false.
Proof.
  intros Hfin Hs Hpos Hsm.
  destruct (smooth_values _ _ _ _ Hfin Hs Hpos Hsm) as (qs & -> & Hz).
  unfold CasesModel.get_train.
  assert (Hsuf : exists k, iloc_last (CasesModel.n_train self) (map Fin qs)
                           = map Fin (skipn k qs)).
  { unfold iloc_last. destruct (CasesModel.n_train self) as [|n].
    - now exists O.
    - eexists. now rewrite skipn_map. }
  destruct Hsuf as [k ->]. rewrite length_map. intro Hlen.
  destruct (two_last _ Hlen) as (pre & p & z & E).
  assert (Hlast : last_value qs = Some z).
  { rewrite <- (last_value_skipn k qs).
    - rewrite E. apply last_value_app2.
    - rewrite length_skipn in Hlen. lia. }
  rewrite E, map_app. cbn [map].
  apply pct_change_last_defined. now apply Hz.
Qed.

Lemma lowess_half_finite (y x : list float64) (frac : float64) :
  Forall is_finite y -> Forall is_finite (lowess_half y x frac).
Proof.
  unfold lowess_half. induction 1 as [|v tl Hv _ IH]; cbn [map]; constructor;
    [|exact IH].
  destruct v; [exact I | contradiction..].
Qed.

Example run_growth_defined_sample :
  exists sm g,
    CasesModel.smooth lowess_half sample_config sample_cases = Some sm /\
    last_value (pct_change (CasesModel.get_train sample_config (values sm)))
      = Some g /\
    isnan g = false.
Proof.
  assert (H : forall sm,
            CasesModel.smooth lowess_half sample_config sample_cases = Some sm ->
            exists g,
              last_value (pct_change (CasesModel.get_train sample_config (values sm)))
                = Some g /\ isnan g = false).
  { intros sm E.
    apply (run_growth_defined lowess_half sample_config sample_cases sm
             lowess_half_finite).
    - repeat constructor; lia.
    - repeat constructor; lia.
    - exact E.
    - vm_compute in E. injection E as <-. vm_compute. lia. }
  eexists.
  assert (E : CasesModel.smooth lowess_half sample_config sample_cases
              = Some ?[sm]) by (vm_compute; reflexivity).
  destruct (H _ E) as (g & Hg & Hn).
  exists g. split; [exact E|]. split; assumption.
Qed.


(* ================================================================== *)
(** ** C3: the ratio of an area without cases in the window            *)
(* ================================================================== *)

(** The fallback is taken when both window totals are 0. *)
Lemma cfr_of_totals_zero_zero : DeathsModel.cfr_of_totals 0 0 = Fin (1 # 100).
Proof. reflexivity. Qed.

(** C3: with a cases window total of 0, [calculate_cfr] gives the fallback
    0.01 only when the deaths total is 0 as well; for a nonzero deaths
    total the ratio is an infinity, which [fillna] leaves in place.  So it
    is for the outbreak sample (5 deaths, 0 cases in the lagged window),
    whose ratio is +inf. *)
Theorem C3_zero_cases_ratio :
  (forall deaths_total : Z,
     DeathsModel.cfr_of_totals deaths_total 0 =
       if deaths_total =? 0 then Fin (1 # 100)
       else if deaths_total <? 0 then NInf else PInf) /\
  DeathsModel.cfr_area outbreak_config outbreak_deaths outbreak_cases = Some PInf.
Proof.
  split; [|reflexivity].
  intros [|p|p]; reflexivity.
Qed.

(* ================================================================== *)
(** ** C5: the first forecast of a fitted curve                        *)
(* ================================================================== *)

Lemma Qinv_between (d0 d1 : Q) :
  (1 <= d1)%Q -> (d1 <= d0)%Q -> (0 < / d0 /\ / d0 <= / d1 /\ / d1 <= 1)%Q.
Proof.
  intros H1 H10.
  assert (Hp1 : (0 < / d1)%Q) by (apply Qinv_lt_0_compat; lra).
  assert (Hp0 : (0 < / d0)%Q) by (apply Qinv_lt_0_compat; lra).
  assert (E1 : (d1 * / d1 == 1)%Q) by (apply Qmult_inv_r; lra).
  assert (E0 : (d0 * / d0 == 1)%Q) by (apply Qmult_inv_r; lra).
  set (a := (/ d1)%Q) in *. set (b := (/ d0)%Q) in *.
  split; [exact Hp0|]. split.
  - destruct (Qlt_le_dec a b) as [Hlt | Hle]; [|exact Hle].
    exfalso. assert (d1 * a < d0 * b)%Q by nra. lra.
  - destruct (Qlt_le_dec 1 a) as [Hlt | Hle]; [|exact Hle].
    exfalso. assert (1 < d1 * a)%Q by nra. lra.
Qed.

(** C5: for every area and every fitted parameter set, the first forecast
    day's cumulative value (the last actual cumulative value plus the
    rounded first predicted delta) is greater than or equal to the last
    actual cumulative value.  A fitted parameter set lies within the bounds
    [get_bounds_p0] estimates from the training window, which scipy's
    [least_squares] never leaves; the window is positive and does not
    decrease over its last two days (otherwise its L bounds are no numbers
    and nothing is fitted).  Then L >= L_min >= last and
    s <= last + 0.01, and since the divisor of the curve is at least 1 and
    does not grow from x = n_train - 1 to x = n_train (k > 0, v > 0), the
    first delta is above -0.01, which rounds to 0 or more. *)
Theorem C5_first_forecast_in_bounds
    (np_exp : float64 -> float64) (np_power : float64 -> float64 -> float64)
    (self : CasesModel.config) (s : list Z) (l : list float64)
    (prev lastv : Q) (bounds : params * params) (p0 : params)
    (L x0 k v sft : Q) (n_train : nat) (last_actual : Z) (d0 d1 : Q) :
  let p := mk_params (Fin L) (Fin x0) (Fin k) (Fin v) (Fin sft) in
  let model := general_logistic_shift np_exp np_power in
  (0 < prev)%Q -> (prev <= lastv)%Q ->
  CasesModel.get_bounds_p0 self (l ++ [Fin prev; Fin lastv]) = Some (bounds, p0) ->
  in_bounds bounds p = true ->
  logistic_denominator np_exp np_power (of_int (Z.of_nat n_train - 1)) p = Fin d0 ->
  logistic_denominator np_exp np_power (of_int (Z.of_nat n_train)) p = Fin d1 ->
  (1 <= d1)%Q -> (d1 <= d0)%Q ->
  (1 <= CasesModel.n_pred self)%nat ->
  loc s (CasesModel.last_date self) = Some last_actual ->
  exists c rest,
    CasesModel.get_pred_cumulative self s
      (map round0 (CasesModel.get_pred_daily model self n_train p))
      = Some (Fin c :: rest) /\
    (inject_Z last_actual <= c)%Q.
Proof.
  intros p model Hprev Hle Hb Hin Hd0 Hd1 H1 H10 Hn Hloc.
  assert (Hp0 : ~ (prev == 0)%Q) by lra.
  assert (Hg : (1 <= lastv / prev + - (1) + 1)%Q).
  { assert (1 <= lastv / prev)%Q by (apply Qle_shift_div_l; lra). lra. }
  (* the bounds: L_min >= last and s_max = last + 0.01 *)
  unfold CasesModel.get_bounds_p0, CasesModel.get_L_limits in Hb.
  rewrite last_value_app2, pct_change_last in Hb by exact Hp0.
  cbn [bind fadd] in Hb. rewrite !fpow_int_fin in Hb.
  cbn [fmul fadd fsub fneg] in Hb. injection Hb as <- _.
  unfold in_bounds, p in Hin. cbn [p_L p_x0 p_k p_v p_s fle] in Hin.
  repeat (apply andb_prop in Hin; destruct Hin as [Hin ?]).
  assert (HL : (lastv * qpow (lastv / prev + - (1) + 1) (CasesModel.L_n_min self) <= L)%Q)
    by (now apply Qle_bool_iff).
  assert (Hs : (sft <= lastv + (1 # 100))%Q) by (now apply Qle_bool_iff).
  pose proof (qpow_ge_1 _ (CasesModel.L_n_min self) Hg) as Hq.
  assert (Hu : (- (1 # 100) <= L + - sft)%Q) by nra.
  (* the two values of the model *)
  destruct (Qinv_between d0 d1 H1 H10) as (Hb0 & Hba & Ha1).
  assert (E0 : Qeq_bool d0 0 = false) by (apply Qeq_bool_false; lra).
  assert (E1 : Qeq_bool d1 0 = false) by (apply Qeq_bool_false; lra).
  assert (Hy0 : model (of_int (Z.of_nat n_train - 1)) p
                = Fin ((L + - sft) / d0 + sft)).
  { unfold model, general_logistic_shift. rewrite Hd0. unfold p.
    cbn [p_L p_s fsub fneg fadd fdiv]. now rewrite E0. }
  assert (Hy1 : model (of_int (Z.of_nat n_train)) p
                = Fin ((L + - sft) / d1 + sft)).
  { unfold model, general_logistic_shift. rewrite Hd1. unfold p.
    cbn [p_L p_s fsub fneg fadd fdiv]. now rewrite E1. }
  destruct (first_forecast_cumulative model self s p n_train last_actual _ _
              Hn Hloc Hy0 Hy1) as (c & rest & Hc & E).
  exists c, rest. split; [exact Hc|]. rewrite E, <- Zle_Qle.
  assert (Hdelta : (- (1 # 100) <=
                    (L + - sft) / d1 + sft - ((L + - sft) / d0 + sft))%Q).
  { unfold Qdiv. set (a := (/ d1)%Q) in *. set (b := (/ d0)%Q) in *.
    set (u := (L + - sft)%Q) in *.
    destruct (Qlt_le_dec u 0) as [Hneg | Hpos]; nra. }
  assert (0 <= round_half_even
                 ((L + - sft) / d1 + sft - ((L + - sft) / d0 + sft))).
  { change 0 with (round_half_even (- (1 # 100))).
    now apply round_half_even_mono. }
  lia.
Qed.

(** The sample column, whose training window ends with 30 and 32: the
    bounds of L are about 44.2 and 807.6, those of s are 0 and 32.01, and
    the parameters L = 200, x0 = 16, k = 0.5, v = 1, s = 30 lie within
    them.  The divisor of the curve is 2 at x = 16 and 1 + exp(-0.5) at
    x = 17; the first cumulative forecast is 53. *)
Lemma C5_first_forecast_in_bounds_witness :
  exists c rest,
    CasesModel.get_pred_cumulative sample_config sample_cases
      (map round0
         (CasesModel.get_pred_daily
            (general_logistic_shift np_exp_sample np_power_sample)
            sample_config 17
            (mk_params (Fin 200) (Fin 16) (Fin (1 # 2)) (Fin 1) (Fin 30))))
      = Some (Fin c :: rest) /\
    (inject_Z 32 <= c)%Q.
Proof.
  eapply (C5_first_forecast_in_bounds np_exp_sample np_power_sample
            sample_config sample_cases [] 30 32 _ _ 200 16 (1 # 2) 1 30 17 32).
  - reflexivity.
  - unfold Qle. simpl. lia.
  - reflexivity.
  - vm_compute. reflexivity.
  - vm_compute. reflexivity.
  - vm_compute. reflexivity.
  - unfold Qle. simpl. lia.
  - unfold Qle. simpl. lia.
  - simpl. lia.
  - reflexivity.
Defined.

(* ================================================================== *)
(** ** The repaired column, date by date                               *)
(* ================================================================== *)

(** The interpolated value of every date against the input and its running
    maximum: never below the running maximum, and the input value itself
    where the input reaches its running maximum. *)
Lemma interp_fwd_pointwise (l : list Z) :
  forall (m : Z) (k : nat),
  exists zs,
    interp_fwd (Some (of_int m, k)) (masked_from m l) = map Fin zs /\
    Forall2 (fun z p => (inject_Z (snd p) <= z)%Q /\
                        (fst p = snd p -> (z == inject_Z (fst p))%Q))
            zs (combine l (cummax_from m l)).
Proof.
  induction l as [|x tl IH]; intros m k.
  - exists []. split; constructor.
  - cbn [masked_from cummax_from combine].
    destruct (x <? Z.max m x) eqn:E.
    + apply Z.ltb_lt in E.
      assert (Em : Z.max m x = m) by lia. rewrite Em.
      destruct (IH m (S k)) as (zs & Ezs & Hzs).
      pose proof (next_valid_mono _ _ (masked_from_mono m tl)) as Hnv.
      cbn [interp_fwd isnan]. rewrite Ezs.
      destruct (next_valid (masked_from m tl)) as [[d v]|].
      * destruct Hnv as (b & -> & Hab).
        unfold of_int at 1 2. rewrite interp_value.
        eexists (_ :: zs). split; [reflexivity|].
        constructor; [|exact Hzs]. cbn [fst snd]. split; [|lia].
        assert (H0 : (0 <= (b + - inject_Z m) / inject_Z (Z.of_nat (k + d + 1))
                          * inject_Z (Z.of_nat k))%Q).
        { apply Qmult_le_0_compat; [|apply inject_nat_nonneg].
          apply Qle_shift_div_l; [apply inject_nat_pos; lia | lra]. }
        lra.
      * exists (inject_Z m :: zs). split; [reflexivity|].
        constructor; [|exact Hzs]. cbn [fst snd]. split; [apply Qle_refl | lia].
    + apply Z.ltb_ge in E.
      assert (Em : Z.max m x = x) by lia. rewrite Em.
      destruct (IH x 1%nat) as (zs & Ezs & Hzs).
      cbn [interp_fwd isnan of_int]. rewrite Ezs.
      exists (inject_Z x :: zs). split; [reflexivity|].
      constructor; [|exact Hzs]. cbn [fst snd].
      split; [apply Qle_refl | intros _; apply Qeq_refl].
Qed.

Lemma round_half_even_comp (p q : Q) :
  (p == q)%Q -> round_half_even p = round_half_even q.
Proof.
  intro H. apply Z.le_antisymm; apply round_half_even_mono; rewrite H; apply Qle_refl.
Qed.

Lemma Forall2_nth {A B : Type} (R : A -> B -> Prop) (l1 : list A) (l2 : list B)
    (d1 : A) (d2 : B) :
  Forall2 R l1 l2 ->
  forall i, (i < List.length l1)%nat -> R (nth i l1 d1) (nth i l2 d2).
Proof.
  induction 1 as [|a b l1 l2 Hab H IH]; intros i Hi.
  - simpl in Hi. lia.
  - destruct i as [|i]; [exact Hab|]. simpl. apply IH. simpl in Hi. lia.
Qed.

(** Every repaired value is at least the running maximum of the input at
    its date, and is the input value where the input was not flagged. *)
Lemma fix_bad_column_values (s : list Z) :
  exists r,
    fix_bad_column s = Some r /\
    Forall2 (fun v p => snd p <= v /\ (fst p = snd p -> v = fst p))
            r (combine s (cummax s)).
Proof.
  unfold fix_bad_column. rewrite mask_cummax.
  destruct s as [|x tl].
  - exists []. split; [reflexivity | constructor].
  - unfold interpolate. cbn [interp_fwd of_int isnan].
    destruct (interp_fwd_pointwise tl x 1%nat) as (zs & Ezs & Hzs).
    rewrite Ezs. unfold of_int.
    change (Fin (inject_Z x) :: map Fin zs) with (map Fin (inject_Z x :: zs)).
    rewrite astype_round_map.
    exists (map round_half_even (inject_Z x :: zs)). split; [reflexivity|].
    cbn [map cummax combine]. constructor.
    + cbn [fst snd]. rewrite round_half_even_inject. lia.
    + clear Ezs. induction Hzs as [|z p zs ps [Hge Heq] _ IH]; constructor.
      * split.
        -- rewrite <- (round_half_even_inject (snd p)).
           apply round_half_even_mono, Hge.
        -- intro E. rewrite (round_half_even_comp _ _ (Heq E)).
           apply round_half_even_inject.
      * exact IH.
Qed.

Lemma length_cummax (s : list Z) : List.length (cummax s) = List.length s.
Proof.
  destruct s as [|x tl]; [reflexivity|]. simpl. f_equal.
  generalize x. induction tl as [|y tl IH]; intro m; simpl; auto.
Qed.

Lemma cummax_ge (s : list Z) :
  forall i, (i < List.length s)%nat -> nth i s 0 <= nth i (cummax s) 0.
Proof.
  destruct s as [|x tl]; intros i Hi; [simpl in Hi; lia|].
  destruct i as [|i]; [simpl; lia|]. simpl in Hi. simpl.
  assert (Hi' : (i < List.length tl)%nat) by lia. clear Hi.
  revert i Hi'. generalize x. induction tl as [|y tl IH]; intros m i Hi.
  - simpl in Hi. lia.
  - destruct i as [|i]; simpl; [lia|]. apply IH. simpl in Hi. lia.
Qed.

Lemma StronglySorted_le_last (r : list Z) :
  StronglySorted Z.le r ->
  forall i, (i < List.length r)%nat -> nth i r 0 <= last r 0.
Proof.
  induction 1 as [|a l Hs IH Hall]; intros i Hi; [simpl in Hi; lia|].
  rewrite last_cons. destruct i as [|i].
  - cbn [nth]. destruct l as [|b l']; [simpl; lia|].
    assert (Hin : In (last (b :: l') a) (b :: l')).
    { rewrite (last_default a b) by discriminate.
      rewrite last_cons. apply last_value_in. reflexivity. }
    rewrite Forall_forall in Hall. apply Hall, Hin.
  - cbn [nth]. simpl in Hi.
    rewrite (last_default a 0) by (intros ->; simpl in Hi; lia).
    apply IH. lia.
Qed.

(** X1: for every input column the repair returns a column in which, at
    every date, the value is at least the running maximum of the input up
    to that date (so no value is lowered), at most the maximum of the whole
    input, and equal to the input value wherever the input was not flagged
    (was not below its running maximum). *)
Theorem X1_repair_pointwise (s : list Z) :
  exists r,
    fix_bad_column s = Some r /\
    forall i, (i < List.length s)%nat ->
      nth i s 0 <= nth i (cummax s) 0 <= nth i r 0 /\
      nth i r 0 <= last (cummax s) 0 /\
      (nth i s 0 = nth i (cummax s) 0 -> nth i r 0 = nth i s 0).
Proof.
  destruct (fix_bad_column_values s) as (r & Er & Hr).
  destruct (fix_bad_column_spec s) as (r' & Er' & Hlen & Hsort & Hlast).
  rewrite Er in Er'. injection Er' as <-.
  exists r. split; [exact Er|]. intros i Hi.
  pose proof (Forall2_nth _ _ _ 0 (0, 0) Hr i ltac:(lia)) as [Hge Heq].
  rewrite combine_nth in Hge, Heq by (symmetry; apply length_cummax).
  cbn [fst snd] in Hge, Heq.
  repeat split.
  - apply cummax_ge, Hi.
  - exact Hge.
  - rewrite <- Hlast. apply StronglySorted_le_last; [exact Hsort | lia].
  - exact Heq.
Qed.

Lemma cummax_sorted (s : list Z) : StronglySorted Z.le s -> cummax s = s.
Proof.
  destruct s as [|x tl]; [reflexivity|]. intro H. simpl. f_equal.
  apply cummax_from_sorted, H.
Qed.

(** A column that never decreases is returned as it is. *)
Lemma fix_bad_column_sorted (s : list Z) :
  StronglySorted Z.le s -> fix_bad_column s = Some s.
Proof.
  intro Hs.
  destruct (fix_bad_column_values s) as (r & Er & Hr).
  rewrite Er. f_equal.
  rewrite (cummax_sorted s Hs) in Hr.
  clear Er Hs. revert r Hr. induction s as [|x tl IH]; intros r Hr.
  - inversion Hr. reflexivity.
  - destruct r as [|v r]; [inversion Hr|].
    cbn [combine] in Hr. inversion Hr as [|? ? ? ? [_ Hv] Htl]; subst.
    cbn [fst snd] in Hv. rewrite (Hv eq_refl). f_equal. apply IH, Htl.
Qed.

Lemma nth_le_sorted (l : list Z) :
  (forall i j, (i < j < List.length l)%nat -> nth i l 0 <= nth j l 0) ->
  StronglySorted Z.le l.
Proof.
  induction l as [|a l IH]; intro H; constructor.
  - apply IH. intros i j Hij. apply (H (S i) (S j)). simpl. lia.
  - apply Forall_forall. intros x Hx.
    destruct (In_nth l x 0 Hx) as (j & Hj & <-).
    apply (H 0%nat (S j)). simpl. lia.
Qed.

(** X2: a column that is already non-decreasing (S[i] <= S[j] for all
    i < j) is left unchanged by the repair. *)
Theorem X2_repair_monotone_unchanged (s : list Z) :
  (forall i j, (i < j < List.length s)%nat -> nth i s 0 <= nth j s 0) ->
  fix_bad_column s = Some s.
Proof. intro H. apply fix_bad_column_sorted, nth_le_sorted, H. Qed.

Lemma X2_repair_monotone_unchanged_witness :
  fix_bad_column [1; 2; 2; 5] = Some [1; 2; 2; 5].
Proof.
  apply (X2_repair_monotone_unchanged [1; 2; 2; 5]).
  intros i j Hij. simpl in Hij.
  destruct i as [|[|[|[|i]]]]; destruct j as [|[|[|[|j]]]]; simpl; lia.
Defined.

(** X3: the repair is idempotent: repairing a repaired column changes
    nothing. *)
Theorem X3_repair_idempotent (s : list Z) :
  exists r, fix_bad_column s = Some r /\ fix_bad_column r = Some r.
Proof.
  destruct (fix_bad_column_spec s) as (r & Er & _ & Hsort & _).
  exists r. split; [exact Er | apply fix_bad_column_sorted, Hsort].
Qed.

Lemma unflagged_sorted (l : list Z) :
  forall m, filter (fun b : bool => b) (lt_series l (cummax_from m l)) = [] ->
            StronglySorted Z.le (m :: l).
Proof.
  induction l as [|x tl IH]; intros m H.
  - repeat constructor.
  - unfold lt_series in H. cbn [cummax_from combine map fst snd filter] in H.
    destruct (x <? Z.max m x) eqn:E; [discriminate H|].
    apply Z.ltb_ge in E. assert (Em : Z.max m x = x) by lia. rewrite Em in H.
    specialize (IH x H). constructor; [exact IH|].
    constructor; [lia|].
    apply StronglySorted_inv in IH. destruct IH as [_ Hall].
    eapply Forall_impl; [|exact Hall]. intros z Hz. cbv beta in Hz. lia.
Qed.

(** X4: the check [(s < s.cummax()).sum()] counts no bad value exactly
    when the column never decreases. *)
Theorem X4_count_bad_zero_iff (s : list Z) :
  count_bad s = 0%nat <-> StronglySorted Z.le s.
Proof.
  split; [|apply count_bad_sorted].
  unfold count_bad. intro H. apply length_zero_iff_nil in H.
  destruct s as [|x tl]; [constructor|].
  unfold lt_series in H. cbn [cummax combine map fst snd filter] in H.
  rewrite Z.ltb_irrefl in H. apply unflagged_sorted. exact H.
Qed.

(** X5: the repair of a whole table never raises; it keeps the areas and
    their order, repairs every column with the same number of rows, and
    the check run on the result counts no bad value in any column. *)
Theorem X5_repair_table (world_deaths : DataFrame Z) :
  exists fixed,
    world_deaths_fixed world_deaths = Some fixed /\
    map fst fixed = map fst world_deaths /\
    Forall2 (fun c c' =>
               fix_bad_column (snd c) = Some (snd c') /\
               List.length (snd c') = List.length (snd c))
            world_deaths fixed /\
    Forall (fun c' => count_bad (snd c') = 0%nat) fixed.
Proof.
  unfold world_deaths_fixed.
  induction world_deaths as [|[name col] tl (fixed & E & Hk & H2 & Hc)].
  - exists []. repeat split; constructor.
  - destruct (fix_bad_column_spec col) as (r & Er & Hlen & Hsort & _).
    exists ((name, r) :: fixed). cbn [mapM snd fst]. rewrite Er. cbn [bind].
    rewrite E. cbn [bind]. repeat split.
    + cbn [map fst]. now rewrite Hk.
    + constructor; [split; assumption | exact H2].
    + constructor; [apply count_bad_sorted, Hsort | exact Hc].
Qed.

(* ================================================================== *)
(** ** [CasesModel.smooth]: index and failures                         *)
(* ================================================================== *)

Lemma length_diff_from (prev : float64) (l : list float64) :
  List.length (diff_from prev l) = List.length l.
Proof. revert prev. induction l as [|x tl IH]; intro p; simpl; auto. Qed.

(** The daily differences cover the dates from [start] to the end of the
    column. *)
Lemma smooth_daily_length (s s' : list Z) (start : date) (s_daily : list float64) :
  CasesModel.smooth_daily s = Some (s', start, s_daily) ->
  0 <= start /\
  start + Z.of_nat (List.length s_daily) = Z.of_nat (List.length s).
Proof.
  unfold CasesModel.smooth_daily.
  destruct s as [|x tl]; [discriminate|]. cbn [hd_error bind].
  destruct (Z.eqb_spec x 0) as [-> | Hx].
  - assert (Hz : exists p rest,
               match last_zero_from 0 (0 :: tl) with Some p => p | None => O end = p /\
               skipn p (0 :: tl) = 0 :: rest).
    { destruct (last_zero_from 0 (0 :: tl)) as [p|] eqn:E.
      - apply last_zero_from_zero in E. rewrite Nat.sub_0_r in E.
        destruct (nth_error_skipn_hd _ _ _ E) as [rest Hr]. now exists p, rest.
      - exists O, tl. split; reflexivity. }
    destruct Hz as (p & rest & -> & Hp).
    intro H. injection H as _ <- <-.
    change (Z.pos (PosDef.Pos.of_succ_nat p)) with (Z.of_nat (S p)).
    split; [lia|].
    rewrite Hp. cbn [map diff]. cbn [dropna filter isnan negb].
    fold (dropna (diff_from (of_int 0) (map of_int rest))).
    rewrite dropna_finite by apply diff_from_of_int.
    rewrite length_diff_from, length_map.
    pose proof (f_equal (@List.length Z) Hp) as HL.
    rewrite length_skipn in HL. cbn [List.length] in HL |- *. lia.
  - intro H. injection H as _ <- <-. split; [lia|].
    cbn [List.length]. unfold fillna.
    rewrite length_map, length_diff_from, length_map. lia.
Qed.

Lemma length_upto_loc {A : Type} (s : list A) (d : date) (v : A) :
  loc s d = Some v -> Z.of_nat (List.length (upto s d)) = d + 1.
Proof.
  unfold loc, upto. destruct (Z.ltb_spec d 0) as [|Hd]; [discriminate|].
  intro H. assert (Hlt : (Z.to_nat d < List.length s)%nat).
  { apply nth_error_Some. congruence. }
  rewrite length_firstn. lia.
Qed.

(** Every result of [smooth] has one value per date from its first date
    to the last row kept by [s[:last_date]]. *)
Lemma smooth_length
    (lowess : list float64 -> list float64 -> float64 -> list float64)
    (self : CasesModel.config) (s : list Z) (sm : Series) :
  CasesModel.smooth lowess self s = Some sm ->
  0 <= first_date sm /\
  first_date sm + Z.of_nat (List.length (values sm))
  = Z.of_nat (List.length (upto s (CasesModel.last_date self))).
Proof.
  unfold CasesModel.smooth.
  destruct (CasesModel.smooth_daily (upto s (CasesModel.last_date self)))
    as [[[s' start] s_daily]|] eqn:Hd; [|discriminate].
  cbn [bind]. destruct (smooth_daily_length _ _ _ _ Hd) as [H0 HL].
  destruct (List.length s_daily <? MIN_OBS)%nat.
  - intro H. injection H as <-. cbn [first_date values]. unfold cumsum.
    rewrite length_cumsum_from. auto.
  - destruct (Nat.eqb_spec (List.length (CasesModel.smooth_lowess lowess self s_daily))
                           (List.length s_daily)) as [El|]; [|discriminate].
    cbn [negb].
    destruct (last_value (cumsum (map clip0 (CasesModel.smooth_lowess lowess self s_daily))))
      as [total|]; [|discriminate].
    cbn [bind]. destruct (feqb total (Fin 0)).
    + intro H. injection H as <-. cbn [first_date values]. unfold cumsum.
      rewrite length_cumsum_from. auto.
    + destruct (last_value s') as [la|]; [|discriminate]. cbn [bind].
      intro H. injection H as <-. cbn [first_date values]. unfold cumsum.
      rewrite length_map, length_cumsum_from, length_map, El. auto.
Qed.

(** X6: when [last_date] is a date of the column, the series returned by
    [smooth] has one value for every date from its first date up to and
    including [last_date]: its last row is dated [last_date], whichever
    branch of [smooth] produced it. *)
Theorem X6_smooth_ends_at_last_date
    (lowess : list float64 -> list float64 -> float64 -> list float64)
    (self : CasesModel.config) (s : list Z) (sm : Series) (last_actual : Z) :
  CasesModel.smooth lowess self s = Some sm ->
  loc s (CasesModel.last_date self) = Some last_actual ->
  0 <= first_date sm /\
  first_date sm + Z.of_nat (List.length (values sm)) = CasesModel.last_date self + 1.
Proof.
  intros Hs Hl. destruct (smooth_length _ _ _ _ Hs) as [H0 H1].
  split; [exact H0|]. rewrite H1. apply (length_upto_loc _ _ _ Hl).
Qed.

Lemma X6_smooth_ends_at_last_date_witness :
  exists sm,
    CasesModel.smooth lowess_half sample_config sample_cases = Some sm /\
    0 <= first_date sm /\
    first_date sm + Z.of_nat (List.length (values sm)) = 16 + 1.
Proof.
  eexists. split.
  - vm_compute. reflexivity.
  - apply (X6_smooth_ends_at_last_date lowess_half sample_config sample_cases _ 32).
    + vm_compute. reflexivity.
    + reflexivity.
Defined.

Lemma last_value_cumsum_from (acc : float64) (l : list float64) :
  l <> [] -> exists v, last_value (cumsum_from acc l) = Some v.
Proof.
  destruct l as [|x tl]; [congruence|]. intros _. simpl.
  destruct (isnan x); eexists; reflexivity.
Qed.

(** X7: with a smoother that returns one value per day, [smooth] raises
    exactly when the column has no row on or before [last_date] (the
    IndexError of [s.values[0]]); in every other case it returns a
    series. *)
Theorem X7_smooth_raises_iff
    (lowess : list float64 -> list float64 -> float64 -> list float64)
    (self : CasesModel.config) (s : list Z) :
  (forall y x frac, List.length (lowess y x frac) = List.length y) ->
  (CasesModel.smooth lowess self s = None <->
   upto s (CasesModel.last_date self) = []).
Proof.
  intro Hlow. unfold CasesModel.smooth. split.
  - destruct (CasesModel.smooth_daily (upto s (CasesModel.last_date self)))
      as [[[s' start] s_daily]|] eqn:Hd.
    + cbn [bind]. destruct (smooth_daily_last _ _ _ _ Hd) as [Hlast Hne].
      destruct (Nat.ltb_spec (List.length s_daily) MIN_OBS) as [|Hobs]; [discriminate|].
      unfold CasesModel.smooth_lowess at 1. rewrite Hlow, Nat.eqb_refl. cbn [negb].
      destruct (last_value_cumsum_from (Fin 0)
                  (map clip0 (CasesModel.smooth_lowess lowess self s_daily)))
        as [total Ht].
      { intro E. apply (f_equal (@List.length float64)) in E.
        rewrite length_map in E. unfold CasesModel.smooth_lowess in E.
        rewrite Hlow in E. simpl in E. unfold MIN_OBS in Hobs. lia. }
      unfold cumsum. rewrite Ht. cbn [bind].
      destruct (feqb total (Fin 0)); [discriminate|].
      rewrite Hlast.
      destruct (upto s (CasesModel.last_date self)); [congruence|discriminate].
    + intros _. unfold CasesModel.smooth_daily in Hd.
      destruct (upto s (CasesModel.last_date self)) as [|x tl]; [reflexivity|].
      cbn [hd_error bind] in Hd. destruct (x =? 0); discriminate.
  - intros ->. reflexivity.
Qed.

Lemma X7_smooth_raises_iff_witness :
  CasesModel.smooth lowess_half sample_config sample_cases = None <->
  upto sample_cases (CasesModel.last_date sample_config) = [].
Proof.
  apply (X7_smooth_raises_iff lowess_half sample_config sample_cases).
  intros y x frac. unfold lowess_half. apply length_map.
Defined.

(** Clipping values that are not positive leaves zeros, and so does their
    running sum. *)
Lemma cumsum_from_clipped (l : list float64) :
  Forall (fun v => exists q, v = Fin q /\ (q <= 0)%Q) l ->
  forall c, (c == 0)%Q ->
    Forall (fun v => exists t, v = Fin t /\ (t == 0)%Q)
           (cumsum_from (Fin c) (map clip0 l)).
Proof.
  induction 1 as [|v l (q & -> & Hq) _ IH]; intros c Hc; [constructor|].
  cbn [map]. unfold clip0 at 1. cbn [flt].
  destruct (Qltb q 0) eqn:E.
  - cbn [cumsum_from isnan fadd]. constructor.
    + eexists. split; [reflexivity|]. rewrite Hc. ring.
    + apply IH. rewrite Hc. ring.
  - apply Qltb_false in E. assert (Eq : (q == 0)%Q) by lra.
    cbn [cumsum_from isnan fadd]. constructor.
    + eexists. split; [reflexivity|]. rewrite Hc, Eq. ring.
    + apply IH. rewrite Hc, Eq. ring.
Qed.

Lemma last_value_Forall {A : Type} (P : A -> Prop) (l : list A) (a : A) :
  Forall P l -> last_value l = Some a -> P a.
Proof.
  intros H Hl. rewrite Forall_forall in H. apply H. now apply last_value_in.
Qed.

(** X8: when the smoother returns no positive value (every smoothed daily
    value is clipped to 0), [smooth] does not use the smoothed values: it
    returns the cumulative sum of the raw daily differences, which is the
    column itself on the dates it keeps. *)
Theorem X8_smooth_nothing_positive
    (lowess : list float64 -> list float64 -> float64 -> list float64)
    (self : CasesModel.config) (s s' : list Z) (start : date)
    (s_daily : list float64) :
  CasesModel.smooth_daily (upto s (CasesModel.last_date self))
    = Some (s', start, s_daily) ->
  (MIN_OBS <= List.length s_daily)%nat ->
  List.length (CasesModel.smooth_lowess lowess self s_daily)
    = List.length s_daily ->
  Forall (fun v => exists q, v = Fin q /\ (q <= 0)%Q)
         (CasesModel.smooth_lowess lowess self s_daily) ->
  CasesModel.smooth lowess self s = Some (mk_series start (cumsum s_daily)) /\
  Forall2 feq (cumsum s_daily)
    (map of_int (skipn (Z.to_nat start) (upto s (CasesModel.last_date self)))).
Proof.
  intros Hd Hobs Hlen Hneg. split; [|now apply (smooth_daily_identity _ s')].
  unfold CasesModel.smooth. rewrite Hd. cbn [bind].
  assert (E1 : (List.length s_daily <? MIN_OBS)%nat = false)
    by (apply Nat.ltb_ge; exact Hobs).
  rewrite E1, Hlen, Nat.eqb_refl. cbn [negb].
  pose proof (cumsum_from_clipped _ Hneg 0%Q (Qeq_refl 0)) as Hz.
  fold (cumsum (map clip0 (CasesModel.smooth_lowess lowess self s_daily))) in Hz.
  destruct (last_value (cumsum (map clip0 (CasesModel.smooth_lowess lowess self s_daily))))
    as [total|] eqn:Et.
  - destruct (last_value_Forall _ _ _ Hz Et) as (t & -> & Ht).
    cbn [bind feqb]. apply Qeq_bool_iff in Ht. now rewrite Ht.
  - exfalso.
    assert (Hl : List.length (cumsum (map clip0 (CasesModel.smooth_lowess lowess self s_daily)))
                 = List.length s_daily).
    { unfold cumsum. now rewrite length_cumsum_from, length_map. }
    destruct (cumsum (map clip0 (CasesModel.smooth_lowess lowess self s_daily)));
      [|discriminate Et].
    simpl in Hl. unfold MIN_OBS in Hobs. lia.
Qed.

Lemma X8_smooth_nothing_positive_witness :
  exists s_daily,
    CasesModel.smooth lowess_zero sample_config sample_cases
      = Some (mk_series 1 (cumsum s_daily)) /\
    Forall2 feq (cumsum s_daily)
      (map of_int (skipn (Z.to_nat 1)
                     (upto sample_cases (CasesModel.last_date sample_config)))).
Proof.
  eexists.
  eapply (X8_smooth_nothing_positive lowess_zero sample_config sample_cases).
  - vm_compute. reflexivity.
  - vm_compute. lia.
  - reflexivity.
  - unfold CasesModel.smooth_lowess, lowess_zero. apply Forall_map.
    apply Forall_forall. intros v _. exists 0%Q. split; [reflexivity|].
    apply Qle_refl.
Defined.

(* ================================================================== *)
(** ** The training window and the forecast of one area                *)
(* ================================================================== *)

(** X9: the training window is a suffix of the smoothed series: the last
    [n_train] values, or all of them when there are fewer; with
    [n_train = 0] it is the whole series ([iloc[-0:]]).  It always ends
    with the last smoothed value. *)
Theorem X9_get_train_suffix (self : CasesModel.config) (smoothed : list float64) :
  let train := CasesModel.get_train self smoothed in
  (exists older, smoothed = older ++ train) /\
  List.length train =
    (if (CasesModel.n_train self =? 0)%nat then List.length smoothed
     else Nat.min (CasesModel.n_train self) (List.length smoothed)) /\
  last_value train = last_value smoothed.
Proof.
  unfold CasesModel.get_train, iloc_last.
  destruct (CasesModel.n_train self) as [|n].
  - cbn. repeat split. exists []. reflexivity.
  - cbn [Nat.eqb]. repeat split.
    + eexists. symmetry. apply firstn_skipn.
    + rewrite length_skipn. lia.
    + destruct smoothed as [|x tl]; [reflexivity|].
      apply last_value_skipn. simpl. lia.
Qed.

Lemma astype_round_of_int (ds : list float64) (zs : list Z) :
  series_astype_int (map round0 ds) = Some zs -> map round0 ds = map of_int zs.
Proof.
  unfold series_astype_int. revert zs.
  induction ds as [|d tl IH]; intros zs H.
  - injection H as <-. reflexivity.
  - cbn [map mapM] in H.
    destruct d as [q| | |]; try discriminate H.
    cbn [round0 astype_int of_int bind] in H.
    destruct (mapM astype_int (map round0 tl)) as [bs|]; [|discriminate H].
    cbn [bind] in H. injection H as <-.
    cbn [map round0]. rewrite Qtrunc_inject. f_equal. apply IH. reflexivity.
Qed.

Lemma repeat_of_int (n : nat) : repeat (Fin 0) n = map of_int (repeat 0 n).
Proof. induction n as [|n IH]; [reflexivity|]. simpl. now rewrite <- IH. Qed.

(** Integer-valued deltas: the cast of their running sum plus [a] is the
    integer running sum plus [a]. *)
Lemma cumulative_of_int (a : Z) (zs : list Z) :
  forall (c : Q) (c' : Z), (c == inject_Z c')%Q ->
    series_astype_int
      (map (fun v => fadd v (of_int a)) (cumsum_from (Fin c) (map of_int zs)))
    = Some (map (fun v => v + a) (int_cumsum_from c' zs)).
Proof.
  unfold series_astype_int.
  induction zs as [|z tl IH]; intros c c' Hc; [reflexivity|].
  cbn [map cumsum_from isnan of_int fadd mapM astype_int bind int_cumsum_from].
  rewrite (Qtrunc_comp _ (inject_Z (c' + z + a)))
    by (rewrite Hc, !inject_Z_plus; ring).
  rewrite Qtrunc_inject.
  rewrite (IH (c + inject_Z z)%Q (c' + z)) by (rewrite Hc, inject_Z_plus; ring).
  reflexivity.
Qed.

Lemma length_int_cumsum_from (acc : Z) (l : list Z) :
  List.length (int_cumsum_from acc l) = List.length l.
Proof. revert acc. induction l as [|x tl IH]; intro a; simpl; auto. Qed.

Lemma length_mapM {A B : Type} (f : A -> option B) (l : list A) (r : list B) :
  mapM f l = Some r -> List.length r = List.length l.
Proof.
  revert r. induction l as [|a tl IH]; intros r H.
  - injection H as <-. reflexivity.
  - cbn [mapM] in H. destruct (f a); [|discriminate H]. cbn [bind] in H.
    destruct (mapM f tl) as [bs|]; [|discriminate H]. cbn [bind] in H.
    injection H as <-. simpl. f_equal. now apply IH.
Qed.

Lemma mapM_Forall2 {A B : Type} (f : A -> option B) (l : list A) (r : list B) :
  mapM f l = Some r -> Forall2 (fun a b => f a = Some b) l r.
Proof.
  revert r. induction l as [|a tl IH]; intros r H.
  - injection H as <-. constructor.
  - cbn [mapM] in H. destruct (f a) as [b|] eqn:E; [|discriminate H].
    cbn [bind] in H.
    destruct (mapM f tl) as [bs|]; [|discriminate H]. cbn [bind] in H.
    injection H as <-. constructor; [exact E | now apply IH].
Qed.

Lemma length_get_pred_daily (model : float64 -> params -> float64)
    (self : CasesModel.config) (n_train : nat) (p : params) :
  List.length (CasesModel.get_pred_daily model self n_train p)
  = CasesModel.n_pred self.
Proof.
  unfold CasesModel.get_pred_daily.
  rewrite arange_cons by lia. cbn [map np_diff].
  rewrite length_diff_from, !length_map. unfold arange.
  rewrite length_map, length_seq. lia.
Qed.

Lemma int_diff_cumsum_add (a : Z) (zs : list Z) :
  forall c, int_diff_from (c + a) (map (fun v => v + a) (int_cumsum_from c zs)) = zs.
Proof.
  induction zs as [|z tl IH]; intro c; [reflexivity|].
  cbn [int_cumsum_from map int_diff_from]. rewrite IH. f_equal. lia.
Qed.

(** What [run] stores for an area, when it stores anything. *)
Lemma run_area_forecast
    (model : float64 -> params -> float64)
    (lowess : list float64 -> list float64 -> float64 -> list float64)
    (least_squares :
       (params -> list float64) -> params -> params * params -> option params)
    (self : CasesModel.config) (s : list Z) (r : CasesModel.area_result) :
  CasesModel.run_area model lowess least_squares self s = Some r ->
  exists last_actual,
    loc s (CasesModel.last_date self) = Some last_actual /\
    CasesModel.smooth lowess self s = Some (CasesModel.r_smoothed r) /\
    List.length (CasesModel.r_pred_daily r) = CasesModel.n_pred self /\
    CasesModel.r_pred_cumulative r
    = map (fun v => v + last_actual) (int_cumsum (CasesModel.r_pred_daily r)).
Proof.
  unfold CasesModel.run_area.
  destruct (CasesModel.smooth lowess self s) as [sm|]; [|discriminate].
  cbn [bind].
  set (train := CasesModel.get_train self (values sm)).
  assert (Hfit : forall fit,
    (if (List.length train <? MIN_OBS)%nat
     then Some (nan_params, nan_params, nan_params, nan_params,
                repeat (Fin 0) (CasesModel.n_pred self))
     else
       bp <- CasesModel.get_bounds_p0 self train ;;
       (let '(bounds, p0) := bp in
        p <- CasesModel.train_model model least_squares train bounds p0 ;;
        Some (bounds, p0, p,
              map round0 (CasesModel.get_pred_daily model self (List.length train) p))))
    = Some fit ->
    List.length (snd fit) = CasesModel.n_pred self /\
    forall zs, series_astype_int (snd fit) = Some zs -> snd fit = map of_int zs).
  { intros fit. destruct (List.length train <? MIN_OBS)%nat.
    - intro H. injection H as <-. cbn [snd]. split; [apply repeat_length|].
      intros zs Hz. rewrite astype_zeros in Hz. injection Hz as <-.
      apply repeat_of_int.
    - destruct (CasesModel.get_bounds_p0 self train) as [[bounds p0]|];
        [|discriminate].
      cbn [bind].
      destruct (CasesModel.train_model model least_squares train bounds p0)
        as [p|]; [|discriminate].
      cbn [bind]. intro H. injection H as <-. cbn [snd]. split.
      + rewrite length_map. apply length_get_pred_daily.
      + apply astype_round_of_int. }
  match goal with
  | |- (fit <- ?F ;; _) = _ -> _ => destruct F as [fit|] eqn:Efit; [|discriminate]
  end.
  specialize (Hfit fit eq_refl). clear Efit.
  destruct fit as [[[bounds p0] p] pred_daily].
  cbn [snd] in Hfit. destruct Hfit as [Hlen Hint].
  cbn [bind]. unfold CasesModel.get_pred_cumulative.
  destruct (loc s (CasesModel.last_date self)) as [la|]; [|discriminate].
  cbn [bind].
  destruct (series_astype_int pred_daily) as [daily_int|] eqn:Ed; [|discriminate].
  cbn [bind]. rewrite (Hint daily_int eq_refl).
  unfold cumsum. rewrite (cumulative_of_int la daily_int 0%Q 0 (Qeq_refl _)).
  cbn [bind]. intro H. injection H as <-.
  cbn [CasesModel.r_smoothed CasesModel.r_pred_daily CasesModel.r_pred_cumulative].
  exists la. repeat split.
  rewrite <- Hlen. apply (length_mapM _ _ _ Ed).
Qed.

(** X10: whenever [run] stores a result for an area, [last_date] is a
    date of the column (otherwise [s.loc[self.last_date]] raises), the
    smoothed series ends at [last_date], and the daily and the cumulative
    forecast both have exactly [n_pred] rows, whatever the model, the
    smoother and the optimizer return. *)
Theorem X10_run_area_forecast_shape
    (model : float64 -> params -> float64)
    (lowess : list float64 -> list float64 -> float64 -> list float64)
    (least_squares :
       (params -> list float64) -> params -> params * params -> option params)
    (self : CasesModel.config) (s : list Z) (r : CasesModel.area_result) :
  CasesModel.run_area model lowess least_squares self s = Some r ->
  (exists last_actual, loc s (CasesModel.last_date self) = Some last_actual) /\
  first_date (CasesModel.r_smoothed r)
    + Z.of_nat (List.length (values (CasesModel.r_smoothed r)))
    = CasesModel.last_date self + 1 /\
  List.length (CasesModel.r_pred_daily r) = CasesModel.n_pred self /\
  List.length (CasesModel.r_pred_cumulative r) = CasesModel.n_pred self.
Proof.
  intro H. destruct (run_area_forecast _ _ _ _ _ _ H) as (la & Hl & Hs & Hn & Hc).
  split; [now exists la|]. split; [|split; [exact Hn|]].
  - destruct (smooth_length _ _ _ _ Hs) as [_ H1]. rewrite H1.
    apply (length_upto_loc _ _ _ Hl).
  - rewrite Hc, length_map. unfold int_cumsum.
    rewrite length_int_cumsum_from. exact Hn.
Qed.

Lemma X10_run_area_forecast_shape_witness :
  exists r,
    CasesModel.run_area model_linear lowess_half least_squares_guess
      sample_config sample_cases = Some r /\
    (exists last_actual,
       loc sample_cases (CasesModel.last_date sample_config) = Some last_actual) /\
    first_date (CasesModel.r_smoothed r)
      + Z.of_nat (List.length (values (CasesModel.r_smoothed r)))
      = CasesModel.last_date sample_config + 1 /\
    List.length (CasesModel.r_pred_daily r) = CasesModel.n_pred sample_config /\
    List.length (CasesModel.r_pred_cumulative r) = CasesModel.n_pred sample_config.
Proof.
  eexists. split.
  - vm_compute. reflexivity.
  - apply (X10_run_area_forecast_shape model_linear lowess_half least_squares_guess
             sample_config sample_cases).
    vm_compute. reflexivity.
Defined.

(** X11: in every result [run] stores for an area, the cumulative
    forecast is the last actual value plus the running sum of the stored
    daily forecast; taking differences of the cumulative forecast,
    starting from the last actual value, gives back the daily forecast. *)
Theorem X11_run_area_cumulative
    (model : float64 -> params -> float64)
    (lowess : list float64 -> list float64 -> float64 -> list float64)
    (least_squares :
       (params -> list float64) -> params -> params * params -> option params)
    (self : CasesModel.config) (s : list Z) (r : CasesModel.area_result)
    (last_actual : Z) :
  CasesModel.run_area model lowess least_squares self s = Some r ->
  loc s (CasesModel.last_date self) = Some last_actual ->
  CasesModel.r_pred_cumulative r
    = map (fun v => v + last_actual) (int_cumsum (CasesModel.r_pred_daily r)) /\
  int_diff_from last_actual (CasesModel.r_pred_cumulative r)
    = CasesModel.r_pred_daily r.
Proof.
  intros H Hl. destruct (run_area_forecast _ _ _ _ _ _ H) as (la & Hl' & _ & _ & Hc).
  rewrite Hl in Hl'. injection Hl' as <-. split; [exact Hc|].
  rewrite Hc. unfold int_cumsum.
  apply (int_diff_cumsum_add last_actual (CasesModel.r_pred_daily r) 0).
Qed.

Lemma X11_run_area_cumulative_witness :
  exists r,
    CasesModel.run_area model_slope lowess_half least_squares_guess
      sample_config sample_cases = Some r /\
    CasesModel.r_pred_cumulative r
      = map (fun v => v + 32) (int_cumsum (CasesModel.r_pred_daily r)) /\
    int_diff_from 32 (CasesModel.r_pred_cumulative r) = CasesModel.r_pred_daily r.
Proof.
  eexists. split.
  - vm_compute. reflexivity.
  - apply (X11_run_area_cumulative model_slope lowess_half least_squares_guess
             sample_config sample_cases).
    + vm_compute. reflexivity.
    + reflexivity.
Defined.

(** X12: with a training window [n_train] between 1 and MIN_OBS - 1 no
    model is ever fitted: every area for which [run] stores a result gets
    NaN parameters, [n_pred] zero daily deltas and a cumulative forecast
    flat at the last actual value, whatever the model, the smoother and
    the optimizer are. *)
Theorem X12_run_area_small_n_train
    (model : float64 -> params -> float64)
    (lowess : list float64 -> list float64 -> float64 -> list float64)
    (least_squares :
       (params -> list float64) -> params -> params * params -> option params)
    (self : CasesModel.config) (s : list Z) (r : CasesModel.area_result) :
  (0 < CasesModel.n_train self < MIN_OBS)%nat ->
  CasesModel.run_area model lowess least_squares self s = Some r ->
  exists last_actual,
    loc s (CasesModel.last_date self) = Some last_actual /\
    CasesModel.r_params r = nan_params /\
    CasesModel.r_pred_daily r = repeat 0 (CasesModel.n_pred self) /\
    CasesModel.r_pred_cumulative r = repeat last_actual (CasesModel.n_pred self).
Proof.
  intros Hn. unfold CasesModel.run_area.
  destruct (CasesModel.smooth lowess self s) as [sm|]; [|discriminate].
  cbn [bind].
  assert (Htrain :
    (List.length (CasesModel.get_train self (values sm)) <? MIN_OBS)%nat = true).
  { apply Nat.ltb_lt. unfold CasesModel.get_train, iloc_last.
    destruct (CasesModel.n_train self) as [|n]; [lia|].
    rewrite length_skipn. lia. }
  rewrite Htrain. cbn [bind]. unfold CasesModel.get_pred_cumulative.
  destruct (loc s (CasesModel.last_date self)) as [la|]; [|discriminate].
  cbn [bind]. rewrite astype_zeros. cbn [bind]. unfold cumsum.
  rewrite (flat_forecast la _ 0%Q (Qeq_refl 0)). cbn [bind].
  intro H. injection H as <-. exists la. repeat split.
Qed.

Lemma X12_run_area_small_n_train_witness :
  exists r,
    CasesModel.run_area (general_logistic_shift np_exp_sample np_power_sample)
      lowess_half least_squares_guess small_train_config sample_cases = Some r /\
    exists last_actual,
      loc sample_cases (CasesModel.last_date small_train_config) = Some last_actual /\
      CasesModel.r_params r = nan_params /\
      CasesModel.r_pred_daily r = repeat 0 (CasesModel.n_pred small_train_config) /\
      CasesModel.r_pred_cumulative r
        = repeat last_actual (CasesModel.n_pred small_train_config).
Proof.
  eexists. split.
  - vm_compute. reflexivity.
  - apply (X12_run_area_small_n_train
             (general_logistic_shift np_exp_sample np_power_sample)
             lowess_half least_squares_guess small_train_config sample_cases).
    + vm_compute. lia.
    + vm_compute. reflexivity.
Defined.

(* ================================================================== *)
(** ** The forecast tables of [CasesModel.run]                         *)
(* ================================================================== *)

Lemma dict_set_fresh {V : Type} (d : dict V) (k : string) (v : V) :
  ~ In k (map fst d) -> dict_set d k v = d ++ [(k, v)].
Proof.
  induction d as [|[k' v'] tl IH]; intro H; [reflexivity|].
  cbn [dict_set]. destruct (String.eqb_spec k' k) as [->|Hne].
  - exfalso. apply H. now left.
  - cbn [app]. f_equal. apply IH. intro Hin. apply H. now right.
Qed.

Section CasesModelRun.

Variable model : float64 -> params -> float64.
Variable lowess : list float64 -> list float64 -> float64 -> list float64.
Variable least_squares :
  (params -> list float64) -> params -> params * params -> option params.
Variable self : CasesModel.config.
Variable data : dict (DataFrame Z).

Import CasesModel.

(** The loop of [run] over the areas of a table with distinct names: one
    result per area, in the order of the table. *)
Lemma run_areas_spec (l : DataFrame Z) :
  forall d0 d,
    foldM (fun d c =>
             r <- run_area model lowess least_squares self (snd c) ;;
             Some (dict_set d (fst c) r)) l d0 = Some d ->
    NoDup (map fst d0 ++ map fst l) ->
    exists rs,
      d = d0 ++ rs /\
      Forall2 (fun c e =>
                 fst e = fst c /\
                 run_area model lowess least_squares self (snd c) = Some (snd e))
              l rs.
Proof.
  induction l as [|[name col] tl IH]; intros d0 d H Hnd.
  - injection H as <-. exists []. split; [now rewrite app_nil_r | constructor].
  - cbn [foldM fst snd] in H.
    destruct (run_area model lowess least_squares self col) as [r|] eqn:Er;
      [|discriminate H].
    cbn [bind] in H. cbn [map fst] in Hnd.
    assert (Hfresh : ~ In name (map fst d0)).
    { intro Hin. apply NoDup_remove_2 in Hnd. apply Hnd.
      apply in_or_app. now left. }
    rewrite (dict_set_fresh _ _ _ Hfresh) in H.
    destruct (IH _ _ H) as (rs & -> & Hrs).
    { rewrite map_app. cbn [map fst]. rewrite <- app_assoc. exact Hnd. }
    exists ((name, r) :: rs). split; [now rewrite <- app_assoc|].
    constructor; [split; [reflexivity | exact Er] | exact Hrs].
Qed.

Lemma convert_to_df_pred (a a1 : attributes) (gk : string)
    (areas : dict area_result) :
  convert_to_df self a gk areas = Some a1 ->
  a_pred_daily a1
  = dict_set (a_pred_daily a) gk
      (mk_frame (last_date self + 1)
                (map (fun c => (fst c, r_pred_daily (snd c))) areas)) /\
  a_pred_cumulative a1
  = dict_set (a_pred_cumulative a) gk
      (mk_frame (last_date self + 1)
                (map (fun c => (fst c, r_pred_cumulative (snd c))) areas)).
Proof.
  unfold convert_to_df.
  destruct (smoothed_frame areas); [|discriminate]. cbn [bind].
  destruct (List.length areas =? 0)%nat; [discriminate|].
  intro H. injection H as <-. split; reflexivity.
Qed.

Lemma run_group_pred (a a1 : attributes) (group : string) :
  run_group model lowess least_squares self data a group = Some a1 ->
  exists table areas,
    dict_get data (group ++ "_cases") = Some table /\
    foldM (fun d c =>
             r <- run_area model lowess least_squares self (snd c) ;;
             Some (dict_set d (fst c) r)) table [] = Some areas /\
    a_pred_daily a1
    = dict_set (a_pred_daily a) (group ++ "_cases")
        (mk_frame (last_date self + 1)
                  (map (fun c => (fst c, r_pred_daily (snd c))) areas)) /\
    a_pred_cumulative a1
    = dict_set (a_pred_cumulative a) (group ++ "_cases")
        (mk_frame (last_date self + 1)
                  (map (fun c => (fst c, r_pred_cumulative (snd c))) areas)).
Proof.
  unfold run_group.
  destruct (dict_get data (group ++ "_cases")) as [table|]; [|discriminate].
  cbn [bind].
  match goal with
  | |- (areas <- ?M ;; _) = _ -> _ => destruct M as [areas|] eqn:Ea; [|discriminate]
  end.
  cbn [bind]. intro H. destruct (convert_to_df_pred _ _ _ _ H) as [H1 H2].
  exists table, areas. repeat split; assumption.
Qed.

Lemma combine_loop_pred (L : list (string * Frame)) :
  forall a a',
    foldM (combine_group self data) L a = Some a' ->
    a_pred_daily a' = a_pred_daily a /\
    a_pred_cumulative a' = a_pred_cumulative a.
Proof.
  induction L as [|[gk df] tl IH]; intros a a' H.
  - injection H as <-. split; reflexivity.
  - cbn [foldM] in H.
    destruct (combine_group self data a (gk, df)) as [a1|] eqn:E1; [|discriminate H].
    cbn [bind] in H. destruct (IH _ _ H) as [H1 H2]. rewrite H1, H2.
    unfold combine_group in E1.
    repeat match type of E1 with
           | (x <- ?M ;; _) = _ => destruct M; [cbn [bind] in E1 | discriminate E1]
           end.
    injection E1 as <-. split; reflexivity.
Qed.

(** After [run], the forecast tables of a group hold the results of the
    areas of the data table, in its order. *)
Lemma run_forecast_tables (a a' : attributes) (group : string)
    (table : DataFrame Z) :
  run model lowess least_squares self data a = Some a' ->
  In group GROUPS ->
  dict_get data (group ++ "_cases") = Some table ->
  NoDup (map fst table) ->
  exists areas,
    Forall2 (fun c e =>
               fst e = fst c /\
               run_area model lowess least_squares self (snd c) = Some (snd e))
            table areas /\
    dict_get (a_pred_daily a') (group ++ "_cases")
    = Some (mk_frame (last_date self + 1)
                     (map (fun c => (fst c, r_pred_daily (snd c))) areas)) /\
    dict_get (a_pred_cumulative a') (group ++ "_cases")
    = Some (mk_frame (last_date self + 1)
                     (map (fun c => (fst c, r_pred_cumulative (snd c))) areas)).
Proof.
  intros H Hg Ht Hnd. unfold run in H. unfold GROUPS in *. cbn [foldM] in H.
  destruct (run_group model lowess least_squares self data (init_dictionaries a) "world")
    as [a1|] eqn:E1; [|discriminate H].
  cbn [bind] in H.
  destruct (run_group model lowess least_squares self data a1 "usa")
    as [a2|] eqn:E2; [|discriminate H].
  cbn [bind] in H. unfold combine_actual_with_pred in H.
  destruct (combine_loop_pred _ _ _ H) as [Hd Hc]. rewrite Hd, Hc.
  destruct (run_group_pred _ _ _ E1) as (t1 & ar1 & Ht1 & Hf1 & Hd1 & Hc1).
  destruct (run_group_pred _ _ _ E2) as (t2 & ar2 & Ht2 & Hf2 & Hd2 & Hc2).
  rewrite Hd2, Hc2, Hd1, Hc1.
  change ("world" ++ "_cases")%string with "world_cases"%string in *.
  change ("usa" ++ "_cases")%string with "usa_cases"%string in *.
  destruct Hg as [<-|[<-|[]]].
  - change ("world" ++ "_cases")%string with "world_cases"%string in *.
    rewrite Ht1 in Ht. injection Ht as ->.
    destruct (run_areas_spec _ _ _ Hf1 Hnd) as (rs & -> & Hrs).
    exists rs. split; [exact Hrs|].
    rewrite !dict_get_set_other by discriminate.
    rewrite !dict_get_set_same. split; reflexivity.
  - change ("usa" ++ "_cases")%string with "usa_cases"%string in *.
    rewrite Ht2 in Ht. injection Ht as ->.
    destruct (run_areas_spec _ _ _ Hf2 Hnd) as (rs & -> & Hrs).
    exists rs. split; [exact Hrs|].
    rewrite !dict_get_set_same. split; reflexivity.
Qed.

End CasesModelRun.

(** X13: after a successful [CasesModel.run], for each of the two groups
    whose cases table has distinct area names, the tables [pred_daily] and
    [pred_cumulative] start on the day after [last_date], have one column
    per area of the cases table, in the same order, and every column has
    exactly [n_pred] rows. *)
Theorem X13_run_forecast_tables
    (model : float64 -> params -> float64)
    (lowess : list float64 -> list float64 -> float64 -> list float64)
    (least_squares :
       (params -> list float64) -> params -> params * params -> option params)
    (self : CasesModel.config) (data : dict (DataFrame Z))
    (a a' : CasesModel.attributes) (group : string) (table : DataFrame Z) :
  CasesModel.run model lowess least_squares self data a = Some a' ->
  In group GROUPS ->
  dict_get data (group ++ "_cases") = Some table ->
  NoDup (map fst table) ->
  exists daily cumulative,
    dict_get (CasesModel.a_pred_daily a') (group ++ "_cases") = Some daily /\
    dict_get (CasesModel.a_pred_cumulative a') (group ++ "_cases")
      = Some cumulative /\
    frame_start daily = CasesModel.last_date self + 1 /\
    frame_start cumulative = CasesModel.last_date self + 1 /\
    map fst (frame_cols daily) = map fst table /\
    map fst (frame_cols cumulative) = map fst table /\
    Forall (fun c => List.length (snd c) = CasesModel.n_pred self)
           (frame_cols daily) /\
    Forall (fun c => List.length (snd c) = CasesModel.n_pred self)
           (frame_cols cumulative).
Proof.
  intros H Hg Ht Hnd.
  destruct (run_forecast_tables _ _ _ _ _ _ _ _ _ H Hg Ht Hnd)
    as (areas & Hareas & Hd & Hc).
  do 2 eexists. split; [exact Hd|]. split; [exact Hc|]. cbn [frame_start frame_cols].
  split; [reflexivity|]. split; [reflexivity|].
  rewrite !map_map. cbn [fst].
  assert (Hk : map (fun c : string * CasesModel.area_result => fst c) areas
               = map fst table).
  { clear - Hareas. induction Hareas as [|c e l rs [He _] _ IH]; [reflexivity|].
    cbn [map]. now rewrite He, IH. }
  split; [exact Hk|]. split; [exact Hk|].
  rewrite !Forall_map. cbn [snd].
  assert (Hall : Forall (fun e : string * CasesModel.area_result =>
                           List.length (CasesModel.r_pred_daily (snd e))
                             = CasesModel.n_pred self /\
                           List.length (CasesModel.r_pred_cumulative (snd e))
                             = CasesModel.n_pred self) areas).
  { clear - Hareas. induction Hareas as [|c e l rs [_ He] _ IH]; constructor.
    - destruct (run_area_forecast _ _ _ _ _ _ He) as (la & _ & _ & Hn & Hcum).
      split; [exact Hn|]. rewrite Hcum, length_map. unfold int_cumsum.
      rewrite length_int_cumsum_from. exact Hn.
    - exact IH. }
  split; (eapply Forall_impl; [|exact Hall]); intros e [H1 H2]; assumption.
Qed.

Lemma X13_run_forecast_tables_witness :
  exists a',
    CasesModel.run model_linear lowess_half least_squares_guess sample_config
      sample_raw fresh_cases = Some a' /\
    exists daily cumulative,
      dict_get (CasesModel.a_pred_daily a') ("world" ++ "_cases") = Some daily /\
      dict_get (CasesModel.a_pred_cumulative a') ("world" ++ "_cases")
        = Some cumulative /\
      frame_start daily = CasesModel.last_date sample_config + 1 /\
      frame_start cumulative = CasesModel.last_date sample_config + 1 /\
      map fst (frame_cols daily) = ["Aland"; "Borduria"]%string /\
      map fst (frame_cols cumulative) = ["Aland"; "Borduria"]%string /\
      Forall (fun c => List.length (snd c) = CasesModel.n_pred sample_config)
             (frame_cols daily) /\
      Forall (fun c => List.length (snd c) = CasesModel.n_pred sample_config)
             (frame_cols cumulative).
Proof.
  eexists. split.
  - vm_compute. reflexivity.
  - apply (X13_run_forecast_tables model_linear lowess_half least_squares_guess
             sample_config sample_raw fresh_cases _ "world"%string
             [("Aland", sample_cases);
              ("Borduria", [0; 0; 0; 0; 0; 0; 0; 0; 0; 0; 0; 0; 1; 2; 4; 7; 9])]%string).
    + vm_compute. reflexivity.
    + now left.
    + reflexivity.
    + apply NoDup_cons; [simpl; intros [H|[]]; discriminate H|].
      apply NoDup_cons; [intros []|]. apply NoDup_nil.
Defined.


(* ================================================================== *)
(** ** The logistic curves                                             *)
(* ================================================================== *)

Lemma Qeq_bool_comp (a b : Q) : (a == b)%Q -> Qeq_bool a 0 = Qeq_bool b 0.
Proof.
  intro H. destruct (Qeq_bool b 0) eqn:E.
  - apply Qeq_bool_iff. apply Qeq_bool_iff in E. now rewrite H.
  - apply Qeq_bool_false. apply Qeq_bool_false in E. now rewrite H.
Qed.

Lemma Qltb_comp (a b : Q) : (a == b)%Q -> Qltb a 0 = Qltb b 0.
Proof.
  intro H. destruct (Qltb b 0) eqn:E.
  - apply Qltb_true. apply Qltb_true in E. now rewrite H.
  - apply Qltb_false. apply Qltb_false in E. now rewrite H.
Qed.

(** X14: with the shift [s] equal to 0 the shifted curve
    [general_logistic_shift] has the values of [general_logistic] with the
    same L, x0, k, v, at every x and for every parameter value, the
    special values included. *)
Theorem X14_logistic_zero_shift
    (np_exp : float64 -> float64) (np_power : float64 -> float64 -> float64)
    (x : float64) (p : params) :
  p_s p = Fin 0 ->
  feq (general_logistic_shift np_exp np_power x p)
      (general_logistic np_exp np_power x (p_L p) (p_x0 p) (p_k p) (p_v p)).
Proof.
  intro Hs. unfold general_logistic_shift, general_logistic, logistic_denominator.
  rewrite Hs.
  generalize (np_power (fadd (Fin 1) (np_exp (fmul (fneg (p_k p)) (fsub x (p_x0 p)))))
                       (fdiv (Fin 1) (p_v p))).
  intro D. destruct (p_L p) as [a| | |], D as [d| | |];
    cbn [fsub fneg fadd fdiv feq]; auto; try apply Qeq_refl.
  - assert (E : (a + - 0 == a)%Q) by ring.
    rewrite (Qeq_bool_comp _ _ E).
    destruct (Qeq_bool d 0) eqn:Ed.
    + destruct (Qeq_bool a 0); [exact I|].
      unfold inf_signed. rewrite (Qltb_comp _ _ E).
      destruct (Qltb a 0); exact I.
    + cbn [fadd feq]. apply Qeq_bool_false in Ed. field. exact Ed.
  - destruct (Qltb d 0); exact I.
  - destruct (Qltb d 0); exact I.
Qed.

Lemma X14_logistic_zero_shift_witness :
  feq (general_logistic_shift np_exp_sample np_power_sample (Fin 16)
         (mk_params (Fin 200) (Fin 16) (Fin (1 # 2)) (Fin 1) (Fin 0)))
      (general_logistic np_exp_sample np_power_sample (Fin 16)
         (Fin 200) (Fin 16) (Fin (1 # 2)) (Fin 1)).
Proof.
  apply (X14_logistic_zero_shift np_exp_sample np_power_sample (Fin 16)
           (mk_params (Fin 200) (Fin 16) (Fin (1 # 2)) (Fin 1) (Fin 0))).
  reflexivity.
Defined.

(** X15: where the divisor [(1 + np.exp(-k * (x - x0))) ** (1 / v)] is a
    number that is at least 1, the shifted curve is a number between the
    shift [s] and the ceiling [L]: between s and L when s <= L, between L
    and s when L <= s. *)
Theorem X15_logistic_range
    (np_exp : float64 -> float64) (np_power : float64 -> float64 -> float64)
    (x : float64) (p : params) (L sft d : Q) :
  p_L p = Fin L -> p_s p = Fin sft ->
  logistic_denominator np_exp np_power x p = Fin d ->
  (1 <= d)%Q ->
  exists y,
    general_logistic_shift np_exp np_power x p = Fin y /\
    ((sft <= L -> sft <= y <= L) /\ (L <= sft -> L <= y <= sft))%Q.
Proof.
  intros HL Hs Hd H1. unfold general_logistic_shift.
  rewrite HL, Hs, Hd. cbn [fsub fneg fadd fdiv].
  assert (E0 : Qeq_bool d 0 = false) by (apply Qeq_bool_false; lra).
  rewrite E0. cbn [fadd]. eexists. split; [reflexivity|].
  destruct (Qinv_between d d H1 (Qle_refl d)) as (Hi0 & _ & Hi1).
  unfold Qdiv. set (i := (/ d)%Q) in *. split; intro H; split; nra.
Qed.

Lemma X15_logistic_range_witness :
  exists y,
    general_logistic_shift np_exp_sample np_power_sample (Fin 16)
      (mk_params (Fin 200) (Fin 16) (Fin (1 # 2)) (Fin 1) (Fin 50)) = Fin y /\
    ((50 <= 200 -> 50 <= y <= 200) /\ (200 <= 50 -> 200 <= y <= 50))%Q.
Proof.
  apply (X15_logistic_range np_exp_sample np_power_sample (Fin 16)
           (mk_params (Fin 200) (Fin 16) (Fin (1 # 2)) (Fin 1) (Fin 50))
           200 50 2).
  - reflexivity.
  - reflexivity.
  - vm_compute. reflexivity.
  - unfold Qle. simpl. lia.
Defined.

(* ================================================================== *)
(** ** The case fatality ratio                                         *)
(* ================================================================== *)

Lemma loc_Some_iff {A : Type} (s : list A) (d : date) :
  (exists v, loc s d = Some v) <-> 0 <= d < Z.of_nat (List.length s).
Proof.
  unfold loc. destruct (Z.ltb_spec d 0) as [Hd|Hd].
  - split; [intros [v H]; discriminate | lia].
  - split.
    + intros [v H]. assert (Hlt : (Z.to_nat d < List.length s)%nat)
        by (apply nth_error_Some; congruence). lia.
    + intros [_ H]. destruct (nth_error s (Z.to_nat d)) as [v|] eqn:E.
      * now exists v.
      * apply nth_error_None in E. lia.
Qed.

Lemma loc_nth (s : list Z) (d : date) (v : Z) :
  loc s d = Some v ->
  0 <= d /\ (Z.to_nat d < List.length s)%nat /\ nth (Z.to_nat d) s 0 = v.
Proof.
  unfold loc. destruct (Z.ltb_spec d 0) as [Hd|Hd]; [discriminate|].
  intro H. split; [exact Hd|]. split.
  - apply nth_error_Some. congruence.
  - apply nth_error_nth. exact H.
Qed.

(** X16: [DeathsModel.calculate_cfr] returns a ratio for an area exactly
    when the four dates it reads are dates of the data: [last_date] and
    [last_date - period] in the deaths column, [last_date - lag] and
    [last_date - lag - period] in the cases column; otherwise [loc]
    raises KeyError. *)
Theorem X16_cfr_defined_iff (self : DeathsModel.config) (deaths cases : list Z) :
  let last := DeathsModel.last_date self in
  let lag := DeathsModel.lag self in
  let period := DeathsModel.period self in
  (exists r, DeathsModel.cfr_area self deaths cases = Some r) <->
  0 <= last < Z.of_nat (List.length deaths) /\
  0 <= last - period < Z.of_nat (List.length deaths) /\
  0 <= last - lag < Z.of_nat (List.length cases) /\
  0 <= last - lag - period < Z.of_nat (List.length cases).
Proof.
  cbv zeta. unfold DeathsModel.cfr_area.
  pose proof (loc_Some_iff deaths (DeathsModel.last_date self)) as H1.
  pose proof (loc_Some_iff deaths (DeathsModel.last_date self - DeathsModel.period self)) as H2.
  pose proof (loc_Some_iff cases (DeathsModel.last_date self - DeathsModel.lag self)) as H3.
  pose proof (loc_Some_iff cases
                (DeathsModel.last_date self - DeathsModel.lag self
                 - DeathsModel.period self)) as H4.
  destruct (loc deaths (DeathsModel.last_date self)) as [d1|].
  2:{ split; [intros [r H]; discriminate|]. intros H.
      assert (exists v : Z, @None Z = Some v) as [v Hv] by (apply H1; lia).
      discriminate. }
  destruct (loc deaths (DeathsModel.last_date self - DeathsModel.period self)) as [d0|].
  2:{ split; [intros [r H]; discriminate|]. intros H.
      assert (exists v : Z, @None Z = Some v) as [v Hv] by (apply H2; lia).
      discriminate. }
  destruct (loc cases (DeathsModel.last_date self - DeathsModel.lag self)) as [c1|].
  2:{ split; [intros [r H]; discriminate|]. intros H.
      assert (exists v : Z, @None Z = Some v) as [v Hv] by (apply H3; lia).
      discriminate. }
  destruct (loc cases (DeathsModel.last_date self - DeathsModel.lag self
                       - DeathsModel.period self)) as [c0|].
  2:{ split; [intros [r H]; discriminate|]. intros H.
      assert (exists v : Z, @None Z = Some v) as [v Hv] by (apply H4; lia).
      discriminate. }
  cbn [bind]. split; [|intros _; eexists; reflexivity].
  intros _.
  assert (E1 := proj1 H1 (ex_intro _ d1 eq_refl)).
  assert (E2 := proj1 H2 (ex_intro _ d0 eq_refl)).
  assert (E3 := proj1 H3 (ex_intro _ c1 eq_refl)).
  assert (E4 := proj1 H4 (ex_intro _ c0 eq_refl)).
  lia.
Qed.

Lemma StronglySorted_nth_le (r : list Z) :
  StronglySorted Z.le r ->
  forall i j, (i <= j < List.length r)%nat -> nth i r 0 <= nth j r 0.
Proof.
  intros Hs i j Hij. destruct (Nat.eq_dec i j) as [->|Hne]; [lia|].
  apply StronglySorted_nth; [exact Hs | lia].
Qed.

(** The ratio computed from two non-negative totals. *)
Lemma cfr_of_totals_nonneg (d c : Z) :
  0 <= d -> 0 <= c ->
  DeathsModel.cfr_of_totals d c =
    if c =? 0 then (if d =? 0 then Fin (1 # 100) else PInf)
    else Fin (inject_Z d / inject_Z c).
Proof.
  intros Hd Hc. unfold DeathsModel.cfr_of_totals, fdiv, of_int.
  destruct (Z.eqb_spec c 0) as [->|Hc0].
  - change (Qeq_bool (inject_Z 0) 0) with true. cbv iota.
    destruct (Z.eqb_spec d 0) as [->|Hd0].
    + reflexivity.
    + assert (E : Qeq_bool (inject_Z d) 0 = false).
      { apply Qeq_bool_false. unfold Qeq. simpl. lia. }
      rewrite E. unfold inf_signed.
      assert (E2 : Qltb (inject_Z d) 0 = false).
      { apply Qltb_false. change 0%Q with (inject_Z 0). rewrite <- Zle_Qle. lia. }
      rewrite E2. reflexivity.
  - assert (E : Qeq_bool (inject_Z c) 0 = false).
    { apply Qeq_bool_false. unfold Qeq. simpl. lia. }
    rewrite E. reflexivity.
Qed.

(** X17: on non-decreasing deaths and cases columns (what the repair
    leaves) and with a window [period >= 0], the ratio of an area is never
    missing and never negative: it is +inf or a non-negative number. *)
Theorem X17_cfr_nonneg (self : DeathsModel.config) (deaths cases : list Z)
    (r : float64) :
  StronglySorted Z.le deaths -> StronglySorted Z.le cases ->
  0 <= DeathsModel.period self ->
  DeathsModel.cfr_area self deaths cases = Some r ->
  r = PInf \/ exists q, r = Fin q /\ (0 <= q)%Q.
Proof.
  intros Hsd Hsc Hp. unfold DeathsModel.cfr_area.
  destruct (loc deaths (DeathsModel.last_date self)) as [d1|] eqn:E1; [|discriminate].
  destruct (loc deaths (DeathsModel.last_date self - DeathsModel.period self))
    as [d0|] eqn:E2; [|discriminate].
  destruct (loc cases (DeathsModel.last_date self - DeathsModel.lag self))
    as [c1|] eqn:E3; [|discriminate].
  destruct (loc cases (DeathsModel.last_date self - DeathsModel.lag self
                       - DeathsModel.period self)) as [c0|] eqn:E4; [|discriminate].
  cbn [bind]. intro H. injection H as <-.
  apply loc_nth in E1, E2, E3, E4.
  destruct E1 as (A1 & B1 & <-), E2 as (A2 & B2 & <-),
           E3 as (A3 & B3 & <-), E4 as (A4 & B4 & <-).
  assert (Hd : nth (Z.to_nat (DeathsModel.last_date self - DeathsModel.period self)) deaths 0
               <= nth (Z.to_nat (DeathsModel.last_date self)) deaths 0)
    by (apply StronglySorted_nth_le; [exact Hsd | lia]).
  assert (Hc : nth (Z.to_nat (DeathsModel.last_date self - DeathsModel.lag self
                              - DeathsModel.period self)) cases 0
               <= nth (Z.to_nat (DeathsModel.last_date self - DeathsModel.lag self)) cases 0)
    by (apply StronglySorted_nth_le; [exact Hsc | lia]).
  rewrite cfr_of_totals_nonneg by lia.
  match goal with |- context [?c =? 0] => destruct (Z.eqb_spec c 0) as [Ec|Ec] end.
  - match goal with |- context [?d =? 0] => destruct (d =? 0) end.
    + right. eexists. split; [reflexivity|]. discriminate.
    + now left.
  - right. eexists. split; [reflexivity|].
    apply Qle_shift_div_l.
    + change 0%Q with (inject_Z 0). rewrite <- Zlt_Qlt. lia.
    + rewrite Qmult_0_l. change 0%Q with (inject_Z 0). rewrite <- Zle_Qle. lia.
Qed.

Lemma X17_cfr_nonneg_witness :
  exists r,
    DeathsModel.cfr_area sample_deaths_config sample_deaths sample_cases = Some r /\
    (r = PInf \/ exists q, r = Fin q /\ (0 <= q)%Q).
Proof.
  eexists. split.
  - vm_compute. reflexivity.
  - apply (X17_cfr_nonneg sample_deaths_config sample_deaths sample_cases).
    + unfold sample_deaths. repeat constructor; lia.
    + unfold sample_cases. repeat constructor; lia.
    + simpl. lia.
    + vm_compute. reflexivity.
Defined.

(** X18: for every area and date, the class method with [lag = 15] and
    [period = 30] and the function [calculate_cfr] written before it raise
    on the same inputs and return the same ratio, except when both window
    totals are 0: there the method returns 0.01 and the function 0.005. *)
Theorem X18_cfr_versions (last_date : date) (deaths cases : list Z) :
  match DeathsModel.cfr_area (DeathsModel.mk_config last_date 15 30) deaths cases,
        calculate_cfr_area last_date deaths cases with
  | Some r, Some r0 =>
      r0 = r \/ (r = Fin (1 # 100) /\ r0 = Fin (5 # 1000) /\
                 loc deaths last_date = loc deaths (last_date - 30) /\
                 loc cases (last_date - 15) = loc cases (last_date - 15 - 30))
  | None, None => True
  | _, _ => False
  end.
Proof.
  unfold DeathsModel.cfr_area, calculate_cfr_area, DeathsModel.cfr_of_totals.
  cbn [DeathsModel.last_date DeathsModel.lag DeathsModel.period].
  destruct (loc deaths last_date) as [d1|]; [|exact I].
  destruct (loc deaths (last_date - 30)) as [d0|]; [|exact I].
  destruct (loc cases (last_date - 15)) as [c1|]; [|exact I].
  destruct (loc cases (last_date - 15 - 30)) as [c0|]; [|exact I].
  cbn [bind].
  destruct (isnan (fdiv (of_int (d1 - d0)) (of_int (c1 - c0)))) eqn:E; [|now left].
  right. repeat split.
  - unfold fdiv, of_int in E.
    destruct (Qeq_bool (inject_Z (c1 - c0)) 0) eqn:Ec; [|discriminate E].
    destruct (Qeq_bool (inject_Z (d1 - d0)) 0) eqn:Ed.
    + apply Qeq_bool_iff in Ed. unfold Qeq in Ed. simpl in Ed. f_equal. lia.
    + unfold inf_signed in E. destruct (Qltb _ _); discriminate E.
  - unfold fdiv, of_int in E.
    destruct (Qeq_bool (inject_Z (c1 - c0)) 0) eqn:Ec; [|discriminate E].
    apply Qeq_bool_iff in Ec. unfold Qeq in Ec. simpl in Ec. f_equal. lia.
Qed.

(** [calculate_cfr] for a group and for one of its areas. *)
Lemma insert_sorted_In (a x : string) (l : list string) :
  In x (insert_sorted a l) <-> x = a \/ In x l.
Proof.
  induction l as [|b tl IH]; cbn [insert_sorted].
  - simpl. intuition congruence.
  - destruct (String.leb a b); cbn [In]; [intuition congruence|].
    rewrite IH. intuition congruence.
Qed.

Lemma align_index_In (a b : list string) (x : string) :
  In x a \/ In x b -> In x (align_index a b).
Proof.
  intro H. unfold align_index.
  destruct (list_eq_dec string_dec a b) as [->|_]; [tauto|].
  assert (Hin : In x (nodup string_dec (a ++ b))).
  { apply nodup_In, in_or_app. exact H. }
  clear H. induction (nodup string_dec (a ++ b)) as [|y tl IH]; [contradiction|].
  cbn [fold_right]. apply insert_sorted_In.
  destruct Hin as [->|Hin]; [now left | right; now apply IH].
Qed.

Lemma dict_get_keyed {V : Type} (f : string -> V) (l : list string) (k : string) :
  In k l -> dict_get (map (fun a => (a, f a)) l) k = Some (f k).
Proof.
  induction l as [|a tl IH]; intro H; [contradiction|].
  cbn [map dict_get]. destruct (String.eqb_spec a k) as [->|Hne]; [reflexivity|].
  apply IH. destruct H as [H|H]; [contradiction | exact H].
Qed.

Lemma window_totals_get (df : DataFrame Z) (first last : date) (tot : dict Z)
    (area : string) (col : list Z) :
  DeathsModel.window_totals df first last = Some tot ->
  dict_get df area = Some col ->
  exists l f, loc col last = Some l /\ loc col first = Some f /\
              dict_get tot area = Some (l - f).
Proof.
  unfold DeathsModel.window_totals. revert tot.
  induction df as [|[name c] tl IH]; intros tot Ht Hg; [discriminate|].
  cbn [mapM fst snd] in Ht.
  destruct (loc c last) as [l|] eqn:El; [|discriminate Ht]. cbn [bind] in Ht.
  destruct (loc c first) as [f|] eqn:Ef; [|discriminate Ht]. cbn [bind] in Ht.
  match type of Ht with
  | (bs <- ?M ;; _) = _ => destruct M as [rest|] eqn:Er; [|discriminate Ht]
  end.
  cbn [bind] in Ht. injection Ht as <-. cbn [dict_get] in *.
  destruct (String.eqb name area).
  - injection Hg as <-. now exists l, f.
  - now apply IH.
Qed.

(** The ratio [calculate_cfr] gives an area that both tables of the group
    have is the ratio of the area's two columns. *)
Lemma cfr_group_area (data : dict (DataFrame Z)) (self : DeathsModel.config)
    (group : string) (deaths cases : DataFrame Z) (ratios : dict float64)
    (area : string) (d c : list Z) :
  dict_get data (group ++ "_deaths") = Some deaths ->
  dict_get data (group ++ "_cases") = Some cases ->
  DeathsModel.cfr_group data self group = Some ratios ->
  dict_get deaths area = Some d ->
  dict_get cases area = Some c ->
  exists r, DeathsModel.cfr_area self d c = Some r /\ dict_get ratios area = Some r.
Proof.
  intros Hd Hc H Had Hac. unfold DeathsModel.cfr_group in H.
  rewrite Hd, Hc in H. cbn [bind] in H.
  match type of H with
  | (x <- ?M ;; _) = _ => destruct M as [dt|] eqn:Edt; [|discriminate H]
  end.
  cbn [bind] in H.
  match type of H with
  | (x <- ?M ;; _) = _ => destruct M as [ct|] eqn:Ect; [|discriminate H]
  end.
  cbn [bind] in H. injection H as <-.
  destruct (window_totals_get _ _ _ _ _ _ Edt Had) as (dl & df & Hdl & Hdf & Hgd).
  destruct (window_totals_get _ _ _ _ _ _ Ect Hac) as (cl & cf & Hcl & Hcf & Hgc).
  exists (DeathsModel.cfr_of_totals (dl - df) (cl - cf)). split.
  - unfold DeathsModel.cfr_area. now rewrite Hdl, Hdf, Hcl, Hcf.
  - rewrite (dict_get_keyed
               (fun area =>
                  match dict_get dt area, dict_get ct area with
                  | Some d0, Some c0 => DeathsModel.cfr_of_totals d0 c0
                  | _, _ => Fin (1 # 100)
                  end)).
    + now rewrite Hgd, Hgc.
    + apply align_index_In. left. apply dict_get_Some_In in Had.
      change area with (fst (area, d)). now apply in_map.
Qed.

Lemma window_totals_none (df : DataFrame Z) (first last : date) (tot : dict Z)
    (area : string) :
  DeathsModel.window_totals df first last = Some tot ->
  dict_get df area = None -> dict_get tot area = None.
Proof.
  unfold DeathsModel.window_totals. revert tot.
  induction df as [|[name c] tl IH]; intros tot Ht Hg.
  - injection Ht as <-. reflexivity.
  - cbn [mapM fst snd] in Ht.
    destruct (loc c last) as [l|]; [|discriminate Ht]. cbn [bind] in Ht.
    destruct (loc c first) as [f|]; [|discriminate Ht]. cbn [bind] in Ht.
    match type of Ht with
    | (bs <- ?M ;; _) = _ => destruct M as [rest|] eqn:Er; [|discriminate Ht]
    end.
    cbn [bind] in Ht. injection Ht as <-. cbn [dict_get] in *.
    destruct (String.eqb name area); [discriminate Hg | now apply IH].
Qed.

(** An area that only the deaths table has gets the fallback 0.01. *)
Lemma cfr_group_deaths_only (data : dict (DataFrame Z)) (self : DeathsModel.config)
    (group : string) (deaths cases : DataFrame Z) (ratios : dict float64)
    (area : string) (d : list Z) :
  dict_get data (group ++ "_deaths") = Some deaths ->
  dict_get data (group ++ "_cases") = Some cases ->
  DeathsModel.cfr_group data self group = Some ratios ->
  dict_get deaths area = Some d ->
  dict_get cases area = None ->
  dict_get ratios area = Some (Fin (1 # 100)).
Proof.
  intros Hd Hc H Had Hac. unfold DeathsModel.cfr_group in H.
  rewrite Hd, Hc in H. cbn [bind] in H.
  match type of H with
  | (x <- ?M ;; _) = _ => destruct M as [dt|] eqn:Edt; [|discriminate H]
  end.
  cbn [bind] in H.
  match type of H with
  | (x <- ?M ;; _) = _ => destruct M as [ct|] eqn:Ect; [|discriminate H]
  end.
  cbn [bind] in H. injection H as <-.
  rewrite (dict_get_keyed
             (fun area =>
                match dict_get dt area, dict_get ct area with
                | Some d0, Some c0 => DeathsModel.cfr_of_totals d0 c0
                | _, _ => Fin (1 # 100)
                end)).
  - rewrite (window_totals_none _ _ _ _ _ Ect Hac).
    now destruct (dict_get dt area).
  - apply align_index_In. left. apply dict_get_Some_In in Had.
    change area with (fst (area, d)). now apply in_map.
Qed.

(** So does an area that only the cases table has. *)
Lemma cfr_group_cases_only (data : dict (DataFrame Z)) (self : DeathsModel.config)
    (group : string) (deaths cases : DataFrame Z) (ratios : dict float64)
    (area : string) (c : list Z) :
  dict_get data (group ++ "_deaths") = Some deaths ->
  dict_get data (group ++ "_cases") = Some cases ->
  DeathsModel.cfr_group data self group = Some ratios ->
  dict_get deaths area = None ->
  dict_get cases area = Some c ->
  dict_get ratios area = Some (Fin (1 # 100)).
Proof.
  intros Hd Hc H Had Hac. unfold DeathsModel.cfr_group in H.
  rewrite Hd, Hc in H. cbn [bind] in H.
  match type of H with
  | (x <- ?M ;; _) = _ => destruct M as [dt|] eqn:Edt; [|discriminate H]
  end.
  cbn [bind] in H.
  match type of H with
  | (x <- ?M ;; _) = _ => destruct M as [ct|] eqn:Ect; [|discriminate H]
  end.
  cbn [bind] in H. injection H as <-.
  rewrite (dict_get_keyed
             (fun area =>
                match dict_get dt area, dict_get ct area with
                | Some d0, Some c0 => DeathsModel.cfr_of_totals d0 c0
                | _, _ => Fin (1 # 100)
                end)).
  - now rewrite (window_totals_none _ _ _ _ _ Edt Had).
  - apply align_index_In. right. apply dict_get_Some_In in Hac.
    change area with (fst (area, c)). now apply in_map.
Qed.

(* ================================================================== *)
(** ** The forecast of deaths                                          *)
(* ================================================================== *)

Lemma In_skipn {A : Type} (n : nat) (l : list A) (a : A) :
  In a (skipn n l) -> In a l.
Proof.
  revert l. induction n as [|n IH]; intros l H; [exact H|].
  destruct l as [|x tl]; [exact H|]. right. apply IH, H.
Qed.

(** Sums of finite values stay finite; a sum of values that are at least
    [lo] is at least [lo] times their number. *)
Lemma fold_fadd_fin (lo : Q) (ws : list Q) :
  Forall (Qle lo) ws ->
  forall acc, exists q,
    fold_left fadd (map Fin ws) (Fin acc) = Fin q /\
    (acc + lo * inject_Z (Z.of_nat (List.length ws)) <= q)%Q.
Proof.
  induction 1 as [|w ws Hw _ IH]; intro acc.
  - exists acc. split; [reflexivity|]. cbn [List.length].
    change (inject_Z (Z.of_nat 0)) with 0%Q. lra.
  - destruct (IH (acc + w)%Q) as (q & Eq & Hq).
    exists q. split; [exact Eq|].
    cbn [List.length]. rewrite inject_nat_S.
    set (N := inject_Z (Z.of_nat (List.length ws))) in *.
    assert (EN : (lo * (N + 1) == lo * N + lo)%Q) by ring.
    rewrite EN. lra.
Qed.

Lemma map_fin_ext {X : Type} (P : Q -> Prop) (f : X -> float64) (l : list X) :
  (forall x, In x l -> exists q, f x = Fin q /\ P q) ->
  exists qs, map f l = map Fin qs /\ List.length qs = List.length l /\ Forall P qs.
Proof.
  induction l as [|x tl IH]; intro H.
  - exists []. repeat split. constructor.
  - destruct (H x (or_introl eq_refl)) as (q & Eq & Hq).
    destruct IH as (qs & E & Hl & Hall); [intros y Hy; apply H; now right|].
    exists (q :: qs). cbn [map]. rewrite Eq, E. repeat split.
    + simpl. now rewrite Hl.
    + constructor; assumption.
Qed.

(** The centred rolling mean of values that are at least [lo] is at least
    [lo]. *)
Lemma rolling_mean_lower (lo : Q) (qs : list Q) :
  Forall (Qle lo) qs ->
  exists qs', rolling_mean (map Fin qs) = map Fin qs' /\
              List.length qs' = List.length qs /\ Forall (Qle lo) qs'.
Proof.
  intro Hall. unfold rolling_mean.
  destruct (map_fin_ext (Qle lo)
              (fun i : nat =>
                 let lo0 := (i - 7)%nat in
                 let window := firstn (i + 7 - lo0) (skipn lo0 (map Fin qs)) in
                 fdiv (fsum window) (of_nat (List.length window)))
              (seq 0 (List.length (map Fin qs)))) as (qs' & E & Hl & Hqs').
  - intros i Hi. apply in_seq in Hi. rewrite length_map in Hi. cbv zeta.
    rewrite skipn_map, firstn_map, length_map.
    set (ws := firstn (i + 7 - (i - 7)) (skipn (i - 7) qs)).
    assert (Hws : Forall (Qle lo) ws).
    { apply Forall_forall. intros w Hw. rewrite Forall_forall in Hall.
      apply Hall. unfold ws in Hw. apply In_firstn in Hw.
      apply (In_skipn _ _ _ Hw). }
    assert (Hne : (0 < List.length ws)%nat).
    { unfold ws. rewrite length_firstn, length_skipn. lia. }
    destruct (fold_fadd_fin lo ws Hws 0%Q) as (q & Eq & Hq).
    unfold fsum. rewrite Eq. unfold of_nat, of_int, fdiv.
    pose proof (inject_nat_pos _ Hne) as Hpos.
    assert (E0 : Qeq_bool (inject_Z (Z.of_nat (List.length ws))) 0 = false).
    { apply Qeq_bool_false. lra. }
    rewrite E0. eexists. split; [reflexivity|].
    apply Qle_shift_div_l; [exact Hpos | lra].
  - exists qs'. rewrite length_map, length_seq in Hl. repeat split; assumption.
Qed.

Lemma iterate_rolling_mean_lower (n : nat) (lo : Q) :
  forall qs, Forall (Qle lo) qs ->
  exists qs', iterate n rolling_mean (map Fin qs) = map Fin qs' /\
              List.length qs' = List.length qs /\ Forall (Qle lo) qs'.
Proof.
  induction n as [|n IH]; intros qs H.
  - exists qs. repeat split. exact H.
  - destruct (rolling_mean_lower lo qs H) as (q1 & E1 & L1 & H1).
    destruct (IH q1 H1) as (q2 & E2 & L2 & H2).
    exists q2. cbn [iterate]. rewrite E1, E2. repeat split; [lia | exact H2].
Qed.

Lemma round_half_even_nonneg (q : Q) : (0 <= q)%Q -> 0 <= round_half_even q.
Proof.
  intro H. change 0 with (round_half_even (inject_Z 0)) at 1.
  apply round_half_even_mono. exact H.
Qed.

Lemma int_cumsum_from_nonneg (l : list Z) :
  Forall (Z.le 0) l ->
  forall acc, Forall (Z.le acc) (int_cumsum_from acc l) /\
              StronglySorted Z.le (int_cumsum_from acc l).
Proof.
  induction 1 as [|x tl Hx _ IH]; intro acc; [split; constructor|].
  destruct (IH (acc + x)) as [Hge Hs]. cbn [int_cumsum_from]. split.
  - constructor; [lia|]. eapply Forall_impl; [|exact Hge]. intros z Hz.
    cbv beta in Hz. lia.
  - constructor; assumption.
Qed.

Lemma StronglySorted_map_mono (f : Z -> Z) (l : list Z) :
  (forall a b, a <= b -> f a <= f b) ->
  StronglySorted Z.le l -> StronglySorted Z.le (map f l).
Proof.
  intros Hf. induction 1 as [|x l _ IH Hall]; cbn [map]; constructor; [exact IH|].
  apply Forall_map. eapply Forall_impl; [|exact Hall]. intros z Hz. now apply Hf.
Qed.

(** The forecast of one area: daily deaths from non-negative smoothed
    daily cases and a non-negative ratio. *)
Lemma deaths_forecast_area (rows : list Z) (r : Q) (n : nat) (last_deaths : Z) :
  Forall (Z.le 0) rows -> (0 <= r)%Q ->
  exists daily,
    series_astype_int
      (map round0
         (iterate 5 rolling_mean
            (firstn n (map (fun v => fmul (of_int v) (Fin r)) rows))))
      = Some daily /\
    List.length daily = List.length (firstn n rows) /\
    Forall (Z.le 0) daily /\
    StronglySorted Z.le (map (fun v => v + last_deaths) (int_cumsum daily)) /\
    Forall (Z.le last_deaths) (map (fun v => v + last_deaths) (int_cumsum daily)).
Proof.
  intros Hrows Hr.
  assert (E : firstn n (map (fun v => fmul (of_int v) (Fin r)) rows)
              = map Fin (map (fun v => inject_Z v * r)%Q (firstn n rows))).
  { rewrite firstn_map, map_map. reflexivity. }
  rewrite E.
  assert (Hq : Forall (Qle 0) (map (fun v => inject_Z v * r)%Q (firstn n rows))).
  { apply Forall_map. apply Forall_forall. intros v Hv. apply In_firstn in Hv.
    rewrite Forall_forall in Hrows. specialize (Hrows v Hv).
    apply Qmult_le_0_compat; [|exact Hr].
    change 0%Q with (inject_Z 0). rewrite <- Zle_Qle. exact Hrows. }
  destruct (iterate_rolling_mean_lower 5 0%Q _ Hq) as (qs & Eqs & Lqs & Hqs).
  rewrite Eqs, astype_round_map.
  exists (map round_half_even qs).
  assert (Hd : Forall (Z.le 0) (map round_half_even qs)).
  { apply Forall_map. eapply Forall_impl; [|exact Hqs].
    intros q. apply round_half_even_nonneg. }
  destruct (int_cumsum_from_nonneg _ Hd 0) as [Hge Hs].
  split; [reflexivity|]. split; [|split; [exact Hd|split]].
  - rewrite length_map, Lqs, length_map. reflexivity.
  - apply StronglySorted_map_mono; [intros a b Hab; lia | exact Hs].
  - apply Forall_map. eapply Forall_impl; [|exact Hge]. intros z Hz.
    cbv beta in Hz |- *. lia.
Qed.

(** X19: when the smoothed daily cases of a group are non-negative and
    every ratio of the group is a non-negative number, the forecast of a
    group that [DeathsModel.run] computes has, for every area, exactly
    [cm.n_pred] daily deaths, none of them negative, and a cumulative
    deaths forecast that never decreases and never falls below the last
    actual cumulative deaths of the area. *)
Theorem X19_deaths_forecast_monotone
    (data : dict (DataFrame Z)) (self : DeathsModel.config) (cm_n_pred : nat)
    (cm : CasesModel.attributes) (cfr : dict (dict float64)) (group : string)
    (daily cumulative : Frame) :
  DeathsModel.forecast_group data self cm_n_pred cm cfr group
    = Some (daily, cumulative) ->
  (forall frame,
     dict_get (CasesModel.a_combined_daily_s cm) (group ++ "_cases") = Some frame ->
     Forall (fun c => Forall (Z.le 0) (snd c)) (frame_cols frame)) ->
  (forall ratios area ratio,
     dict_get cfr group = Some ratios -> dict_get ratios area = Some ratio ->
     exists q, ratio = Fin q /\ (0 <= q)%Q) ->
  Forall (fun c => List.length (snd c) = cm_n_pred /\ Forall (Z.le 0) (snd c))
         (frame_cols daily) /\
  Forall (fun c =>
            List.length (snd c) = cm_n_pred /\
            StronglySorted Z.le (snd c) /\
            exists deaths col last_deaths,
              dict_get data (group ++ "_deaths") = Some deaths /\
              dict_get deaths (fst c) = Some col /\
              loc col (DeathsModel.last_date self) = Some last_deaths /\
              Forall (Z.le last_deaths) (snd c))
         (frame_cols cumulative).
Proof.
  unfold DeathsModel.forecast_group. intros H Hcases Hratio.
  destruct (dict_get (CasesModel.a_combined_daily_s cm) (group ++ "_cases"))
    as [dcs|]; [|discriminate H].
  specialize (Hcases dcs eq_refl). cbn [bind] in H.
  destruct (dict_get cfr group) as [ratios|]; [|discriminate H].
  specialize (Hratio ratios). cbn [bind] in H.
  destruct (dict_get (CasesModel.a_pred_daily cm) (group ++ "_cases"))
    as [pred_index|]; [|discriminate H].
  cbn [bind] in H.
  destruct (dict_get data (group ++ "_deaths")) as [deaths|]; [|discriminate H].
  cbn [bind] in H.
  match type of H with
  | (cols <- ?M ;; _) = _ => destruct M as [cols|] eqn:Ecols; [|discriminate H]
  end.
  cbn [bind] in H. injection H as <- <-. cbn [frame_cols].
  apply mapM_Forall2 in Ecols.
  induction Ecols as [|area out cs outs Hc _ IH].
  - split; constructor.
  - destruct IH as [IH1 IH2].
    cbv beta in Hc.
    destruct (dict_get (frame_cols dcs) area) as [cases|] eqn:Ec;
      [|discriminate Hc].
    cbn [bind] in Hc.
    assert (Hc0 : Forall (Z.le 0) cases).
    { apply dict_get_Some_In in Ec. rewrite Forall_forall in Hcases.
      apply (Hcases _ Ec). }
    destruct (dict_get ratios area) as [ratio|] eqn:Er; [|discriminate Hc].
    cbn [bind] in Hc.
    destruct (Hratio area ratio eq_refl Er) as (q & -> & Hq).
    set (rows := rows_from (frame_start dcs)
                   (DeathsModel.last_date self - DeathsModel.lag self) cases) in *.
    assert (Hrows : Forall (Z.le 0) rows).
    { apply Forall_forall. intros v Hv. rewrite Forall_forall in Hc0.
      apply Hc0. unfold rows, rows_from in Hv. apply (In_skipn _ _ _ Hv). }
    destruct (Nat.eqb_spec
                (List.length (firstn cm_n_pred
                                (map (fun v => fmul (of_int v) (Fin q)) rows)))
                cm_n_pred) as [El|]; [|discriminate Hc].
    cbn [negb] in Hc.
    match type of Hc with
    | (daily <- ?M ;; _) = _ => destruct M as [dl0|] eqn:Edl0; [|discriminate Hc]
    end.
    cbn [bind] in Hc.
    destruct (dict_get deaths area) as [col|] eqn:Ecol; [|discriminate Hc].
    cbn [bind] in Hc.
    destruct (loc col (DeathsModel.last_date self)) as [last_deaths|] eqn:Eloc;
      [|discriminate Hc].
    cbn [bind] in Hc. injection Hc as <-.
    destruct (deaths_forecast_area rows q cm_n_pred last_deaths Hrows Hq)
      as (dl & Edl & Ldl & Hdl & Hsort & Hge).
    rewrite Edl in Edl0. injection Edl0 as <-.
    rewrite firstn_map, length_map in El.
    cbn [map fst snd]. split; constructor; try assumption.
    + cbn [snd]. split; [lia | exact Hdl].
    + cbn [fst snd]. split; [|split; [exact Hsort|]].
      * rewrite length_map. unfold int_cumsum. rewrite length_int_cumsum_from. lia.
      * exists deaths, col, last_deaths. repeat split; assumption.
Qed.

Lemma X19_deaths_forecast_monotone_witness :
  exists daily cumulative,
    DeathsModel.forecast_group forecast_data sample_deaths_config 3
      forecast_cm forecast_cfr "world" = Some (daily, cumulative) /\
    Forall (fun c => List.length (snd c) = 3%nat /\ Forall (Z.le 0) (snd c))
           (frame_cols daily) /\
    Forall (fun c =>
              List.length (snd c) = 3%nat /\
              StronglySorted Z.le (snd c) /\
              exists deaths col last_deaths,
                dict_get forecast_data ("world" ++ "_deaths") = Some deaths /\
                dict_get deaths (fst c) = Some col /\
                loc col (DeathsModel.last_date sample_deaths_config)
                  = Some last_deaths /\
                Forall (Z.le last_deaths) (snd c))
           (frame_cols cumulative).
Proof.
  do 2 eexists. split.
  - vm_compute. reflexivity.
  - apply (X19_deaths_forecast_monotone forecast_data sample_deaths_config 3
             forecast_cm forecast_cfr "world").
    + vm_compute. reflexivity.
    + intros frame H. vm_compute in H. injection H as <-.
      cbn [frame_cols]. repeat constructor; cbn [snd]; repeat constructor;
        discriminate.
    + intros ratios area ratio H1 H2. vm_compute in H1. injection H1 as <-.
      cbn [dict_get] in H2.
      destruct (String.eqb "Aland" area); [|discriminate H2].
      injection H2 as <-. exists (1 # 10)%Q. split; [reflexivity | discriminate].
Defined.

(* ================================================================== *)
(** ** Daily and cumulative tables                                     *)
(* ================================================================== *)

Lemma int_cumsum_diff_from (l : list Z) :
  forall a, int_cumsum_from a (int_diff_from a l) = l.
Proof.
  induction l as [|x tl IH]; intro a; [reflexivity|].
  cbn [int_diff_from int_cumsum_from].
  replace (a + (x - a)) with x by lia. now rewrite IH.
Qed.

(** The first row of a table, looked up by area. *)
Lemma first_row_get (cols : dict (list Z)) (first : dict Z) :
  first_row cols = Some first ->
  NoDup (map fst cols) ->
  forall name x tl, In (name, x :: tl) cols -> dict_get first name = Some x.
Proof.
  intros Hf Hnd name x tl Hin. unfold first_row in Hf.
  apply mapM_Forall2 in Hf.
  assert (Hkeys : map fst first = map fst cols).
  { clear Hnd Hin. induction Hf as [|c o cs os Hc _ IH]; [reflexivity|].
    destruct (hd_error (snd c)); [|discriminate Hc]. cbn [bind] in Hc.
    injection Hc as <-. cbn [map fst]. now rewrite IH. }
  apply dict_get_In; [now rewrite Hkeys|].
  clear Hkeys Hnd. induction Hf as [|c o cs os Hc _ IH]; [contradiction|].
  destruct Hin as [->|Hin].
  - cbn [snd hd_error bind fst] in Hc. injection Hc as <-. now left.
  - right. apply IH, Hin.
Qed.

(** The daily table of differences, summed up again, is the cumulative
    table. *)
Lemma daily_from_cumsum (cols : dict (list Z)) (first : dict Z)
    (daily : dict (list Z)) :
  first_row cols = Some first ->
  NoDup (map fst cols) ->
  daily_from first cols = Some daily ->
  map (fun c => (fst c, int_cumsum (snd c))) daily = cols.
Proof.
  intros Hf Hnd Hd.
  pose proof (first_row_get cols first Hf Hnd) as Hget.
  unfold daily_from in Hd. apply mapM_Forall2 in Hd.
  clear Hf Hnd. induction Hd as [|c o cs os Hc _ IH]; [reflexivity|].
  cbn [map]. rewrite IH by (intros n x tl Hin; apply (Hget n x tl); now right).
  f_equal. destruct c as [name [|x tl]].
  - cbn [snd fst] in Hc. injection Hc as <-. reflexivity.
  - cbn [snd fst] in Hc.
    rewrite (Hget name x tl (or_introl eq_refl)) in Hc. cbn [bind] in Hc.
    injection Hc as <-. cbn [fst snd]. f_equal.
    unfold int_cumsum. cbn [int_cumsum_from]. f_equal.
    apply int_cumsum_diff_from.
Qed.

Lemma concat_rows_spec (top bottom cols : dict (list Z)) :
  concat_rows top bottom = Some cols ->
  Forall2 (fun c out =>
             fst out = fst c /\
             exists b, dict_get bottom (fst c) = Some b /\ snd out = snd c ++ b)
          top cols.
Proof.
  unfold concat_rows. destruct (negb _); [discriminate|].
  intro H. apply mapM_Forall2 in H.
  eapply Forall2_impl; [|exact H]. intros c out Hc. cbv beta in Hc.
  destruct (dict_get bottom (fst c)) as [b|]; [|discriminate Hc].
  cbn [bind] in Hc. injection Hc as <-. split; [reflexivity|].
  exists b. split; reflexivity.
Qed.

Lemma mapM_total {A B : Type} (f : A -> option B) (l : list A) :
  (forall a, In a l -> exists b, f a = Some b) ->
  exists r, mapM f l = Some r.
Proof.
  induction l as [|a tl IH]; intro H; [now exists []|].
  destruct (H a (or_introl eq_refl)) as [b Hb].
  destruct IH as [r Hr]; [intros x Hx; apply H; now right|].
  exists (b :: r). cbn [mapM]. now rewrite Hb, Hr.
Qed.

Lemma dict_get_found {V : Type} (d : dict V) (k : string) :
  In k (map fst d) -> exists v, dict_get d k = Some v.
Proof.
  induction d as [|[k' v'] tl IH]; intro H; [contradiction|].
  cbn [dict_get]. destruct (String.eqb_spec k' k) as [_|Hne]; [now exists v'|].
  apply IH. destruct H as [H|H]; [contradiction | exact H].
Qed.

(** X20: when the forecast table of a group has the areas of the group's
    table of actual values (distinct names, in any order) and that table
    has a value for every area on its first day, [combine_actual_with_pred]
    builds its two tables without raising, both with the areas of the
    table of actual values in its order, and the cumulative sum of every
    column of the daily table is the column of the cumulative table: the
    two tables describe the same numbers. *)
Theorem X20_combined_round_trip
    (data : dict (DataFrame Z)) (self : DeathsModel.config)
    (gk : string) (table : DataFrame Z) (df_pred : Frame) :
  dict_get data gk = Some table ->
  Permutation (map fst (frame_cols df_pred)) (map fst table) ->
  NoDup (map fst table) ->
  0 <= DeathsModel.last_date self ->
  Forall (fun c => snd c <> []) table ->
  exists daily cumulative,
    DeathsModel.combine_tables data self gk df_pred = Some (daily, cumulative) /\
    map fst (frame_cols cumulative) = map fst table /\
    map (fun c => (fst c, int_cumsum (snd c))) (frame_cols daily)
    = frame_cols cumulative.
Proof.
  intros Ht Hperm Hnd Hdate Hrows.
  unfold DeathsModel.combine_tables. rewrite Ht. cbn [bind].
  set (top := map (fun c : string * list Z =>
                     (fst c, upto (snd c) (DeathsModel.last_date self))) table).
  assert (Hkeys : map fst top = map fst table).
  { unfold top. rewrite map_map. reflexivity. }
  (* the concatenation *)
  assert (Hcat : exists df_comb, concat_rows top (frame_cols df_pred) = Some df_comb).
  { unfold concat_rows.
    assert (Hlen : List.length top = List.length (frame_cols df_pred)).
    { rewrite <- (length_map fst top), Hkeys, <- (Permutation_length Hperm).
      apply length_map. }
    rewrite Hlen, Nat.eqb_refl. cbn [negb].
    apply mapM_total. intros c Hc.
    destruct (dict_get_found (frame_cols df_pred) (fst c)) as [b Hb].
    - apply (Permutation_in _ (Permutation_sym Hperm)).
      rewrite <- Hkeys. now apply in_map.
    - exists (fst c, snd c ++ b). now rewrite Hb. }
  destruct Hcat as [df_comb Hcat]. rewrite Hcat. cbn [bind].
  pose proof (concat_rows_spec _ _ _ Hcat) as Hspec.
  assert (Hk : map fst df_comb = map fst table).
  { rewrite <- Hkeys. clear - Hspec.
    induction Hspec as [|c o l rs [Hn _] _ IH]; [reflexivity|].
    cbn [map]. now rewrite Hn, IH. }
  assert (Hnd' : NoDup (map fst df_comb)) by (now rewrite Hk).
  assert (Hne : Forall (fun c => snd c <> []) df_comb).
  { assert (Htop : Forall (fun c => snd c <> []) top).
    { unfold top. rewrite Forall_map. eapply Forall_impl; [|exact Hrows].
      intros [name col] Hcol. cbn [snd] in *. unfold upto.
      destruct col as [|x tl]; [contradiction|].
      replace (Z.to_nat (DeathsModel.last_date self + 1))
        with (S (Z.to_nat (DeathsModel.last_date self))) by lia.
      discriminate. }
    clear - Hspec Htop.
    induction Hspec as [|c o l rs [_ (b & _ & Ho)] _ IH]; constructor.
    - inversion Htop as [|? ? Hc _]; subst. rewrite Ho.
      destruct (snd c); [contradiction | discriminate].
    - apply IH. now inversion Htop. }
  (* the first row *)
  assert (Hfirst : exists first, first_row df_comb = Some first).
  { apply mapM_total. intros c Hc. rewrite Forall_forall in Hne.
    specialize (Hne c Hc). destruct (snd c) as [|x tl]; [contradiction|].
    now exists (fst c, x). }
  destruct Hfirst as [first Hfirst]. rewrite Hfirst. cbn [bind].
  (* the daily table *)
  assert (Hdaily : exists daily, daily_from first df_comb = Some daily).
  { apply mapM_total. intros [name col] Hc. cbn [fst snd].
    destruct col as [|x tl]; [now eexists|].
    rewrite (first_row_get _ _ Hfirst Hnd' name x tl Hc). cbn [bind]. now eexists. }
  destruct Hdaily as [daily Hdaily]. rewrite Hdaily. cbn [bind].
  exists (mk_frame 0 daily), (mk_frame 0 df_comb). cbn [frame_cols].
  split; [reflexivity|]. split; [exact Hk|].
  apply (daily_from_cumsum _ _ _ Hfirst Hnd' Hdaily).
Qed.

Lemma X20_combined_round_trip_witness :
  exists daily cumulative,
    DeathsModel.combine_tables sample_raw sample_deaths_config "world_deaths"
      sample_pred_deaths = Some (daily, cumulative) /\
    map fst (frame_cols cumulative) = ["Aland"; "Borduria"]%string /\
    map (fun c => (fst c, int_cumsum (snd c))) (frame_cols daily)
    = frame_cols cumulative.
Proof.
  apply (X20_combined_round_trip sample_raw sample_deaths_config "world_deaths"
           [("Aland", [0; 0; 0; 0; 0; 0; 0; 0; 1; 1; 1; 2; 2; 2; 3; 3; 4]);
            ("Borduria", [0; 0; 0; 0; 0; 0; 0; 0; 0; 0; 0; 0; 0; 0; 0; 1; 2])]%string
           sample_pred_deaths).
  - reflexivity.
  - apply Permutation_refl.
  - cbn [map fst].
    apply NoDup_cons; [simpl; intros [H|[]]; discriminate H|].
    apply NoDup_cons; [intros []|]. apply NoDup_nil.
  - vm_compute. discriminate.
  - repeat constructor; discriminate.
Defined.

(* ================================================================== *)
(** ** The combined tables of [CasesModel.run]                         *)
(* ================================================================== *)

Lemma Forall2_impl_In {A B : Type} (Q Q' : A -> B -> Prop) (l : list A) (rs : list B) :
  Forall2 Q l rs ->
  (forall c e, In c l -> Q c e -> Q' c e) ->
  Forall2 Q' l rs.
Proof.
  induction 1 as [|c e l rs Hce _ IH]; intro H; constructor.
  - apply H; [now left | exact Hce].
  - apply IH. intros c' e' Hin. apply H. now right.
Qed.

(** Looking up the areas of a table in a table built from results that
    carry the same names in the same order. *)
Lemma dict_get_aligned {V W : Type} (g : W -> V) (R : string * list Z -> string * W -> Prop)
    (table : DataFrame Z) (areas : dict W) :
  Forall2 (fun c e => fst e = fst c /\ R c e) table areas ->
  NoDup (map fst table) ->
  Forall2 (fun c e =>
             dict_get (map (fun e => (fst e, g (snd e))) areas) (fst c)
             = Some (g (snd e)) /\ R c e)
          table areas.
Proof.
  induction 1 as [|c e l rs [He HR] _ IH]; intro Hnd; constructor.
  - split; [|exact HR]. cbn [map dict_get fst]. rewrite He, String.eqb_refl.
    reflexivity.
  - inversion Hnd as [|? ? Hnotin Hnd']; subst.
    apply (Forall2_impl_In _ _ _ _ (IH Hnd')).
    intros c' e' Hin [Hget HR']. split; [|exact HR'].
    cbn [map dict_get fst]. rewrite He.
    destruct (String.eqb_spec (fst c) (fst c')) as [E|_]; [|exact Hget].
    exfalso. apply Hnotin. rewrite E. now apply in_map.
Qed.

Section CasesModelTables.

Variable model : float64 -> params -> float64.
Variable lowess : list float64 -> list float64 -> float64 -> list float64.
Variable least_squares :
  (params -> list float64) -> params -> params * params -> option params.
Variable self : CasesModel.config.
Variable data : dict (DataFrame Z).

Import CasesModel.

Lemma combine_group_spec (a a1 : attributes) (gk : string) (df_pred : Frame) :
  combine_group self data a (gk, df_pred) = Some a1 ->
  exists table df_comb first daily,
    dict_get data gk = Some table /\
    concat_rows (map (fun c => (fst c, upto (snd c) (last_date self))) table)
                (frame_cols df_pred) = Some df_comb /\
    first_row df_comb = Some first /\
    daily_from first df_comb = Some daily /\
    a_combined_daily a1 = dict_set (a_combined_daily a) gk (mk_frame 0 daily) /\
    a_combined_cumulative a1
    = dict_set (a_combined_cumulative a) gk (mk_frame 0 df_comb).
Proof.
  unfold combine_group.
  destruct (dict_get data gk) as [table|]; [|discriminate]. cbn [bind].
  destruct (concat_rows _ (frame_cols df_pred)) as [df_comb|] eqn:Ec; [|discriminate].
  cbn [bind].
  destruct (first_row df_comb) as [first|] eqn:Ef; [|discriminate]. cbn [bind].
  destruct (daily_from first df_comb) as [daily|] eqn:Ed; [|discriminate].
  cbn [bind].
  destruct (dict_get (a_smoothed a) gk) as [sm|]; [|discriminate]. cbn [bind].
  destruct (concat_rows (frame_cols sm) (frame_cols df_pred)) as [cs|];
    [|discriminate].
  cbn [bind].
  destruct (daily_from first cs); [|discriminate]. cbn [bind].
  intro H. injection H as <-.
  exists table, df_comb, first, daily. repeat split; assumption.
Qed.

Lemma run_combined_tables (a a' : attributes) (group : string)
    (table : DataFrame Z) :
  run model lowess least_squares self data a = Some a' ->
  In group GROUPS ->
  dict_get data (group ++ "_cases") = Some table ->
  NoDup (map fst table) ->
  exists daily cumulative,
    dict_get (a_combined_daily a') (group ++ "_cases") = Some (mk_frame 0 daily) /\
    dict_get (a_combined_cumulative a') (group ++ "_cases")
      = Some (mk_frame 0 cumulative) /\
    Forall2 (fun c out =>
               fst out = fst c /\
               exists r,
                 run_area model lowess least_squares self (snd c) = Some r /\
                 snd out = upto (snd c) (last_date self) ++ r_pred_cumulative r)
            table cumulative /\
    map (fun c => (fst c, int_cumsum (snd c))) daily = cumulative.
Proof.
  intros H Hg Ht Hnd.
  destruct (run_forecast_tables _ _ _ _ _ _ _ _ _ H Hg Ht Hnd)
    as (areas & Hareas & _ & Hpc).
  unfold run in H. unfold GROUPS in *. cbn [foldM] in H.
  destruct (run_group model lowess least_squares self data (init_dictionaries a) "world")
    as [a1|] eqn:E1; [|discriminate H].
  cbn [bind] in H.
  destruct (run_group model lowess least_squares self data a1 "usa")
    as [a2|] eqn:E2; [|discriminate H].
  cbn [bind] in H. unfold combine_actual_with_pred in H.
  destruct (combine_loop_pred _ _ _ _ _ H) as [_ Hc]. rewrite Hc in Hpc.
  destruct (run_group_pred _ _ _ _ _ _ _ _ E1) as (t1 & ar1 & _ & _ & _ & Hc1).
  destruct (run_group_pred _ _ _ _ _ _ _ _ E2) as (t2 & ar2 & _ & _ & _ & Hc2).
  rewrite Hc2, Hc1 in H, Hpc.
  change ("world" ++ "_cases")%string with "world_cases"%string in *.
  change ("usa" ++ "_cases")%string with "usa_cases"%string in *.
  cbn [init_dictionaries a_pred_cumulative dict_set String.eqb Ascii.eqb Bool.eqb] in H, Hpc.
  cbn [foldM] in H.
  match type of H with
  | (s' <- ?M ;; _) = _ => destruct M as [a3|] eqn:E3; [|discriminate H]
  end.
  cbn [bind] in H.
  match type of H with
  | (s' <- ?M ;; _) = _ => destruct M as [a4|] eqn:E4; [|discriminate H]
  end.
  cbn [bind] in H. injection H as <-.
  destruct (combine_group_spec _ _ _ _ E3)
    as (tw & cw & fw & dw & Htw & Hcw & Hfw & Hdw & Hdaily3 & Hcum3).
  destruct (combine_group_spec _ _ _ _ E4)
    as (tu & cu & fu & du & Htu & Hcu & Hfu & Hdu & Hdaily4 & Hcum4).
  assert (Hfin : forall (df_comb : dict (list Z)) first dl,
            concat_rows (map (fun c => (fst c, upto (snd c) (last_date self))) table)
                        (map (fun c => (fst c, r_pred_cumulative (snd c))) areas)
              = Some df_comb ->
            first_row df_comb = Some first ->
            daily_from first df_comb = Some dl ->
            Forall2 (fun c out =>
               fst out = fst c /\
               exists r,
                 run_area model lowess least_squares self (snd c) = Some r /\
                 snd out = upto (snd c) (last_date self) ++ r_pred_cumulative r)
              table df_comb /\
            map (fun c => (fst c, int_cumsum (snd c))) dl = df_comb).
  { intros df_comb first dl Hcat Hfirst Hdl.
    apply concat_rows_spec in Hcat.
    pose proof (dict_get_aligned r_pred_cumulative _ _ _ Hareas Hnd) as Hal.
    assert (Hrel : Forall2 (fun c out =>
               fst out = fst c /\
               exists r,
                 run_area model lowess least_squares self (snd c) = Some r /\
                 snd out = upto (snd c) (last_date self) ++ r_pred_cumulative r)
              table df_comb).
    { clear - Hcat Hal.
      set (B := map (fun c : string * area_result =>
                       (fst c, r_pred_cumulative (snd c))) areas) in *.
      clearbody B.
      revert df_comb Hcat. induction Hal as [|c e l rs [Hget Hrun] _ IH];
        intros df_comb Hcat.
      - cbn [map] in Hcat. inversion Hcat. constructor.
      - cbn [map] in Hcat. inversion Hcat as [|? out ? outs [Hn (b & Hb & Hout)] Htl];
          subst. cbn [fst snd] in *. constructor.
        + split; [exact Hn|]. exists (snd e). split; [exact Hrun|].
          rewrite Hget in Hb. injection Hb as <-. exact Hout.
        + apply IH, Htl. }
    split; [exact Hrel|].
    apply (daily_from_cumsum _ _ _ Hfirst); [|exact Hdl].
    replace (map fst df_comb) with (map fst table); [exact Hnd|].
    clear - Hrel. induction Hrel as [|c o l rs [Hn _] _ IH]; [reflexivity|].
    cbn [map]. now rewrite Hn, IH. }
  rewrite Hdaily4, Hcum4, Hdaily3, Hcum3.
  destruct Hg as [<-|[<-|[]]].
  - change ("world" ++ "_cases")%string with "world_cases"%string in *.
    rewrite Htw in Ht. injection Ht as ->.
    cbn [dict_get String.eqb Ascii.eqb Bool.eqb] in Hpc. injection Hpc as Hpc.
    cbn [frame_cols] in Hcw. rewrite Hpc in Hcw.
    destruct (Hfin _ _ _ Hcw Hfw Hdw) as [Hrel Hsum].
    exists dw, cw.
    rewrite !(dict_get_set_other _ "world_cases" "usa_cases")%string by discriminate.
    rewrite !dict_get_set_same.
    repeat split; assumption.
  - change ("usa" ++ "_cases")%string with "usa_cases"%string in *.
    rewrite Htu in Ht. injection Ht as ->.
    cbn [dict_get String.eqb Ascii.eqb Bool.eqb] in Hpc. injection Hpc as Hpc.
    cbn [frame_cols] in Hcu. rewrite Hpc in Hcu.
    destruct (Hfin _ _ _ Hcu Hfu Hdu) as [Hrel Hsum].
    exists du, cu. rewrite !dict_get_set_same.
    repeat split; assumption.
Qed.

End CasesModelTables.

(** X21: after a successful [CasesModel.run], for each of the two groups
    whose cases table has distinct area names, the table
    [combined_cumulative] starts at the first date of the data and holds,
    for every area of the cases table and in the same order, the actual
    values up to [last_date] followed by the [n_pred] values of the
    cumulative forecast of the area, that is [last_date + 1 + n_pred]
    rows; and the cumulative sum of every column of [combined_daily] is
    the corresponding column of [combined_cumulative]. *)
Theorem X21_run_combined_tables
    (model : float64 -> params -> float64)
    (lowess : list float64 -> list float64 -> float64 -> list float64)
    (least_squares :
       (params -> list float64) -> params -> params * params -> option params)
    (self : CasesModel.config) (data : dict (DataFrame Z))
    (a a' : CasesModel.attributes) (group : string) (table : DataFrame Z) :
  CasesModel.run model lowess least_squares self data a = Some a' ->
  In group GROUPS ->
  dict_get data (group ++ "_cases") = Some table ->
  NoDup (map fst table) ->
  exists daily cumulative,
    dict_get (CasesModel.a_combined_daily a') (group ++ "_cases") = Some daily /\
    dict_get (CasesModel.a_combined_cumulative a') (group ++ "_cases")
      = Some cumulative /\
    frame_start daily = 0 /\ frame_start cumulative = 0 /\
    Forall2 (fun c out =>
               fst out = fst c /\
               (exists r,
                  CasesModel.run_area model lowess least_squares self (snd c)
                    = Some r /\
                  snd out = upto (snd c) (CasesModel.last_date self)
                            ++ CasesModel.r_pred_cumulative r) /\
               Z.of_nat (List.length (snd out))
               = CasesModel.last_date self + 1 + Z.of_nat (CasesModel.n_pred self))
            table (frame_cols cumulative) /\
    map (fun c => (fst c, int_cumsum (snd c))) (frame_cols daily)
    = frame_cols cumulative.
Proof.
  intros H Hg Ht Hnd.
  destruct (run_combined_tables _ _ _ _ _ _ _ _ _ H Hg Ht Hnd)
    as (daily & cumulative & Hd & Hc & Hrel & Hsum).
  exists (mk_frame 0 daily), (mk_frame 0 cumulative).
  split; [exact Hd|]. split; [exact Hc|]. cbn [frame_start frame_cols].
  split; [reflexivity|]. split; [reflexivity|]. split; [|exact Hsum].
  eapply Forall2_impl; [|exact Hrel].
  intros c out (Hn & r & Hr & Hout). split; [exact Hn|]. split.
  - exists r. split; assumption.
  - destruct (run_area_forecast _ _ _ _ _ _ Hr) as (la & Hl & _ & Hlen & Hcum).
    rewrite Hout, length_app, Nat2Z.inj_add, (length_upto_loc _ _ _ Hl).
    rewrite Hcum, length_map. unfold int_cumsum.
    rewrite length_int_cumsum_from, Hlen. reflexivity.
Qed.

Lemma X21_run_combined_tables_witness :
  exists a',
    CasesModel.run model_slope lowess_half least_squares_guess sample_config
      sample_raw fresh_cases = Some a' /\
    exists daily cumulative,
      dict_get (CasesModel.a_combined_daily a') ("usa" ++ "_cases") = Some daily /\
      dict_get (CasesModel.a_combined_cumulative a') ("usa" ++ "_cases")
        = Some cumulative /\
      frame_start daily = 0 /\ frame_start cumulative = 0 /\
      Forall2 (fun c out =>
                 fst out = fst c /\
                 (exists r,
                    CasesModel.run_area model_slope lowess_half least_squares_guess
                      sample_config (snd c) = Some r /\
                    snd out = upto (snd c) (CasesModel.last_date sample_config)
                              ++ CasesModel.r_pred_cumulative r) /\
                 Z.of_nat (List.length (snd out))
                 = CasesModel.last_date sample_config + 1
                   + Z.of_nat (CasesModel.n_pred sample_config))
              [("Texas"%string,
                [5; 7; 9; 12; 11; 15; 18; 20; 25; 30; 34; 38; 45; 50; 56; 61; 70])]
              (frame_cols cumulative) /\
      map (fun c => (fst c, int_cumsum (snd c))) (frame_cols daily)
      = frame_cols cumulative.
Proof.
  eexists. split.
  - vm_compute. reflexivity.
  - apply (X21_run_combined_tables model_slope lowess_half least_squares_guess
             sample_config sample_raw fresh_cases _ "usa"%string).
    + vm_compute. reflexivity.
    + right. now left.
    + reflexivity.
    + apply NoDup_cons; [intros []|]. apply NoDup_nil.
Defined.

(** X22: [CasesModel.run] raises when the data has no cases table for one
    of the two groups (KeyError) or when such a table has no area
    ([pd.concat] of nothing in [convert_to_df]). *)
Theorem X22_run_empty_group
    (model : float64 -> params -> float64)
    (lowess : list float64 -> list float64 -> float64 -> list float64)
    (least_squares :
       (params -> list float64) -> params -> params * params -> option params)
    (self : CasesModel.config) (data : dict (DataFrame Z))
    (a : CasesModel.attributes) (group : string) :
  In group GROUPS ->
  dict_get data (group ++ "_cases") = None \/
  dict_get data (group ++ "_cases") = Some [] ->
  CasesModel.run model lowess least_squares self data a = None.
Proof.
  intros Hg Hd.
  assert (Hrg : forall a0,
            CasesModel.run_group model lowess least_squares self data a0 group = None).
  { intro a0. unfold CasesModel.run_group.
    destruct Hd as [-> | ->]; reflexivity. }
  unfold CasesModel.run, GROUPS in *. cbn [foldM].
  destruct Hg as [<-|[<-|[]]].
  - rewrite Hrg. reflexivity.
  - destruct (CasesModel.run_group model lowess least_squares self data
                (CasesModel.init_dictionaries a) "world") as [a1|]; [|reflexivity].
    cbn [bind]. rewrite Hrg. reflexivity.
Qed.

Lemma X22_run_empty_group_witness :
  CasesModel.run model_linear lowess_half least_squares_guess sample_config
    [("world_cases", []); ("usa_cases", [("Texas", sample_cases)])]%string
    fresh_cases = None.
Proof.
  apply (X22_run_empty_group model_linear lowess_half least_squares_guess
           sample_config _ fresh_cases "world"%string).
  - now left.
  - right. reflexivity.
Defined.

(* ================================================================== *)
(** ** Data Smoothing: weighted windows and the alignment              *)
(* ================================================================== *)

(** Weighted sums: with positive weights [ws] and values between [lo] and
    [hi], the two running sums keep the weighted total between [lo] and
    [hi] times the total weight. *)
Lemma weighted_fold (lo hi : Q) (ws qs : list Q) :
  Forall (Qlt 0) ws -> Forall (fun q => lo <= q <= hi)%Q qs ->
  List.length ws = List.length qs ->
  forall acc accw, exists S W,
    fold_left fadd (zip_with fmul (map Fin ws) (map Fin qs)) (Fin acc) = Fin S /\
    fold_left fadd (map Fin ws) (Fin accw) = Fin W /\
    (accw <= W /\ (ws <> [] -> accw < W) /\
     acc + lo * (W - accw) <= S /\ S <= acc + hi * (W - accw))%Q.
Proof.
  intros Hw. revert qs. induction Hw as [|w ws Hw0 _ IH]; intros qs Hq Hlen acc accw.
  - destruct qs; [|discriminate Hlen]. exists acc, accw. cbn.
    repeat split; try lra. congruence.
  - destruct qs as [|q qs]; [discriminate Hlen|].
    apply Forall_cons_iff in Hq. destruct Hq as [Hq0 Hq].
    injection Hlen as Hlen.
    destruct (IH qs Hq Hlen (acc + w * q)%Q (accw + w)%Q)
      as (S & W & ES & EW & H1 & H2 & H3 & H4).
    exists S, W. cbn [map zip_with fold_left fadd fmul]. rewrite ES, EW.
    repeat split; try lra; nra.
Qed.

(** X23: on a window of one to seven numbers, [weighted_sum] returns a
    number between the smallest and the largest value of the window (the
    weights are positive and normalised by their sum); on a longer window
    the product of the weights and the values raises. *)
Theorem X23_weighted_sum_between (lo hi : Q) (qs : list Q) :
  qs <> [] -> Forall (fun q => lo <= q <= hi)%Q qs ->
  if (List.length qs <=? 7)%nat
  then exists y, weighted_sum (map Fin qs) = Some (Fin y) /\ (lo <= y <= hi)%Q
  else weighted_sum (map Fin qs) = None.
Proof.
  intros Hne Hall. unfold weighted_sum.
  destruct (Nat.leb_spec (List.length qs) 7) as [Hlen|Hlen].
  - set (ws := firstn (List.length qs)
                 [8 # 100; 12 # 100; 15 # 100; 30 # 100; 15 # 100; 12 # 100; 8 # 100]%Q).
    assert (Ew : firstn (List.length (map Fin qs)) weight = map Fin ws).
    { unfold ws, weight. rewrite length_map, <- firstn_map. reflexivity. }
    assert (Lw : List.length ws = List.length qs).
    { unfold ws. rewrite length_firstn. simpl List.length. lia. }
    assert (Hpos : Forall (Qlt 0) ws).
    { apply Forall_forall. intros w Hw. apply In_firstn in Hw.
      simpl in Hw. repeat (destruct Hw as [<-|Hw]; [reflexivity|]). contradiction. }
    rewrite Ew, !length_map, Lw, Nat.eqb_refl. cbn [negb].
    destruct (weighted_fold lo hi ws qs Hpos Hall Lw 0%Q 0%Q)
      as (S & W & ES & EW & H1 & H2 & H3 & H4).
    unfold fsum. rewrite ES, EW.
    assert (HW : (0 < W)%Q).
    { apply H2. intros E. rewrite E in Lw. destruct qs; [congruence | discriminate Lw]. }
    unfold fdiv. assert (E0 : Qeq_bool W 0 = false) by (apply Qeq_bool_false; lra).
    rewrite E0. eexists. split; [reflexivity|]. split.
    + apply Qle_shift_div_l; [exact HW | lra].
    + apply Qle_shift_div_r; [exact HW | lra].
  - rewrite length_firstn, length_map.
    change (List.length weight) with 7%nat.
    destruct (Nat.eqb_spec (Nat.min (List.length qs) 7) (List.length qs));
      [lia | reflexivity].
Qed.

Lemma X23_weighted_sum_between_witness :
  exists y,
    weighted_sum (map Fin [10; 40; 20; 30]%Q) = Some (Fin y) /\ (10 <= y <= 40)%Q.
Proof.
  apply (X23_weighted_sum_between 10 40 [10; 40; 20; 30]%Q).
  - discriminate.
  - repeat constructor; discriminate.
Defined.

Lemma wrap_int64_small (z : Z) : - 2 ^ 63 <= z < 2 ^ 63 -> wrap_int64 z = z.
Proof. intro H. unfold wrap_int64. rewrite Z.mod_small; lia. Qed.

Lemma map_ext_Forall {A B : Type} (P : A -> Prop) (f g : A -> B) (l : list A) :
  Forall P l -> (forall a, P a -> f a = g a) -> map f l = map g l.
Proof.
  intros H Hfg. induction H as [|a l Ha _ IH]; [reflexivity|].
  cbn [map]. now rewrite (Hfg a Ha), IH.
Qed.

(** X24: the cell that aligns the smoothed cumulative total with the
    actual one (products within int64): when the last smoothed value is 0
    the cast to integers raises; otherwise the aligned column has the same
    number of rows and its last value is exactly the last actual value,
    and it is non-decreasing when the smoothed column is non-decreasing,
    its last value positive and the last actual value non-negative. *)
Theorem X24_align_cumulative (s_lowess_cumulative texasc : list Z)
    (last_actual last_smoothed : Z) :
  last_value texasc = Some last_actual ->
  last_value s_lowess_cumulative = Some last_smoothed ->
  Forall (fun v => - 2 ^ 63 <= v * last_actual < 2 ^ 63) s_lowess_cumulative ->
  (last_smoothed = 0 -> align_cumulative s_lowess_cumulative texasc = None) /\
  (last_smoothed <> 0 ->
   exists r,
     align_cumulative s_lowess_cumulative texasc = Some r /\
     List.length r = List.length s_lowess_cumulative /\
     last_value r = Some last_actual /\
     (StronglySorted Z.le s_lowess_cumulative -> 0 <= last_actual ->
      0 < last_smoothed -> StronglySorted Z.le r)).
Proof.
  intros Ha Hs Hrange. unfold align_cumulative. rewrite Ha, Hs. cbn [bind].
  rewrite (map_ext_Forall _ _
             (fun v => fdiv (of_int (v * last_actual)) (of_int last_smoothed))
             _ Hrange)
    by (intros v Hv; now rewrite wrap_int64_small).
  split.
  - intros ->. destruct s_lowess_cumulative as [|v tl]; [discriminate Hs|].
    unfold series_astype_int. cbn [map mapM]. unfold fdiv, of_int.
    change (Qeq_bool (inject_Z 0) 0) with true. cbv iota.
    destruct (Qeq_bool (inject_Z (v * last_actual)) 0); [reflexivity|].
    unfold inf_signed. destruct (Qltb _ _); reflexivity.
  - intro Hne.
    assert (E0 : Qeq_bool (inject_Z last_smoothed) 0 = false).
    { apply Qeq_bool_false. unfold Qeq. simpl. lia. }
    assert (E : map (fun v => fdiv (of_int (v * last_actual)) (of_int last_smoothed))
                    s_lowess_cumulative
                = map Fin (map (fun v => inject_Z (v * last_actual) / inject_Z last_smoothed)%Q
                               s_lowess_cumulative)).
    { rewrite map_map. apply map_ext. intro v. unfold fdiv, of_int. now rewrite E0. }
    rewrite E, astype_round_map, map_map.
    eexists. split; [reflexivity|]. split; [apply length_map|]. split.
    + rewrite last_value_map, Hs. cbn [option_map]. f_equal.
      rewrite <- (round_half_even_inject last_actual) at 2.
      apply round_half_even_comp. rewrite inject_Z_mult. field.
      intro H0. apply Qeq_bool_false in E0. contradiction.
    + intros Hsort Hla Hls. apply StronglySorted_map_mono; [|exact Hsort].
      intros a b Hab. apply round_half_even_mono.
      apply Qmult_le_compat_r.
      * rewrite <- Zle_Qle. nia.
      * apply Qinv_le_0_compat. change 0%Q with (inject_Z 0).
        rewrite <- Zle_Qle. lia.
Qed.

Lemma X24_align_cumulative_witness :
  (40 = 0 -> align_cumulative [10; 20; 40] [15; 30; 50] = None) /\
  (40 <> 0 ->
   exists r,
     align_cumulative [10; 20; 40] [15; 30; 50] = Some r /\
     List.length r = List.length [10; 20; 40] /\
     last_value r = Some 50 /\
     (StronglySorted Z.le [10; 20; 40] -> 0 <= 50 -> 0 < 40 ->
      StronglySorted Z.le r)).
Proof.
  apply (X24_align_cumulative [10; 20; 40] [15; 30; 50] 50 40).
  - reflexivity.
  - reflexivity.
  - repeat constructor; cbn; lia.
Defined.

(* ================================================================== *)
(** ** The forecast of a model that does not decrease                  *)
(* ================================================================== *)

(** The daily deltas of a model that does not decrease from one day to
    the next are non-negative numbers. *)
Lemma diff_model_nonneg (model : float64 -> params -> float64) (p : params) :
  (forall x : Z, 0 <= x ->
     exists y0 y1, model (of_int x) p = Fin y0 /\
                   model (of_int (x + 1)) p = Fin y1 /\ (y0 <= y1)%Q) ->
  forall (k : nat) (a : Z), 0 <= a ->
  exists qs,
    diff_from (model (of_int a) p)
      (map (fun x => model x p)
           (map of_int (arange (a + 1) (a + 1 + Z.of_nat k))))
    = map Fin qs /\
    Forall (Qle 0) qs.
Proof.
  intros Hm. induction k as [|k IH]; intros a Ha.
  - exists []. unfold arange. replace (a + 1 + Z.of_nat 0 - (a + 1)) with 0 by lia.
    split; [reflexivity | constructor].
  - rewrite arange_cons by lia. cbn [map diff_from].
    destruct (Hm a Ha) as (y0 & y1 & E0 & E1 & Hle).
    destruct (IH (a + 1) ltac:(lia)) as (qs & Eqs & Hqs).
    replace (a + 1 + Z.of_nat (S k)) with (a + 1 + 1 + Z.of_nat k) by lia.
    rewrite Eqs, E0, E1. cbn [fsub fneg fadd].
    exists ((y1 + - y0)%Q :: qs). split; [reflexivity|].
    constructor; [lra | exact Hqs].
Qed.

Lemma run_area_daily
    (model : float64 -> params -> float64)
    (lowess : list float64 -> list float64 -> float64 -> list float64)
    (least_squares :
       (params -> list float64) -> params -> params * params -> option params)
    (self : CasesModel.config) (s : list Z) (r : CasesModel.area_result) :
  CasesModel.run_area model lowess least_squares self s = Some r ->
  let n := List.length (CasesModel.get_train self (values (CasesModel.r_smoothed r))) in
  ((n < MIN_OBS)%nat /\
   CasesModel.r_pred_daily r = repeat 0 (CasesModel.n_pred self)) \/
  ((MIN_OBS <= n)%nat /\
   series_astype_int
     (map round0 (CasesModel.get_pred_daily model self n (CasesModel.r_params r)))
   = Some (CasesModel.r_pred_daily r)).
Proof.
  unfold CasesModel.run_area.
  destruct (CasesModel.smooth lowess self s) as [sm|]; [|discriminate].
  cbn [bind].
  set (train := CasesModel.get_train self (values sm)).
  destruct (Nat.ltb_spec (List.length train) MIN_OBS) as [Hlt|Hge].
  - cbn [bind]. unfold CasesModel.get_pred_cumulative.
    destruct (loc s (CasesModel.last_date self)); [|discriminate]. cbn [bind].
    rewrite astype_zeros. cbn [bind].
    match goal with
    | |- (x <- ?M ;; _) = _ -> _ => destruct M; [|discriminate]
    end.
    cbn [bind]. intro H. injection H as <-.
    cbn [CasesModel.r_smoothed CasesModel.r_pred_daily]. left. now split.
  - destruct (CasesModel.get_bounds_p0 self train) as [[bounds p0]|]; [|discriminate].
    cbn [bind].
    destruct (CasesModel.train_model model least_squares train bounds p0) as [p|];
      [|discriminate].
    cbn [bind]. unfold CasesModel.get_pred_cumulative.
    destruct (loc s (CasesModel.last_date self)); [|discriminate]. cbn [bind].
    destruct (series_astype_int
                (map round0 (CasesModel.get_pred_daily model self (List.length train) p)))
      as [daily|] eqn:Ed; [|discriminate].
    cbn [bind].
    match goal with
    | |- (x <- ?M ;; _) = _ -> _ => destruct M; [|discriminate]
    end.
    cbn [bind]. intro H. injection H as <-.
    cbn [CasesModel.r_smoothed CasesModel.r_pred_daily CasesModel.r_params].
    right. split; [exact Hge | exact Ed].
Qed.

(** X25: in every result [run] stores for an area, no daily forecast is
    negative and the cumulative forecast never decreases and never falls
    below the last actual value, provided that, when a model was fitted
    (the training window has at least MIN_OBS values), the model at the
    fitted parameters is a number at every day and does not decrease from
    one day to the next.  When no model was fitted nothing is asked of the
    model: the forecast is flat. *)
Theorem X25_run_area_monotone_forecast
    (model : float64 -> params -> float64)
    (lowess : list float64 -> list float64 -> float64 -> list float64)
    (least_squares :
       (params -> list float64) -> params -> params * params -> option params)
    (self : CasesModel.config) (s : list Z) (r : CasesModel.area_result)
    (last_actual : Z) :
  CasesModel.run_area model lowess least_squares self s = Some r ->
  loc s (CasesModel.last_date self) = Some last_actual ->
  ((MIN_OBS <=
    List.length (CasesModel.get_train self (values (CasesModel.r_smoothed r))))%nat ->
   forall x : Z, 0 <= x ->
     exists y0 y1,
       model (of_int x) (CasesModel.r_params r) = Fin y0 /\
       model (of_int (x + 1)) (CasesModel.r_params r) = Fin y1 /\ (y0 <= y1)%Q) ->
  Forall (Z.le 0) (CasesModel.r_pred_daily r) /\
  StronglySorted Z.le (CasesModel.r_pred_cumulative r) /\
  Forall (Z.le last_actual) (CasesModel.r_pred_cumulative r).
Proof.
  intros H Hl Hm.
  destruct (run_area_forecast _ _ _ _ _ _ H) as (la & Hl' & _ & _ & Hc).
  rewrite Hl in Hl'. injection Hl' as <-.
  assert (Hd : Forall (Z.le 0) (CasesModel.r_pred_daily r)).
  { destruct (run_area_daily _ _ _ _ _ _ H) as [[_ ->] | [Hn Ed]].
    - clear. induction (CasesModel.n_pred self); constructor; [lia | assumption].
    - specialize (Hm Hn).
      set (n := List.length
                  (CasesModel.get_train self (values (CasesModel.r_smoothed r)))) in *.
      unfold CasesModel.get_pred_daily in Ed.
      rewrite arange_cons in Ed by lia. cbn [map np_diff] in Ed.
      replace (Z.of_nat n + Z.of_nat (CasesModel.n_pred self))
        with (Z.of_nat n - 1 + 1 + Z.of_nat (CasesModel.n_pred self)) in Ed by lia.
      destruct (diff_model_nonneg model _ Hm (CasesModel.n_pred self)
                  (Z.of_nat n - 1)) as (qs & Eqs & Hqs).
      { unfold MIN_OBS in Hn. lia. }
      rewrite Eqs, astype_round_map in Ed. injection Ed as <-.
      apply Forall_map. eapply Forall_impl; [|exact Hqs].
      intros q. apply round_half_even_nonneg. }
  split; [exact Hd|].
  destruct (int_cumsum_from_nonneg _ Hd 0) as [Hge Hs].
  rewrite Hc. split.
  - apply StronglySorted_map_mono; [intros a b Hab; lia | exact Hs].
  - apply Forall_map. eapply Forall_impl; [|exact Hge]. intros z Hz.
    cbv beta in Hz |- *. lia.
Qed.

(** Two areas: one with a fitted model (a line of positive slope), one
    with a training window of 10 days, for which nothing is fitted and the
    shifted logistic curve is evaluated nowhere. *)
Lemma X25_run_area_monotone_forecast_witness :
  (exists r,
     CasesModel.run_area model_slope lowess_half least_squares_guess
       sample_config sample_cases = Some r /\
     Forall (Z.le 0) (CasesModel.r_pred_daily r) /\
     StronglySorted Z.le (CasesModel.r_pred_cumulative r) /\
     Forall (Z.le 32) (CasesModel.r_pred_cumulative r)) /\
  (exists r,
     CasesModel.run_area (general_logistic_shift np_exp_sample np_power_sample)
       lowess_half least_squares_guess small_train_config sample_cases = Some r /\
     CasesModel.r_params r = nan_params /\
     Forall (Z.le 0) (CasesModel.r_pred_daily r) /\
     StronglySorted Z.le (CasesModel.r_pred_cumulative r) /\
     Forall (Z.le 32) (CasesModel.r_pred_cumulative r)).
Proof.
  split.
  - eexists. split.
    + vm_compute. reflexivity.
    + apply (X25_run_area_monotone_forecast model_slope lowess_half
               least_squares_guess sample_config sample_cases).
      * vm_compute. reflexivity.
      * reflexivity.
      * intros _ x Hx. cbn [CasesModel.r_params]. unfold model_slope, of_int.
        cbn [p_s fmul]. do 2 eexists. split; [reflexivity|]. split; [reflexivity|].
        rewrite inject_Z_plus. change (inject_Z 1) with 1%Q. lra.
  - eexists. split; [vm_compute; reflexivity|]. split; [reflexivity|].
    apply (X25_run_area_monotone_forecast
             (general_logistic_shift np_exp_sample np_power_sample) lowess_half
             least_squares_guess small_train_config sample_cases).
    + vm_compute. reflexivity.
    + reflexivity.
    + intro Hn. exfalso. vm_compute in Hn. lia.
Defined.
